(** * Dropee backend: vehicle matcher and rebalancer

    A shallow embedding of [assigner.js] and [rebalancer.js] and the
    properties of the matcher, the demand clusterer and the rebalance
    planner.

    Conventions of the model.
    - A JavaScript number is a [jsnum]: NaN, the two infinities, or a finite
      value carried as an exact rational.  Rounding to binary64 and the sign
      of zero are not represented.
    - A Firestore collection is a [gmap] from document id to a record of the
      fields the code reads or writes; a query result lists documents by
      ascending id, Firestore's default order.
    - [async] code is written in state-passing style over a [World]; the
      points where other requests can interleave are the boundaries between
      the phases of [assignDriverForBooking]. *)

From Stdlib Require Import QArith Qround Qabs Ascii.
From stdpp Require Import gmap strings list fin_maps sorting pretty.

Local Open Scope Z_scope.

(** ** JavaScript numbers *)

Inductive jsnum : Type :=
| NaN
| PosInf
| NegInf
| Fin (q : Q).

Definition Qltb (a b : Q) : bool :=
  match (a ?= b)%Q with Lt => true | _ => false end.

Definition Qeqb (a b : Q) : bool :=
  match (a ?= b)%Q with Eq => true | _ => false end.

Definition jnum (z : Z) : jsnum := Fin (inject_Z z).

Definition isNaN (x : jsnum) : bool :=
  match x with NaN => true | _ => false end.

Definition jneg (x : jsnum) : jsnum :=
  match x with
  | NaN => NaN
  | PosInf => NegInf
  | NegInf => PosInf
  | Fin q => Fin (- q)%Q
  end.

Definition jadd (x y : jsnum) : jsnum :=
  match x, y with
  | NaN, _ | _, NaN => NaN
  | PosInf, NegInf | NegInf, PosInf => NaN
  | PosInf, _ | _, PosInf => PosInf
  | NegInf, _ | _, NegInf => NegInf
  | Fin a, Fin b => Fin (a + b)%Q
  end.

Definition jsub (x y : jsnum) : jsnum :=
  match x, y with
  | NaN, _ | _, NaN => NaN
  | PosInf, PosInf | NegInf, NegInf => NaN
  | PosInf, _ | _, NegInf => PosInf
  | NegInf, _ | _, PosInf => NegInf
  | Fin a, Fin b => Fin (a - b)%Q
  end.

(** Sign of a number that is not NaN: [Lt] negative, [Eq] zero, [Gt] positive. *)
Definition jsign (x : jsnum) : comparison :=
  match x with
  | NaN => Eq
  | PosInf => Gt
  | NegInf => Lt
  | Fin q => (q ?= 0)%Q
  end.

Definition jmul (x y : jsnum) : jsnum :=
  match x, y with
  | NaN, _ | _, NaN => NaN
  | Fin a, Fin b => Fin (a * b)%Q
  | _, _ =>
      match jsign x, jsign y with
      | Eq, _ | _, Eq => NaN
      | Gt, Gt | Lt, Lt => PosInf
      | _, _ => NegInf
      end
  end.

Definition jdiv (x y : jsnum) : jsnum :=
  match x, y with
  | NaN, _ | _, NaN => NaN
  | Fin a, Fin b =>
      if Qeqb b 0 then
        match (a ?= 0)%Q with Eq => NaN | Gt => PosInf | Lt => NegInf end
      else Fin (a / b)%Q
  | Fin _, _ => Fin 0
  | _, Fin b =>
      match jsign x, (b ?= 0)%Q with
      | Gt, Lt | Lt, Gt | Lt, Eq => NegInf
      | _, _ => PosInf
      end
  | _, _ => NaN
  end.

Definition jabs (x : jsnum) : jsnum :=
  match x with
  | NaN => NaN
  | PosInf | NegInf => PosInf
  | Fin q => Fin (Qabs q)
  end.

(** [x < y]; false as soon as one side is NaN. *)
Definition jltb (x y : jsnum) : bool :=
  match x, y with
  | NaN, _ | _, NaN => false
  | _, NegInf => false
  | NegInf, _ => true
  | PosInf, _ => false
  | Fin _, PosInf => true
  | Fin a, Fin b => Qltb a b
  end.

Definition jgtb (x y : jsnum) : bool := jltb y x.

(** [x >= y] *)
Definition jgeb (x y : jsnum) : bool :=
  match x, y with
  | NaN, _ | _, NaN => false
  | _, _ => negb (jltb x y)
  end.

(** [Math.max] and [Math.min] of two arguments. *)
Definition jmax (x y : jsnum) : jsnum :=
  match x, y with
  | NaN, _ | _, NaN => NaN
  | _, _ => if jltb x y then y else x
  end.

Definition jmin (x y : jsnum) : jsnum :=
  match x, y with
  | NaN, _ | _, NaN => NaN
  | _, _ => if jltb y x then y else x
  end.

(** [Math.round]: to the nearest integer, halves towards plus infinity. *)
Definition jround (x : jsnum) : jsnum :=
  match x with
  | Fin q => jnum (Qfloor (q + (1 # 2))%Q)
  | _ => x
  end.

Definition jfloor (x : jsnum) : jsnum :=
  match x with
  | Fin q => jnum (Qfloor q)
  | _ => x
  end.

(** Truthiness of a number: everything but zero and NaN. *)
Definition jtruthy (x : jsnum) : bool :=
  match x with
  | NaN => false
  | Fin q => negb (Qeqb q 0)
  | _ => true
  end.

(** ** [Array.prototype.sort]

    The comparator returns a number; a NaN result counts as zero.  The sort
    is stable.  It is written as an insertion sort: for a consistent
    comparator every stable sort returns the same list, for an inconsistent
    one the language leaves the order to the engine. *)

Section ArraySort.
Context {A : Type} (comparefn : A → A → jsnum).

Definition sortsAfter (x y : A) : bool := jgtb (comparefn x y) (Fin 0).
Definition sortsBefore (x y : A) : bool := jltb (comparefn x y) (Fin 0).

Fixpoint sortInsert (x : A) (l : list A) : list A :=
  match l with
  | [] => [x]
  | y :: l' => if sortsAfter x y then y :: sortInsert x l' else x :: l
  end.

Fixpoint arraySort (l : list A) : list A :=
  match l with
  | [] => []
  | x :: l' => sortInsert x (arraySort l')
  end.
End ArraySort.

(** ** JavaScript values held in document fields

    Only the kinds of value the code distinguishes on a coordinate field:
    an absent field, an explicit null, a number and a string. *)

Inductive jsval : Type :=
| VUndef
| VNull
| VNum (n : jsnum)
| VStr (s : string).

(** [x == null] *)
Definition isNullish (v : jsval) : bool :=
  match v with VUndef | VNull => true | _ => false end.

(** [!x] is [negb (truthy x)]. *)
Definition truthy (v : jsval) : bool :=
  match v with
  | VUndef | VNull => false
  | VNum n => jtruthy n
  | VStr s => negb (String.eqb s "")
  end.

(** *** [parseFloat]

    The longest prefix of the string, after leading white space, that is a
    decimal literal; NaN when there is none.  Strings are byte strings, so
    white space is the ASCII part of the language's white space. *)

Definition isWhiteSpace (a : ascii) : bool :=
  let n := N_of_ascii a in
  ((9 <=? n) && (n <=? 13) || (n =? 32))%N.

Fixpoint trimStart (s : string) : string :=
  match s with
  | String a s' => if isWhiteSpace a then trimStart s' else s
  | EmptyString => s
  end.

Definition digitOf (a : ascii) : option Z :=
  let n := Z.of_N (N_of_ascii a) in
  if (48 <=? n) && (n <=? 57) then Some (n - 48) else None.

(** Reads a run of decimal digits on top of the accumulator [acc]; returns
    the value, the number of digits read and the rest of the string. *)
Fixpoint readDigits (s : string) (acc : Z) (n : nat) : Z * nat * string :=
  match s with
  | String a s' =>
      match digitOf a with
      | Some d => readDigits s' (10 * acc + d) (S n)
      | None => (acc, n, s)
      end
  | EmptyString => (acc, n, s)
  end.

Definition readSign (s : string) : bool * string :=
  match s with
  | String "-" s' => (true, s')
  | String "+" s' => (false, s')
  | _ => (false, s)
  end.

(** An exponent part is consumed only when it has at least one digit. *)
Definition readExponent (s : string) : Z * string :=
  match s with
  | String a s' =>
      if (Ascii.eqb a "e" || Ascii.eqb a "E")%bool then
        let '(neg, s'') := readSign s' in
        let '(v, n, rest) := readDigits s'' 0 0 in
        match n with
        | O => (0, s)
        | S _ => (if neg then - v else v, rest)
        end
      else (0, s)
  | EmptyString => (0, s)
  end.

Fixpoint stripPrefix (p s : string) : option string :=
  match p, s with
  | EmptyString, _ => Some s
  | String a p', String b s' => if Ascii.eqb a b then stripPrefix p' s' else None
  | String _ _, EmptyString => None
  end.

(** [m * 10 ^ e] *)
Definition scale10 (m e : Z) : Q :=
  if 0 <=? e then inject_Z (m * 10 ^ e) else (m # Z.to_pos (10 ^ (- e)))%Q.

Definition readUnsignedDecimal (s : string) : option (jsnum * string) :=
  match stripPrefix "Infinity" s with
  | Some rest => Some (PosInf, rest)
  | None =>
      let '(i, ni, s1) := readDigits s 0 0 in
      let mantissa :=
        match s1 with
        | String "." s1' =>
            let '(m, nf, s2) := readDigits s1' i 0 in
            match ni, nf with
            | O, O => None
            | _, _ => Some (m, nf, s2)
            end
        | _ => match ni with O => None | S _ => Some (i, O, s1) end
        end in
      match mantissa with
      | None => None
      | Some (m, nf, s2) =>
          let '(e, s3) := readExponent s2 in
          Some (Fin (scale10 m (e - Z.of_nat nf)), s3)
      end
  end.

Definition readDecimal (s : string) : option (jsnum * string) :=
  let '(neg, s') := readSign s in
  match readUnsignedDecimal s' with
  | Some (v, rest) => Some (if neg then jneg v else v, rest)
  | None => None
  end.

Definition parseFloatString (s : string) : jsnum :=
  match readDecimal (trimStart s) with
  | Some (v, _) => v
  | None => NaN
  end.

(** [parseFloat] converts its argument to a string first; a number prints
    to a literal that reads back as the same number, "undefined" and "null"
    read as NaN. *)
Definition parseFloat (v : jsval) : jsnum :=
  match v with
  | VUndef | VNull => NaN
  | VNum n => n
  | VStr s => parseFloatString s
  end.

(** ** The parts of the runtime that stay abstract

    The transcendental functions of [Math] are approximations chosen by the
    engine; string-to-number conversion and [toFixed] print and read binary64
    values.  The model takes them as they come. *)

Record JsRuntime : Type := {
  Math_sin : jsnum → jsnum;
  Math_cos : jsnum → jsnum;
  Math_sqrt : jsnum → jsnum;
  Math_atan2 : jsnum → jsnum → jsnum;
  StringToNumber : string → jsnum;
  Number_toFixed : jsnum → nat → string
}.

(** [Math.PI], the binary64 value 3.141592653589793. *)
Definition Math_PI : jsnum := Fin (884279719003555 # 281474976710656).

Section Geodistance.
Context (rt : JsRuntime).

(** The conversion applied to an operand of [-] and [*]. *)
Definition ToNumber (v : jsval) : jsnum :=
  match v with
  | VUndef => NaN
  | VNull => Fin 0
  | VNum n => n
  | VStr s => StringToNumber rt s
  end.

Definition toRad (x : jsnum) : jsnum := jdiv (jmul x Math_PI) (jnum 180).

(** The constant [a] of [haversineDistanceKm]. *)
Definition haversineTerm (lat1 lon1 lat2 lon2 : jsval) : jsnum :=
  let dLat := toRad (jsub (ToNumber lat2) (ToNumber lat1)) in
  let dLon := toRad (jsub (ToNumber lon2) (ToNumber lon1)) in
  jadd
    (jmul (Math_sin rt (jdiv dLat (jnum 2))) (Math_sin rt (jdiv dLat (jnum 2))))
    (jmul
       (jmul
          (jmul (Math_cos rt (toRad (ToNumber lat1)))
                (Math_cos rt (toRad (ToNumber lat2))))
          (Math_sin rt (jdiv dLon (jnum 2))))
       (Math_sin rt (jdiv dLon (jnum 2)))).

Definition haversineDistanceKm (lat1 lon1 lat2 lon2 : jsval) : jsnum :=
  let R := jnum 6371 in
  let a := haversineTerm lat1 lon1 lat2 lon2 in
  let c :=
    jmul (jnum 2)
         (Math_atan2 rt (Math_sqrt rt a) (Math_sqrt rt (jsub (jnum 1) a))) in
  jmul R c.
End Geodistance.

(** ** Documents and the store *)

Record Location : Type := { lat : jsval; lng : jsval }.

(** A booking document.  [b_pickup = None] is a missing (falsy) pickup;
    [b_number] is the requester's phone number, a string. *)
Record Booking : Type := {
  b_status : option string;
  b_pickup : option Location;
  b_number : option string;
  b_drop : option string;
  b_createdAt : option Z;
  b_assignedVehicleId : option string;
  b_assignedDriverId : option string;
  b_verificationCode : option string;
  b_assignedAt : option Z
}.

(** A vehicle document.  [v_currentPassengers = None] is a field that is
    absent; when present it is an array of booking ids. *)
Record Vehicle : Type := {
  v_status : option string;
  v_location : option Location;
  v_currentPassengers : option (list string);
  v_driverId : option string;
  v_fcmToken : option string;
  v_targetLocation : option Location;
  v_rebalanceReason : option string;
  v_rebalanceTimestamp : option Z
}.

(** A push notification handed to the messaging service. *)
Record Message : Type := {
  msg_token : string;
  msg_title : string;
  msg_place : string;
  msg_bookingId : string;
  msg_verificationCode : string
}.

(** Lines written to the console, with their arguments. *)
Inductive LogLine : Type :=
| LogNotPending (bookingId : string)
| LogNoVehicles (bookingId : string)
| LogChosen (vehicleId : string) (dist : jsnum) (passengers : nat)
| LogAssigned (bookingId vehicleId : string)
| LogFcmSent (driver : string)
| LogFcmFailed
| LogNoToken
| LogNoIdleOrBookings
| LogGenerated (n : nat)
| LogAppliedOne (vehicleId : string)
| LogAutoApplied (n : nat).

Record World : Type := {
  bookings : gmap string Booking;
  vehicles : gmap string Vehicle;
  outbox : list Message;
  console : list LogLine
}.

(** What one run takes from outside: the server clock, the value of
    [Math.random()] and whether the messaging service accepts a message. *)
Record Env : Type := {
  now : Z;
  random : Q;
  fcmDelivers : bool
}.

Inductive Error : Type :=
| BookingNotFound
| MissingPickup
| InvalidPickup
| BookingDisappeared
| BookingAlreadyHandled
| VehicleDisappeared
| VehicleFull
| UpdateNotFound
| TypeError.

Inductive result (A : Type) : Type :=
| Ok (a : A)
| Err (e : Error).
Arguments Ok {A} a.
Arguments Err {A} e.

Definition log (l : LogLine) (w : World) : World :=
  {| bookings := bookings w; vehicles := vehicles w; outbox := outbox w;
     console := console w ++ [l] |}.

Definition send (m : Message) (w : World) : World :=
  {| bookings := bookings w; vehicles := vehicles w; outbox := outbox w ++ [m];
     console := console w |}.

(** Documents of a collection in the order a query returns them. *)
Definition docLe {A : Type} (x y : string * A) : Prop := String.le x.1 y.1.

#[global] Instance docLe_dec {A : Type} : RelDecision (@docLe A).
Proof. intros x y. unfold docLe. apply _. Defined.

Definition docsById {A : Type} (m : gmap string A) : list (string * A) :=
  merge_sort docLe (map_to_list m).

Definition hasStatus (s : string) (d : string * Vehicle) : Prop :=
  v_status d.2 = Some s.

#[global] Instance hasStatus_dec s d : Decision (hasStatus s d).
Proof. unfold hasStatus. apply _. Defined.

(** [db.collection("vehicles").where("status", "==", "idle").get()] *)
Definition idleVehicleDocs (w : World) : list (string * Vehicle) :=
  filter (hasStatus "idle") (docsById (vehicles w)).

(** *** Field updates *)

Record BookingAssignment : Type := {
  set_assignedVehicleId : string;
  set_assignedDriverId : option string;
  set_verificationCode : string;
  set_assignedAt : Z
}.

Inductive VehiclePatch : Type :=
| SetPassengers (l : list string)
| SetTarget (target : Location) (reason : string) (timestamp : Z).

Inductive Write : Type :=
| UpdateBooking (id : string) (p : BookingAssignment)
| UpdateVehicle (id : string) (p : VehiclePatch).

Definition patchBooking (p : BookingAssignment) (b : Booking) : Booking :=
  {| b_status := Some "assigned";
     b_pickup := b_pickup b;
     b_number := b_number b;
     b_drop := b_drop b;
     b_createdAt := b_createdAt b;
     b_assignedVehicleId := Some (set_assignedVehicleId p);
     b_assignedDriverId := set_assignedDriverId p;
     b_verificationCode := Some (set_verificationCode p);
     b_assignedAt := Some (set_assignedAt p) |}.

Definition patchVehicle (p : VehiclePatch) (v : Vehicle) : Vehicle :=
  match p with
  | SetPassengers l =>
      {| v_status := v_status v;
         v_location := v_location v;
         v_currentPassengers := Some l;
         v_driverId := v_driverId v;
         v_fcmToken := v_fcmToken v;
         v_targetLocation := v_targetLocation v;
         v_rebalanceReason := v_rebalanceReason v;
         v_rebalanceTimestamp := v_rebalanceTimestamp v |}
  | SetTarget target reason timestamp =>
      {| v_status := v_status v;
         v_location := v_location v;
         v_currentPassengers := v_currentPassengers v;
         v_driverId := v_driverId v;
         v_fcmToken := v_fcmToken v;
         v_targetLocation := Some target;
         v_rebalanceReason := Some reason;
         v_rebalanceTimestamp := Some timestamp |}
  end.

(** [ref.update(fields)]: fails when the document does not exist. *)
Definition applyWrite (wr : Write) (w : World) : result World :=
  match wr with
  | UpdateBooking id p =>
      match bookings w !! id with
      | Some b =>
          Ok {| bookings := <[id := patchBooking p b]> (bookings w);
                vehicles := vehicles w; outbox := outbox w; console := console w |}
      | None => Err UpdateNotFound
      end
  | UpdateVehicle id p =>
      match vehicles w !! id with
      | Some v =>
          Ok {| bookings := bookings w;
                vehicles := <[id := patchVehicle p v]> (vehicles w);
                outbox := outbox w; console := console w |}
      | None => Err UpdateNotFound
      end
  end.

(** *** Transactions

    A transaction body reads from the store as it is when the transaction
    runs and queues its writes; they reach the store together, and only
    when the body returns normally. *)

Record Txn : Type := { snapshot : World; queued : list Write }.

Definition TxnM (A : Type) : Type := Txn → result (A * Txn).

Definition txn_ret {A : Type} (a : A) : TxnM A := λ t, Ok (a, t).

Definition txn_bind {A B : Type} (m : TxnM A) (k : A → TxnM B) : TxnM B :=
  λ t, match m t with
       | Ok (a, t') => k a t'
       | Err e => Err e
       end.

Definition txn_throw {A : Type} (e : Error) : TxnM A := λ _, Err e.

Definition txn_getBooking (id : string) : TxnM (option Booking) :=
  λ t, Ok (bookings (snapshot t) !! id, t).

Definition txn_getVehicle (id : string) : TxnM (option Vehicle) :=
  λ t, Ok (vehicles (snapshot t) !! id, t).

Definition txn_update (wr : Write) : TxnM unit :=
  λ t, Ok (tt, {| snapshot := snapshot t; queued := queued t ++ [wr] |}).

Notation "'let!' x ':=' m 'in' k" := (txn_bind m (λ x, k))
  (at level 10, x name, m at level 100, k at level 200).
Notation "'do!' m 'in' k" := (txn_bind m (λ _, k))
  (at level 10, m at level 100, k at level 200).

Fixpoint commit (ws : list Write) (w : World) : result World :=
  match ws with
  | [] => Ok w
  | wr :: ws' =>
      match applyWrite wr w with
      | Ok w' => commit ws' w'
      | Err e => Err e
      end
  end.

(** The store after the transaction, and how the body ended. *)
Definition runTransaction (body : TxnM unit) (w : World) : result unit * World :=
  match body {| snapshot := w; queued := [] |} with
  | Err e => (Err e, w)
  | Ok (_, t) =>
      match commit (queued t) w with
      | Ok w' => (Ok tt, w')
      | Err e => (Err e, w)
      end
  end.

(** ** assigner.js *)

(** An entry of [candidates]; the [raw] field is never read and is left out. *)
Record Candidate : Type := {
  cand_id : string;
  cand_driverId : option string;
  cand_dist : jsnum;
  cand_passengerCount : nat;
  cand_fcmToken : option string
}.

(** [Array.isArray(v.currentPassengers) ? v.currentPassengers : []] *)
Definition passengersOf (v : Vehicle) : list string :=
  default [] (v_currentPassengers v).

(** [s || null] on an optional string: the empty string is falsy too. *)
Definition orNull (o : option string) : option string :=
  match o with
  | Some s => if String.eqb s "" then None else Some s
  | None => None
  end.

Definition isFull (passengers : list string) : bool :=
  bool_decide (7 ≤ length passengers)%nat.

Definition isPending (b : Booking) : bool :=
  bool_decide (b_status b = Some "pending").

(** The comparator handed to [candidates.sort]. *)
Definition compareCandidates (a b : Candidate) : jsnum :=
  if jltb (jabs (jsub (cand_dist a) (cand_dist b))) (Fin (1 # 1000))
  then jnum (Z.of_nat (cand_passengerCount a) - Z.of_nat (cand_passengerCount b))
  else jsub (cand_dist a) (cand_dist b).

(** [candidates[0]] after the sort, for a non-empty array [c :: cs]. *)
Definition chooseCandidate (c : Candidate) (cs : list Candidate) : Candidate :=
  List.hd c (arraySort compareCandidates (c :: cs)).

(** [s.slice(-4)] *)
Definition sliceLast4 (s : string) : string :=
  let n := String.length s in
  if (n <=? 4)%nat then s else String.substring (n - 4) 4 s.

(** [Math.floor(1000 + Math.random() * 9000).toString()] *)
Definition randomCode (env : Env) : string :=
  pretty (Qfloor (1000 + random env * 9000)%Q).

Definition verificationCodeFor (env : Env) (number : option string) : string :=
  let phone := default "" number in
  let last4 := sliceLast4 phone in
  if String.eqb last4 "" then randomCode env else last4.

Definition validatePickup (booking : Booking) : result (jsnum * jsnum) :=
  match b_pickup booking with
  | None => Err MissingPickup
  | Some pickup =>
      if isNullish (lat pickup) || isNullish (lng pickup) then Err MissingPickup
      else
        let pickupLat := parseFloat (lat pickup) in
        let pickupLng := parseFloat (lng pickup) in
        if isNaN pickupLat || isNaN pickupLng then Err InvalidPickup
        else Ok (pickupLat, pickupLng)
  end.

(** The body passed to [db.runTransaction]. *)
Definition assignTransaction (env : Env) (bookingId : string) (chosen : Candidate)
  : TxnM unit :=
  let! bSnap := txn_getBooking bookingId in
  match bSnap with
  | None => txn_throw BookingDisappeared
  | Some bData =>
      if negb (isPending bData) then txn_throw BookingAlreadyHandled
      else
        let! vSnap := txn_getVehicle (cand_id chosen) in
        match vSnap with
        | None => txn_throw VehicleDisappeared
        | Some vData =>
            let passengers := passengersOf vData in
            if isFull passengers then txn_throw VehicleFull
            else
              let verificationCode := verificationCodeFor env (b_number bData) in
              do! txn_update
                    (UpdateBooking bookingId
                       {| set_assignedVehicleId := cand_id chosen;
                          set_assignedDriverId := orNull (cand_driverId chosen);
                          set_verificationCode := verificationCode;
                          set_assignedAt := now env |}) in
              txn_update
                (UpdateVehicle (cand_id chosen)
                   (SetPassengers (passengers ++ [bookingId])))
        end
  end.

(** How a call that did not throw ended. *)
Inductive Outcome : Type :=
| NotPending
| NoCandidate
| AssignedTo (vehicleId : string).

(** The push notification after the transaction; a failed send is logged
    and goes no further.  (The source also builds an object [payload] that
    it never uses.) *)
Definition notifyDriver (env : Env) (bookingId : string) (booking : Booking)
    (chosen : Candidate) (w : World) : World :=
  match cand_fcmToken chosen with
  | Some token =>
      let message :=
        {| msg_token := token;
           msg_title := "New booking assigned";
           msg_place := default "pickup" (orNull (b_drop booking));
           msg_bookingId := bookingId;
           msg_verificationCode := sliceLast4 (default "" (b_number booking)) |} in
      if fcmDelivers env
      then log (LogFcmSent (default (cand_id chosen) (orNull (cand_driverId chosen))))
               (send message w)
      else log LogFcmFailed w
  | None => log LogNoToken w
  end.

(** From [db.runTransaction] to the end of [assignDriverForBooking]: the
    transaction on the store as it stands, then the notification. *)
Definition commitAssignment (env : Env) (bookingId : string) (booking : Booking)
    (chosen : Candidate) (w2 : World) : result Outcome * World :=
  match runTransaction (assignTransaction env bookingId chosen) w2 with
  | (Err e, w3) => (Err e, w3)
  | (Ok _, w3) =>
      (Ok (AssignedTo (cand_id chosen)),
       notifyDriver env bookingId booking chosen
         (log (LogAssigned bookingId (cand_id chosen)) w3))
  end.

Section Assigner.
Context (rt : JsRuntime).

(** The body of [vehiclesSnap.forEach]: the candidate pushed for one idle
    vehicle, if any. *)
Definition candidateOf (pickupLat pickupLng : jsnum) (d : string * Vehicle)
  : option Candidate :=
  let v := d.2 in
  let passengers := passengersOf v in
  if isFull passengers then None
  else
    match v_location v with
    | None => None
    | Some loc =>
        if isNullish (lat loc) || isNullish (lng loc) then None
        else
          Some {| cand_id := d.1;
                  cand_driverId := v_driverId v;
                  cand_dist :=
                    haversineDistanceKm rt (lat loc) (lng loc)
                      (VNum pickupLat) (VNum pickupLng);
                  cand_passengerCount := length passengers;
                  cand_fcmToken := orNull (v_fcmToken v) |}
    end.

Definition scanCandidates (pickupLat pickupLng : jsnum)
    (docs : list (string * Vehicle)) : list Candidate :=
  omap (candidateOf pickupLat pickupLng) docs.

(** [assignDriverForBooking], with what other requests do to the store
    while this call waits: [others1] between reading the booking and
    querying the vehicles, [others2] between the query and the
    transaction.  The transaction itself runs in one piece. *)
Definition assignDriverForBookingAmid (others1 others2 : World → World)
    (env : Env) (bookingId : string) (w0 : World) : result Outcome * World :=
  match bookings w0 !! bookingId with
  | None => (Err BookingNotFound, w0)
  | Some booking =>
      if negb (isPending booking)
      then (Ok NotPending, log (LogNotPending bookingId) w0)
      else
        match validatePickup booking with
        | Err e => (Err e, w0)
        | Ok (pickupLat, pickupLng) =>
            let w1 := others1 w0 in
            match scanCandidates pickupLat pickupLng (idleVehicleDocs w1) with
            | [] => (Ok NoCandidate, log (LogNoVehicles bookingId) w1)
            | c :: cs =>
                let chosen := chooseCandidate c cs in
                let w2 :=
                  others2
                    (log (LogChosen (cand_id chosen) (cand_dist chosen)
                            (cand_passengerCount chosen)) w1) in
                commitAssignment env bookingId booking chosen w2
            end
        end
  end.

(** A call that runs with nothing else touching the store. *)
Definition assignDriverForBooking : Env → string → World → result Outcome * World :=
  assignDriverForBookingAmid id id.
End Assigner.

(** ** rebalancer.js *)

Record Hotspot : Type := { hs_location : Location; hs_count : Z }.

Record Suggestion : Type := {
  sg_vehicleId : string;
  sg_currentLocation : Location;
  sg_targetLocation : Location;
  sg_priority : jsnum;
  sg_distance : jsnum;
  sg_reason : string
}.

(** [!data.currentPassengers || data.currentPassengers.length === 0] *)
Definition carriesNobody (v : Vehicle) : bool :=
  match v_currentPassengers v with
  | None => true
  | Some l => bool_decide (length l = 0%nat)
  end.

(** [getIdleVehicles]: each entry is the document id with the document. *)
Definition getIdleVehicles (w : World) : list (string * Vehicle) :=
  filter (λ d, carriesNobody d.2 = true) (idleVehicleDocs w).

Definition createdAtOf (d : string * Booking) : Z := default 0 (b_createdAt d.2).

(** Order of [orderBy("createdAt", "desc")]: newest first, equal times by
    descending id. *)
Definition newerFirst (x y : string * Booking) : Prop :=
  createdAtOf y < createdAtOf x ∨ (createdAtOf x = createdAtOf y ∧ String.le y.1 x.1).

#[global] Instance newerFirst_dec : RelDecision newerFirst.
Proof. intros x y. unfold newerFirst. apply _. Defined.

Definition createdSince (t : Z) (d : string * Booking) : Prop :=
  ∃ c, b_createdAt d.2 = Some c ∧ t ≤ c.

#[global] Instance createdSince_dec t d : Decision (createdSince t d).
Proof.
  unfold createdSince. destruct (b_createdAt d.2) as [c|].
  - destruct (decide (t ≤ c)) as [H|H].
    + left. eauto.
    + right. intros (c' & Hc & Hle). by simplify_eq.
  - right. intros (c' & Hc & _). discriminate.
Defined.

(** [getRecentBookings(db, hours)]; times are in milliseconds. *)
Definition getRecentBookings (env : Env) (hours : Z) (w : World)
  : list (string * Booking) :=
  let hoursAgo := now env - hours * 3600000 in
  merge_sort newerFirst (filter (createdSince hoursAgo) (map_to_list (bookings w))).

(** An object used as a dictionary: its properties in insertion order.
    Assigning to a key that exists replaces the value where it stands. *)
Fixpoint setProperty {A : Type} (key : string) (a : A) (o : list (string * A))
  : list (string * A) :=
  match o with
  | [] => [(key, a)]
  | (k, b) :: rest =>
      if String.eqb key k then (key, a) :: rest
      else (k, b) :: setProperty key a rest
  end.

Definition bump (h : Hotspot) : Hotspot :=
  {| hs_location := hs_location h; hs_count := hs_count h + 1 |}.

(** The [for (const key in hotspots)] loop: the first hotspot that is near
    has its count incremented; [None] when no hotspot is near. *)
Fixpoint bumpFirstNear (near : Hotspot → bool) (hotspots : list (string * Hotspot))
  : option (list (string * Hotspot)) :=
  match hotspots with
  | [] => None
  | (k, h) :: rest =>
      if near h then Some ((k, bump h) :: rest)
      else
        match bumpFirstNear near rest with
        | Some rest' => Some ((k, h) :: rest')
        | None => None
        end
  end.

Definition compareHotspots (a b : Hotspot) : jsnum :=
  jsub (jnum (hs_count b)) (jnum (hs_count a)).

Definition compareSuggestions (a b : Suggestion) : jsnum :=
  jsub (sg_priority b) (sg_priority a).

Section Rebalancer.
Context (rt : JsRuntime).

Definition distanceBetween (a b : Location) : jsnum :=
  haversineDistanceKm rt (lat a) (lng a) (lat b) (lng b).

(** The key of a new hotspot; only a number has [toFixed]. *)
Definition hotspotKey (pickup : Location) : result string :=
  match lat pickup, lng pickup with
  | VNum la, VNum ln =>
      Ok (Number_toFixed rt la 4 +:+ "," +:+ Number_toFixed rt ln 4)
  | _, _ => Err TypeError
  end.

(** The body of [recentBookings.forEach] in [identifyHotspots]. *)
Definition addPickup (hotspots : list (string * Hotspot)) (booking : Booking)
  : result (list (string * Hotspot)) :=
  match b_pickup booking with
  | None => Ok hotspots
  | Some pickup =>
      if negb (truthy (lat pickup)) || negb (truthy (lng pickup)) then Ok hotspots
      else
        match bumpFirstNear
                (λ h, jltb (distanceBetween (hs_location h) pickup) (Fin (1 # 2)))
                hotspots with
        | Some hotspots' => Ok hotspots'
        | None =>
            match hotspotKey pickup with
            | Ok key =>
                Ok (setProperty key {| hs_location := pickup; hs_count := 1 |} hotspots)
            | Err e => Err e
            end
        end
  end.

Fixpoint addPickups (hotspots : list (string * Hotspot)) (bs : list Booking)
  : result (list (string * Hotspot)) :=
  match bs with
  | [] => Ok hotspots
  | b :: bs' =>
      match addPickup hotspots b with
      | Ok hotspots' => addPickups hotspots' bs'
      | Err e => Err e
      end
  end.

Definition identifyHotspots (recentBookings : list Booking) : result (list Hotspot) :=
  match addPickups [] recentBookings with
  | Ok hotspots => Ok (arraySort compareHotspots (hotspots.*2))
  | Err e => Err e
  end.

(** [idleVehicles.some(...)]: is another idle vehicle within 1 km of the
    hotspot? *)
Definition anotherVehicleNearby (idleVehicles : list (string * Vehicle))
    (vehicleId : string) (hotspot : Hotspot) : bool :=
  existsb
    (λ d,
       if String.eqb d.1 vehicleId then false
       else
         match v_location d.2 with
         | None => false
         | Some loc => jltb (distanceBetween loc (hs_location hotspot)) (jnum 1)
         end)
    idleVehicles.

Definition priorityOf (count : Z) (distance : jsnum) : jsnum :=
  jmin (jnum 10)
       (jround (jdiv (jmul (jnum count) (jnum 5)) (jmax (jnum 1) distance))).

(** The [for (const hotspot of hotspots)] loop for one vehicle. *)
Fixpoint suggestFor (idleVehicles : list (string * Vehicle)) (vehicleId : string)
    (loc : Location) (hotspots : list Hotspot) : option Suggestion :=
  match hotspots with
  | [] => None
  | hotspot :: rest =>
      if anotherVehicleNearby idleVehicles vehicleId hotspot
      then suggestFor idleVehicles vehicleId loc rest
      else
        let distance := distanceBetween loc (hs_location hotspot) in
        if jgtb distance (Fin (1 # 2)) then
          Some {| sg_vehicleId := vehicleId;
                  sg_currentLocation := loc;
                  sg_targetLocation := hs_location hotspot;
                  sg_priority := priorityOf (hs_count hotspot) distance;
                  sg_distance := distance;
                  sg_reason :=
                    "High demand area with " +:+ pretty (hs_count hotspot)
                      +:+ " recent bookings" |}
        else suggestFor idleVehicles vehicleId loc rest
  end.

(** The body of [idleVehicles.forEach]. *)
Definition suggestionOf (idleVehicles : list (string * Vehicle))
    (hotspots : list Hotspot) (d : string * Vehicle) : option Suggestion :=
  match v_location d.2 with
  | None => None
  | Some loc =>
      if negb (truthy (lat loc)) || negb (truthy (lng loc)) then None
      else suggestFor idleVehicles d.1 loc hotspots
  end.

Definition generateRebalanceSuggestions (env : Env) (w : World)
  : result (list Suggestion) * World :=
  let idleVehicles := getIdleVehicles w in
  let recentBookings := getRecentBookings env 1 w in
  if bool_decide (length idleVehicles = 0%nat) || bool_decide (length recentBookings = 0%nat)
  then (Ok [], log LogNoIdleOrBookings w)
  else
    match identifyHotspots (recentBookings.*2) with
    | Err e => (Err e, w)
    | Ok hotspots =>
        (Ok (arraySort compareSuggestions
               (omap (suggestionOf idleVehicles hotspots) idleVehicles)),
         w)
    end.

Definition applyRebalanceSuggestion (env : Env) (suggestion : Suggestion) (w : World)
  : result unit * World :=
  match applyWrite
          (UpdateVehicle (sg_vehicleId suggestion)
             (SetTarget (sg_targetLocation suggestion) (sg_reason suggestion) (now env)))
          w with
  | Ok w' => (Ok tt, log (LogAppliedOne (sg_vehicleId suggestion)) w')
  | Err e => (Err e, w)
  end.

(** The [for (const suggestion of topSuggestions)] loop. *)
Fixpoint applyAll (env : Env) (top : list Suggestion) (w : World)
  : result unit * World :=
  match top with
  | [] => (Ok tt, w)
  | s :: rest =>
      match applyRebalanceSuggestion env s w with
      | (Ok _, w') => applyAll env rest w'
      | (Err e, w') => (Err e, w')
      end
  end.

Definition runRebalancer (env : Env) (autoApply : bool) (w : World)
  : result (list Suggestion) * World :=
  match generateRebalanceSuggestions env w with
  | (Err e, w1) => (Err e, w1)
  | (Ok suggestions, w1) =>
      let w2 := log (LogGenerated (length suggestions)) w1 in
      if autoApply && bool_decide (0 < length suggestions)%nat then
        let topSuggestions := take 3 suggestions in
        match applyAll env topSuggestions w2 with
        | (Err e, w3) => (Err e, w3)
        | (Ok _, w3) =>
            (Ok suggestions, log (LogAutoApplied (length topSuggestions)) w3)
        end
      else (Ok suggestions, w2)
  end.
End Rebalancer.

(** ** The assigner and the rebalancer as processes

    Between two [await]s a call runs in one piece; at an [await] it gives
    way to the other calls in flight.  A process is a call stopped at an
    [await]; a step takes it to its next [await] or to its end. *)

Inductive Proc : Type :=
| Started (env : Env) (bookingId : string)
| Loaded (env : Env) (bookingId : string) (booking : Booking)
         (pickupLat pickupLng : jsnum)
| Chose (env : Env) (bookingId : string) (booking : Booking) (chosen : Candidate)
| Sending (env : Env) (bookingId : string) (booking : Booking) (chosen : Candidate)
| Finished (bookingId : string) (r : result Outcome).

Inductive RebalanceProc : Type :=
| RStarted (env : Env) (autoApply : bool)
| RIdle (env : Env) (autoApply : bool) (idleVehicles : list (string * Vehicle))
| RApplying (env : Env) (suggestions top : list Suggestion)
| RFinished (r : result (list Suggestion)).

Section Processes.
Context (rt : JsRuntime).

(** [assignDriverForBooking] from one [await] to the next: the read of the
    booking, the query for idle vehicles, the transaction and, when the
    chosen vehicle has a token, the call of the messaging service. *)
Definition stepAssign (p : Proc) (w : World) : Proc * World :=
  match p with
  | Started env bookingId =>
      match bookings w !! bookingId with
      | None => (Finished bookingId (Err BookingNotFound), w)
      | Some booking =>
          if negb (isPending booking)
          then (Finished bookingId (Ok NotPending), log (LogNotPending bookingId) w)
          else
            match validatePickup booking with
            | Err e => (Finished bookingId (Err e), w)
            | Ok (pickupLat, pickupLng) =>
                (Loaded env bookingId booking pickupLat pickupLng, w)
            end
      end
  | Loaded env bookingId booking pickupLat pickupLng =>
      match scanCandidates rt pickupLat pickupLng (idleVehicleDocs w) with
      | [] => (Finished bookingId (Ok NoCandidate), log (LogNoVehicles bookingId) w)
      | c :: cs =>
          let chosen := chooseCandidate c cs in
          (Chose env bookingId booking chosen,
           log (LogChosen (cand_id chosen) (cand_dist chosen)
                  (cand_passengerCount chosen)) w)
      end
  | Chose env bookingId booking chosen =>
      match runTransaction (assignTransaction env bookingId chosen) w with
      | (Err e, w3) => (Finished bookingId (Err e), w3)
      | (Ok _, w3) =>
          let w4 := log (LogAssigned bookingId (cand_id chosen)) w3 in
          match cand_fcmToken chosen with
          | Some _ => (Sending env bookingId booking chosen, w4)
          | None =>
              (Finished bookingId (Ok (AssignedTo (cand_id chosen))),
               notifyDriver env bookingId booking chosen w4)
          end
      end
  | Sending env bookingId booking chosen =>
      (Finished bookingId (Ok (AssignedTo (cand_id chosen))),
       notifyDriver env bookingId booking chosen w)
  | Finished _ _ => (p, w)
  end.

(** The body of [generateRebalanceSuggestions] after its two reads. *)
Definition planSuggestions (idleVehicles : list (string * Vehicle))
    (recentBookings : list (string * Booking)) (w : World)
  : result (list Suggestion) * World :=
  if bool_decide (length idleVehicles = 0%nat)
     || bool_decide (length recentBookings = 0%nat)
  then (Ok [], log LogNoIdleOrBookings w)
  else
    match identifyHotspots rt (recentBookings.*2) with
    | Err e => (Err e, w)
    | Ok hotspots =>
        (Ok (arraySort compareSuggestions
               (omap (suggestionOf rt idleVehicles hotspots) idleVehicles)),
         w)
    end.

(** [runRebalancer] from one [await] to the next: the query for idle
    vehicles, the query for recent bookings with the planning that follows
    it, then one update per applied suggestion; the run ends with the last
    update. *)
Definition stepRebalance (p : RebalanceProc) (w : World) : RebalanceProc * World :=
  match p with
  | RStarted env autoApply => (RIdle env autoApply (getIdleVehicles w), w)
  | RIdle env autoApply idleVehicles =>
      match planSuggestions idleVehicles (getRecentBookings env 1 w) w with
      | (Err e, w1) => (RFinished (Err e), w1)
      | (Ok suggestions, w1) =>
          let w2 := log (LogGenerated (length suggestions)) w1 in
          if autoApply && bool_decide (0 < length suggestions)%nat
          then (RApplying env suggestions (take 3 suggestions), w2)
          else (RFinished (Ok suggestions), w2)
      end
  | RApplying env suggestions top =>
      let finished w' :=
        (RFinished (Ok suggestions),
         log (LogAutoApplied (length (take 3 suggestions))) w') in
      match top with
      | [] => finished w
      | s :: rest =>
          match applyRebalanceSuggestion env s w with
          | (Ok _, w') =>
              match rest with
              | [] => finished w'
              | _ :: _ => (RApplying env suggestions rest, w')
              end
          | (Err e, w') => (RFinished (Err e), w')
          end
      end
  | RFinished _ => (p, w)
  end.
End Processes.

(** ** server.js

    The two handlers, the listener on pending bookings and the periodic
    rebalancer, as events on the store and the calls in flight.  The
    listener and the timer are those of server.js; the second handler for
    [POST /booking] is the variant that accepts [latitude] and
    [longitude]. *)

(** The value of [req.body.autoApply]. *)
Inductive BodyValue : Type := BTrue | BFalse | BAbsent | BOther.

Inductive Response : Type :=
| BookingCreated (bookingId : string)
| BadRequest (error : string)
| RebalanceDone (suggestions : list Suggestion)
| ServerError.

(** The body of [POST /booking] in the variant that accepts [latitude] and
    [longitude] beside the fields of a booking. *)
Record CoordsRequest : Type := {
  cr_booking : Booking;
  cr_latitude : jsval;
  cr_longitude : jsval
}.

(** [{ ...booking, status: booking.status || "pending", createdAt: now }] *)
Definition newBookingOf (env : Env) (booking : Booking) : Booking :=
  {| b_status := Some (default "pending" (orNull (b_status booking)));
     b_pickup := b_pickup booking;
     b_number := b_number booking;
     b_drop := b_drop booking;
     b_createdAt := Some (now env);
     b_assignedVehicleId := b_assignedVehicleId booking;
     b_assignedDriverId := b_assignedDriverId booking;
     b_verificationCode := b_verificationCode booking;
     b_assignedAt := b_assignedAt booking |}.

Definition withPickup (booking : Booking) (pickup : option Location) : Booking :=
  {| b_status := b_status booking;
     b_pickup := pickup;
     b_number := b_number booking;
     b_drop := b_drop booking;
     b_createdAt := b_createdAt booking;
     b_assignedVehicleId := b_assignedVehicleId booking;
     b_assignedDriverId := b_assignedDriverId booking;
     b_verificationCode := b_verificationCode booking;
     b_assignedAt := b_assignedAt booking |}.

(** [{ lat: parseFloat(a), lng: parseFloat(b) }] *)
Definition parsedLocation (a b : jsval) : Location :=
  {| lat := VNum (parseFloat a); lng := VNum (parseFloat b) |}.

(** The document [POST /booking] stores, or the message of its 400
    response (server.js). *)
Definition bookingToStore (env : Env) (booking : Booking) : string + Booking :=
  match b_pickup booking, orNull (b_number booking) with
  | Some _, Some _ => inr (newBookingOf env booking)
  | _, _ => inl "invalid booking payload"
  end.

(** The same for the variant with [latitude] and [longitude]: they replace
    the pickup when both are truthy, a missing pickup becomes (0, 0), and
    the stored coordinates go through [parseFloat]. *)
Definition bookingToStoreCoords (env : Env) (req : CoordsRequest) : string + Booking :=
  let pickup0 :=
    if truthy (cr_latitude req) && truthy (cr_longitude req)
    then Some (parsedLocation (cr_latitude req) (cr_longitude req))
    else b_pickup (cr_booking req) in
  match orNull (b_number (cr_booking req)) with
  | None => inl "invalid booking payload: missing required fields"
  | Some _ =>
      let pickup1 := default {| lat := VNum (Fin 0); lng := VNum (Fin 0) |} pickup0 in
      inr (newBookingOf env
             (withPickup (cr_booking req)
                (Some (parsedLocation (lat pickup1) (lng pickup1)))))
  end.

Inductive Task : Type :=
| AssignTask (p : Proc)
| RebalanceTask (p : RebalanceProc).

(** The store and the calls in flight. *)
Record System : Type := { store : World; tasks : list Task }.

(** What reaches the server: a call in flight is resumed at its [await],
    a request arrives, the timer of the rebalancer fires. *)
Inductive Event : Type :=
| Resume (i : nat)
| PostBooking (env : Env) (freshId : string) (payload : Booking)
| PostBookingCoords (env : Env) (freshId : string) (payload : CoordsRequest)
| PostRebalance (env : Env) (autoApply : BodyValue)
| TimerFires (env : Env).

Definition addBooking (id : string) (b : Booking) (w : World) : World :=
  {| bookings := <[id := b]> (bookings w); vehicles := vehicles w;
     outbox := outbox w; console := console w |}.

(** [bookings.add(newBooking)], the call the handler starts without
    awaiting it, and the call the listener starts when the new document is
    pending.  [freshId] is the id the store gives the document; were it
    taken, the write would fail and the handler answer 500. *)
Definition storeAndAssign (env : Env) (freshId : string) (doc : string + Booking)
    (s : System) : option Response * System :=
  match doc with
  | inl message => (Some (BadRequest message), s)
  | inr newBooking =>
      match bookings (store s) !! freshId with
      | Some _ => (Some ServerError, s)
      | None =>
          (Some (BookingCreated freshId),
           {| store := addBooking freshId newBooking (store s);
              tasks :=
                tasks s ++ AssignTask (Started env freshId) ::
                  (if isPending newBooking
                   then [AssignTask (Started env freshId)] else []) |})
      end
  end.

Section Server.
Context (rt : JsRuntime).

Definition stepTask (t : Task) (w : World) : Task * World :=
  match t with
  | AssignTask p => let '(p', w') := stepAssign rt p w in (AssignTask p', w')
  | RebalanceTask p => let '(p', w') := stepRebalance rt p w in (RebalanceTask p', w')
  end.

(** The response of [POST /rebalance], sent when its run ends. *)
Definition rebalanceResponse (r : result (list Suggestion)) : Response :=
  match r with
  | Ok suggestions => RebalanceDone suggestions
  | Err _ => ServerError
  end.

(** One event: the response sent at once, if any, and the system after. *)
Definition react (e : Event) (s : System) : option Response * System :=
  match e with
  | Resume i =>
      match tasks s !! i with
      | Some t =>
          let '(t', w') := stepTask t (store s) in
          (None, {| store := w'; tasks := <[i := t']> (tasks s) |})
      | None => (None, s)
      end
  | PostBooking env freshId payload =>
      storeAndAssign env freshId (bookingToStore env payload) s
  | PostBookingCoords env freshId payload =>
      storeAndAssign env freshId (bookingToStoreCoords env payload) s
  | PostRebalance env autoApply =>
      (None,
       {| store := store s;
          tasks :=
            tasks s ++
              [RebalanceTask
                 (RStarted env (match autoApply with BTrue => true | _ => false end))] |})
  | TimerFires env =>
      (None, {| store := store s;
                tasks := tasks s ++ [RebalanceTask (RStarted env true)] |})
  end.

(** The system after the events, in their order. *)
Definition runEvents (events : list Event) (s : System) : System :=
  foldl (λ s e, (react e s).2) s events.

(** The server as it starts: the first snapshot of the listener starts a
    call for every pending booking, the rebalancer runs at once. *)
Definition boot (env : Env) (w : World) : System :=
  {| store := w;
     tasks :=
       ((λ d, AssignTask (Started env d.1))
          <$> filter (λ d, isPending d.2 = true) (docsById (bookings w)))
         ++ [RebalanceTask (RStarted env true)] |}.
End Server.

(** ** A runtime to compute with

    Series approximations of the [Math] functions, rounded down to a binary
    grid after each step, and decimal printing and reading.  The theorems
    below hold for every runtime; this one serves to run the model on
    coordinates. *)

Module Approx.
Definition grid (q : Q) : Q :=
  Qred (Qfloor (q * 18446744073709551616) # 18446744073709551616)%Q.

(** Terms [t, -t x²/((k+1)(k+2)), ...] summed on top of [acc]. *)
Fixpoint series (n : nat) (k : Z) (term x2 acc : Q) : Q :=
  match n with
  | O => acc
  | S n' =>
      let term' := grid (- term * x2 / inject_Z ((k + 1) * (k + 2)))%Q in
      series n' (k + 2) term' x2 (Qred (acc + term'))%Q
  end.

Definition sinQ (x : Q) : Q :=
  let y := grid x in series 14 1 y (grid (y * y)) y.
Definition cosQ (x : Q) : Q :=
  let y := grid x in series 14 0 1%Q (grid (y * y)) 1%Q.

Fixpoint newton (n : nat) (q g : Q) : Q :=
  match n with
  | O => g
  | S n' => if Qeqb g 0 then g else newton n' q (grid ((g + q / g) / 2))%Q
  end.

Definition sqrtQ (q : Q) : Q :=
  let r := grid q in
  if Qeqb r 0 then 0%Q else newton 60 r (grid ((r + 1) / 2)).

(** Terms [t, -t³/3, t⁵/5, ...]: [pow] is the current odd power. *)
Fixpoint atanSeries (n : nat) (k : Z) (pow t2 acc : Q) : Q :=
  match n with
  | O => acc
  | S n' =>
      let pow' := grid (- pow * t2)%Q in
      atanSeries n' (k + 2) pow' t2 (grid (acc + pow' / inject_Z (k + 2)))
  end.

Definition halve (t : Q) : Q := grid (t / (1 + sqrtQ (1 + t * t)))%Q.

Definition piQ : Q := (884279719003555 # 281474976710656)%Q.

(** Arc tangent of [t] with [0 <= t <= 1]. *)
Definition atanUnit (t : Q) : Q :=
  let u := halve (halve t) in
  (4 * atanSeries 16 1 u (grid (u * u)) u)%Q.

Definition atanPos (t : Q) : Q :=
  if Qltb 1 t then (piQ / 2 - atanUnit (/ t))%Q else atanUnit t.

Definition atanQ (t : Q) : Q :=
  if Qltb t 0 then (- atanPos (- t))%Q else atanPos t.

Definition atan2Q (y x : Q) : Q :=
  match (x ?= 0)%Q, (y ?= 0)%Q with
  | Gt, _ => atanQ (y / x)
  | Lt, Lt => (atanQ (y / x) - piQ)%Q
  | Lt, _ => (atanQ (y / x) + piQ)%Q
  | Eq, Gt => (piQ / 2)%Q
  | Eq, Lt => (- (piQ / 2))%Q
  | Eq, Eq => 0%Q
  end.

Definition sin (x : jsnum) : jsnum :=
  match x with Fin q => Fin (sinQ q) | _ => NaN end.

Definition cos (x : jsnum) : jsnum :=
  match x with Fin q => Fin (cosQ q) | _ => NaN end.

Definition sqrt (x : jsnum) : jsnum :=
  match x with
  | Fin q => if Qltb q 0 then NaN else Fin (sqrtQ q)
  | PosInf => PosInf
  | _ => NaN
  end.

Definition atan2 (y x : jsnum) : jsnum :=
  match y, x with
  | NaN, _ | _, NaN => NaN
  | Fin a, Fin b => Fin (atan2Q a b)
  | Fin a, PosInf => Fin 0
  | Fin a, NegInf => Fin (if Qltb a 0 then - piQ else piQ)%Q
  | PosInf, Fin _ => Fin (piQ / 2)
  | NegInf, Fin _ => Fin (- (piQ / 2))
  | PosInf, PosInf => Fin (piQ / 4)
  | PosInf, NegInf => Fin (3 * piQ / 4)
  | NegInf, PosInf => Fin (- (piQ / 4))
  | NegInf, NegInf => Fin (- (3 * piQ / 4))
  end.

Fixpoint trimEnd (s : string) : string :=
  match s with
  | String a s' =>
      match trimEnd s' with
      | EmptyString => if isWhiteSpace a then EmptyString else String a EmptyString
      | rest => String a rest
      end
  | EmptyString => EmptyString
  end.

(** Decimal literals only; the empty string reads as zero. *)
Definition stringToNumber (s : string) : jsnum :=
  let t := trimEnd (trimStart s) in
  if String.eqb t "" then Fin 0
  else
    match readDecimal t with
    | Some (v, EmptyString) => v
    | _ => NaN
    end.

Fixpoint zeros (n : nat) : string :=
  match n with O => "" | S n' => "0" +:+ zeros n' end.

(** [x.toFixed(d)] for magnitudes below 10²¹. *)
Definition toFixed (x : jsnum) (d : nat) : string :=
  match x with
  | NaN => "NaN"
  | PosInf => "Infinity"
  | NegInf => "-Infinity"
  | Fin q =>
      let n := Qfloor (Qabs q * inject_Z (10 ^ Z.of_nat d) + (1 # 2))%Q in
      let digits := pretty n in
      let padded := zeros (S d - String.length digits) +:+ digits in
      let whole := String.length padded - d in
      (if Qltb q 0 then "-" else "")
        +:+ String.substring 0 whole padded
        +:+ (match d with O => "" | S _ => "." +:+ String.substring whole d padded end)
  end%nat.
End Approx.

Definition approxRuntime : JsRuntime :=
  {| Math_sin := Approx.sin;
     Math_cos := Approx.cos;
     Math_sqrt := Approx.sqrt;
     Math_atan2 := Approx.atan2;
     StringToNumber := Approx.stringToNumber;
     Number_toFixed := Approx.toFixed |}.

(** ** Properties stated on the model *)

(** [d] is placed before [c] by the comparator of the candidate sort: it is
    closer by more than a near-tie, or within a near-tie and carries fewer
    passengers. *)
Definition rankedBefore (d c : Candidate) : Prop :=
  sortsBefore compareCandidates d c = true.

(** The re-check inside the transaction fails: the booking is gone or no
    longer pending, or the vehicle is gone or carries seven passengers. *)
Definition recheckFails (bookingId vehicleId : string) (w : World) : Prop :=
  match bookings w !! bookingId with
  | None => True
  | Some b => b_status b ≠ Some "pending"
  end ∨
  match vehicles w !! vehicleId with
  | None => True
  | Some v => (7 ≤ length (passengersOf v))%nat
  end.

(** The errors thrown by the re-check. *)
Definition isConflict (e : Error) : Prop :=
  e = BookingDisappeared ∨ e = BookingAlreadyHandled ∨
  e = VehicleDisappeared ∨ e = VehicleFull.

(** No vehicle carries more than seven passengers. *)
Definition capacityOk (w : World) : Prop :=
  ∀ id v, vehicles w !! id = Some v → (length (passengersOf v) ≤ 7)%nat.

(** The store after an assignment transaction that went through. *)
Definition assignedWorld (env : Env) (bookingId : string) (chosen : Candidate)
    (bData : Booking) (vData : Vehicle) (w : World) : World :=
  {| bookings :=
       <[bookingId :=
           patchBooking
             {| set_assignedVehicleId := cand_id chosen;
                set_assignedDriverId := orNull (cand_driverId chosen);
                set_verificationCode := verificationCodeFor env (b_number bData);
                set_assignedAt := now env |} bData]> (bookings w);
     vehicles :=
       <[cand_id chosen :=
           patchVehicle (SetPassengers (passengersOf vData ++ [bookingId])) vData]>
         (vehicles w);
     outbox := outbox w;
     console := console w |}.

(** A list in descending order of an integer key. *)
Definition keyDescending {A : Type} (key : A → Z) (x y : A) : Prop := key y ≤ key x.

(** Every hotspot of the dictionary counts at least one booking. *)
Definition countsPositive (hotspots : list (string * Hotspot)) : Prop :=
  Forall (λ kh, 1 ≤ hs_count kh.2) hotspots.

(** The priority of a suggestion as an integer. *)
Definition priorityZ (s : Suggestion) : Z :=
  match sg_priority s with Fin q => Qfloor q | _ => 0 end.

(** The fields [applyRebalanceSuggestion] writes for a suggestion. *)
Definition target (env : Env) (s : Suggestion) : VehiclePatch :=
  SetTarget (sg_targetLocation s) (sg_reason s) (now env).


(** The call got past the validation of the booking: it ended at the
    vehicle scan or in the transaction. *)
Definition reachedScan (r : result Outcome) : Prop :=
  match r with
  | Ok NoCandidate | Ok (AssignedTo _) => True
  | Ok NotPending => False
  | Err e => isConflict e
  end.

(** *** The assigner *)

(** A vehicle the scan of the assigner keeps: idle, fewer than seven
    passengers, a location with both coordinates present. *)
Definition eligible (v : Vehicle) : Prop :=
  v_status v = Some "idle" ∧
  (length (passengersOf v) < 7)%nat ∧
  ∃ loc, v_location v = Some loc ∧
         isNullish (lat loc) = false ∧ isNullish (lng loc) = false.

(** The message [assignDriverForBooking] hands to the messaging service. *)
Definition messageFor (bookingId : string) (booking : Booking) (token : string) : Message :=
  {| msg_token := token;
     msg_title := "New booking assigned";
     msg_place := default "pickup" (orNull (b_drop booking));
     msg_bookingId := bookingId;
     msg_verificationCode := sliceLast4 (default "" (b_number booking)) |}.

(** Two candidates whose distances are not within a metre of each other. *)
Definition farApart (x y : Candidate) : Prop :=
  jltb (jabs (jsub (cand_dist x) (cand_dist y))) (Fin (1 # 1000)) = false.

(** The distance of the candidate is a finite number. *)
Definition finiteDist (x : Candidate) : Prop := ∃ q, cand_dist x = Fin q.

(** *** The calls in flight and the store *)

(** A vehicle without the three fields the rebalancer writes. *)
Definition untargeted (v : Vehicle) : Vehicle :=
  {| v_status := v_status v;
     v_location := v_location v;
     v_currentPassengers := v_currentPassengers v;
     v_driverId := v_driverId v;
     v_fcmToken := v_fcmToken v;
     v_targetLocation := None;
     v_rebalanceReason := None;
     v_rebalanceTimestamp := None |}.

(** Two stores that differ at most in the console, the outbox and the
    targets of vehicles. *)
Definition sameFleet (w w' : World) : Prop :=
  bookings w' = bookings w ∧ untargeted <$> vehicles w' = untargeted <$> vehicles w.

(** Every passenger list is free of repetitions, and every booking on the
    list of a vehicle exists and is assigned to that vehicle. *)
Definition carriedConsistent (w : World) : Prop :=
  (∀ vid v, vehicles w !! vid = Some v → NoDup (passengersOf v)) ∧
  (∀ vid v id,
     vehicles w !! vid = Some v → id ∈ passengersOf v →
     ∃ b, bookings w !! id = Some b ∧ b_status b = Some "assigned" ∧
          b_assignedVehicleId b = Some vid).

(** A call that ended by assigning the booking to the vehicle. *)
Definition winner (bookingId vehicleId : string) : Task :=
  AssignTask (Finished bookingId (Ok (AssignedTo vehicleId))).

(** The booking and the vehicle of a call whose transaction went through:
    the call is about to notify the driver, or has ended. *)
Definition wonBy (t : Task) : option (string * string) :=
  match t with
  | AssignTask (Sending _ id _ chosen) => Some (id, cand_id chosen)
  | AssignTask (Finished id (Ok (AssignedTo vid))) => Some (id, vid)
  | _ => None
  end.

(** The call at index [i] has won the booking [id] for the vehicle [vid]. *)
Definition hasWon (s : System) (i : nat) (id vid : string) : Prop :=
  ∃ t, tasks s !! i = Some t ∧ wonBy t = Some (id, vid).

(** What a call has won is in the store: the booking is assigned to the
    vehicle and the vehicle lists the booking. *)
Definition winnersRecorded (s : System) : Prop :=
  ∀ i id vid,
    hasWon s i id vid →
    ∃ b v,
      bookings (store s) !! id = Some b ∧
      b_status b = Some "assigned" ∧
      b_assignedVehicleId b = Some vid ∧
      vehicles (store s) !! vid = Some v ∧
      id ∈ passengersOf v.

(** No booking is won by two calls. *)
Definition oneWinner (s : System) : Prop :=
  ∀ i j id vid1 vid2, hasWon s i id vid1 → hasWon s j id vid2 → i = j.

(** The one step that writes documents of both collections: the
    transaction of a call went through. *)
Definition committed (p p' : Proc) (w w' : World) : Prop :=
  ∃ env id booking chosen bData vData,
    p = Chose env id booking chosen ∧
    wonBy (AssignTask p') = Some (id, cand_id chosen) ∧
    bookings w !! id = Some bData ∧
    b_status bData = Some "pending" ∧
    vehicles w !! cand_id chosen = Some vData ∧
    (length (passengersOf vData) < 7)%nat ∧
    bookings w' =
      <[id := patchBooking
                {| set_assignedVehicleId := cand_id chosen;
                   set_assignedDriverId := orNull (cand_driverId chosen);
                   set_verificationCode := verificationCodeFor env (b_number bData);
                   set_assignedAt := now env |} bData]> (bookings w) ∧
    vehicles w' =
      <[cand_id chosen :=
          patchVehicle (SetPassengers (passengersOf vData ++ [id])) vData]>
        (vehicles w).

(** What one event does to the system. *)
Inductive Moved (s s' : System) : Prop :=
| Quiet :
    sameFleet (store s) (store s') →
    (∀ i id vid, hasWon s' i id vid → hasWon s i id vid) →
    Moved s s'
| Commits (i : nat) (p p' : Proc) :
    tasks s !! i = Some (AssignTask p) →
    tasks s' = <[i := AssignTask p']> (tasks s) →
    committed p p' (store s) (store s') →
    Moved s s'
| Adds (id : string) (b : Booking) :
    bookings (store s) !! id = None →
    bookings (store s') = <[id := b]> (bookings (store s)) →
    vehicles (store s') = vehicles (store s) →
    (∀ i id vid, hasWon s' i id vid → hasWon s i id vid) →
    Moved s s'.

(** A booking is left as it is, or goes from pending to assigned. *)
Definition keepsBooking (b b' : Booking) : Prop :=
  b' = b ∨ (b_status b = Some "pending" ∧ ∃ p, b' = patchBooking p b).

(** A vehicle keeps its status, place, driver and token, and the
    passengers it had. *)
Definition keepsVehicle (v v' : Vehicle) : Prop :=
  v_status v' = v_status v ∧ v_location v' = v_location v ∧
  v_driverId v' = v_driverId v ∧ v_fcmToken v' = v_fcmToken v ∧
  passengersOf v `prefix_of` passengersOf v'.

(** From [w] to [w']: every booking is kept, every vehicle is kept, and no
    vehicle is added. *)
Definition onlyGrows (w w' : World) : Prop :=
  (∀ id b, bookings w !! id = Some b →
           ∃ b', bookings w' !! id = Some b' ∧ keepsBooking b b') ∧
  (∀ vid,
     match vehicles w !! vid, vehicles w' !! vid with
     | Some v, Some v' => keepsVehicle v v'
     | None, None => True
     | _, _ => False
     end).

(** Awaits a call still has before it. *)
Definition stepsLeft (t : Task) : nat :=
  match t with
  | AssignTask (Started _ _) => 4
  | AssignTask (Loaded _ _ _ _ _) => 3
  | AssignTask (Chose _ _ _ _) => 2
  | AssignTask (Sending _ _ _ _) => 1
  | AssignTask (Finished _ _) => 0
  | RebalanceTask (RStarted _ _) => 5
  | RebalanceTask (RIdle _ _ _) => 4
  | RebalanceTask (RApplying _ _ top) => 1 `max` length top
  | RebalanceTask (RFinished _) => 0
  end.

(** How often the call at index [j] is resumed by a list of events. *)
Definition isResume (j : nat) (e : Event) : bool :=
  match e with Resume i => bool_decide (i = j) | _ => false end.

Definition resumes (j : nat) (events : list Event) : nat :=
  length (filter (λ e, isResume j e = true) events).

(** The call has ended. *)
Definition taskDone (t : Task) : bool :=
  match t with
  | AssignTask (Finished _ _) | RebalanceTask (RFinished _) => true
  | _ => false
  end.

(** A call that runs its next [n] steps with nothing in between. *)
Fixpoint runAlone (rt : JsRuntime) (n : nat) (t : Task) (w : World) : Task * World :=
  match n with
  | O => (t, w)
  | S n' => let '(t', w') := stepTask rt t w in runAlone rt n' t' w'
  end.

(** The messages sent since the store was [w0]: at most one for a booking,
    and each for a booking some call has won. *)
Definition notifiedOnce (w0 : World) (s : System) : Prop :=
  ∃ added,
    outbox (store s) = outbox w0 ++ added ∧
    NoDup (msg_bookingId <$> added) ∧
    ∀ m, m ∈ added → ∃ i vid, tasks s !! i = Some (winner (msg_bookingId m) vid).

(** A document of the vehicles collection without those three fields. *)
Definition untargetedDoc (d : string * Vehicle) : string * Vehicle :=
  (d.1, untargeted d.2).

(** *** The rebalancer *)







(** [Math.max(1, q)] on a rational. *)
Definition atLeastOne (q : Q) : Q :=
  if Qltb (inject_Z 1) q then q else inject_Z 1.

(** *** Calls of the running server *)



(** The booking an assignment call is for. *)
Definition bookingOf (p : Proc) : string :=
  match p with
  | Started _ id | Loaded _ id _ _ _ | Chose _ id _ _ | Sending _ id _ _
  | Finished id _ => id
  end.

(** No call in flight can still write the booking: the calls for it have
    ended or are past their transaction. *)
Definition settled (id : string) (s : System) : Prop :=
  ∀ i p, tasks s !! i = Some (AssignTask p) → bookingOf p = id →
         match p with Sending _ _ _ _ | Finished _ _ => True | _ => False end.

(** ** Sample data *)

Module Sample.
Definition candidate (id : string) (dist : Q) (passengers : nat) : Candidate :=
  {| cand_id := id; cand_driverId := None; cand_dist := Fin dist;
     cand_passengerCount := passengers; cand_fcmToken := None |}.



Definition at_ (la ln : Q) : Location := {| lat := VNum (Fin la); lng := VNum (Fin ln) |}.

Definition booking (status : string) (pickup : option Location) (createdAt : Z)
  : Booking :=
  {| b_status := Some status; b_pickup := pickup; b_number := Some "9876543210";
     b_drop := None; b_createdAt := Some createdAt; b_assignedVehicleId := None;
     b_assignedDriverId := None; b_verificationCode := None; b_assignedAt := None |}.

Definition vehicle (loc : Location) (passengers : list string) : Vehicle :=
  {| v_status := Some "idle"; v_location := Some loc;
     v_currentPassengers := Some passengers; v_driverId := Some "d1";
     v_fcmToken := Some "token-1"; v_targetLocation := None;
     v_rebalanceReason := None; v_rebalanceTimestamp := None |}.

Definition env0 : Env := {| now := 3600000; random := 1 # 2; fcmDelivers := true |}.

Definition world (b : Booking) (v : Vehicle) : World :=
  {| bookings := {[ "b1" := b ]}; vehicles := {[ "v1" := v ]};
     outbox := []; console := [] |}.

(** The scenario of the specification: one idle vehicle at (0, 0), a pending
    booking with its pickup at (0, 0.01). *)
Definition worldPending : World :=
  world (booking "pending" (Some (at_ 0 (1 # 100))) 3000000) (vehicle (at_ 0 0) []).

Definition worldAssigned : World :=
  world (booking "assigned" (Some (at_ 0 (1 # 100))) 3000000) (vehicle (at_ 0 0) ["b1"]).

(** A pending booking whose latitude is the string "abc". *)
Definition worldUnparsable : World :=
  world (booking "pending" (Some {| lat := VStr "abc"; lng := VNum (Fin 0) |}) 3000000)
        (vehicle (at_ 0 0) []).

(** A pending booking whose latitude is the string "Infinity". *)
Definition worldInfinite : World :=
  world (booking "pending" (Some {| lat := VStr "Infinity"; lng := VNum (Fin 0) |}) 3000000)
        (vehicle (at_ 0 0) []).

Definition chosenV1 : Candidate :=
  {| cand_id := "v1"; cand_driverId := Some "d1"; cand_dist := Fin 1;
     cand_passengerCount := 0; cand_fcmToken := Some "token-1" |}.

(** A booking whose pickup lies on the equator. *)
Definition equatorBooking : Booking := booking "pending" (Some (at_ 0 (1 # 100))) 0.


(** Two recent bookings at (10, 10); five empty idle vehicles between 2 km
    and 22 km north of it, and a sixth, 1 km away, that carries a passenger. *)
Definition fleet : World :=
  {| bookings := {[ "b1" := booking "assigned" (Some (at_ 10 10)) 3000000;
                    "b2" := booking "pending" (Some (at_ 10 10)) 3100000 ]};
     vehicles := {[ "v1" := vehicle (at_ (102 # 10) 10) [];
                    "v2" := vehicle (at_ (1002 # 100) 10) [];
                    "v3" := vehicle (at_ (101 # 10) 10) [];
                    "v4" := vehicle (at_ (1003 # 100) 10) [];
                    "v5" := vehicle (at_ (1005 # 100) 10) [];
                    "v6" := vehicle (at_ (1001 # 100) 10) ["b9"] ]};
     outbox := []; console := [] |}.

(** The suggestions the planner computes for [fleet]. *)
Definition fleetSuggestions : list Suggestion :=
  Eval vm_compute in
    match (generateRebalanceSuggestions approxRuntime env0 fleet).1 with
    | Ok l => l
    | Err _ => []
    end.


(** The vehicle of [worldPending] after the rebalancer gave it a target. *)
Definition worldTargeted : World :=
  world (booking "pending" (Some (at_ 0 (1 # 100))) 3000000)
        (patchVehicle (SetTarget (at_ 1 1) "High demand area" 3500000)
           (vehicle (at_ 0 0) [])).


(** Three candidates more than a metre apart from each other. *)
Definition apart : list Candidate :=
  [candidate "P" 5 0; candidate "Q" 2 6; candidate "R" 9 1].

(** A request with [latitude] and [longitude] as strings and no pickup. *)
Definition coordsRequest : CoordsRequest :=
  {| cr_booking := booking "" None 0;
     cr_latitude := VStr "12.5";
     cr_longitude := VStr "77.25" |}.

(** The server started on [worldPending]: call 0 is the listener's for
    "b1", call 1 the first run of the rebalancer; a booking "b2" is posted,
    which starts the calls 2 and 3; the calls are resumed in turn. *)
Definition busyEvents : list Event :=
  [Resume 0; PostBooking env0 "b2" (booking "" (Some (at_ 0 (2 # 100))) 0);
   Resume 2; Resume 0; Resume 3; Resume 1; Resume 2; Resume 3; Resume 0; Resume 2;
   Resume 3; Resume 0; Resume 2; Resume 1].

(** The server after the listener's call for the booking of
    [worldUnparsable] has ended with "not valid numbers". *)
Definition afterFailure : System :=
  {| store := worldUnparsable;
     tasks := [AssignTask (Finished "b1" (Err InvalidPickup))] |}.

(** A request for a second booking, 2.2 km from the vehicle of
    [worldPending]. *)
Definition secondBooking : Booking := booking "" (Some (at_ 0 (2 # 100))) 0.

(** A pending booking at (10, 10) and one idle, empty vehicle 2.2 km north
    of it. *)
Definition worldFar : World :=
  world (booking "pending" (Some (at_ 10 10)) 3000000)
        (vehicle (at_ (1002 # 100) 10) []).
End Sample.

(** ** Numbers *)

Lemma Qltb_lt a b : Qltb a b = true ↔ (a < b)%Q.
Proof.
  unfold Qltb. rewrite Qlt_alt. destruct (a ?= b)%Q; split; congruence.
Qed.

Lemma Qeqb_eq a b : Qeqb a b = true ↔ (a == b)%Q.
Proof.
  unfold Qeqb. rewrite Qeq_alt. destruct (a ?= b)%Q; split; congruence.
Qed.

Lemma jltb_asym x y : jltb x y = true → jltb y x = false.
Proof.
  destruct x as [| | |a], y as [| | |b]; simpl; try done.
  intros H%Qltb_lt. apply not_true_is_false. intros H'%Qltb_lt.
  eapply Qlt_irrefl, Qlt_trans; eauto.
Qed.

Lemma near_sym x y e : jltb (jabs (jsub x y)) e = jltb (jabs (jsub y x)) e.
Proof.
  destruct x as [| | |a], y as [| | |b]; try reflexivity.
  unfold jsub, jabs. by rewrite Qabs_Qminus.
Qed.

Lemma jsub_neg_pos x y :
  jltb (jsub x y) (Fin 0) = true → jltb (Fin 0) (jsub y x) = true.
Proof.
  destruct x as [| | |a], y as [| | |b]; simpl; try done.
  rewrite !Qltb_lt. intros H.
  apply (Qplus_lt_l _ _ a). ring_simplify.
  apply (Qplus_lt_l _ _ b) in H. ring_simplify in H. done.
Qed.

(** ** Geodistance *)

(** The term [a] reaches [Math.sqrt(1 - a)] as it was computed: the source
    has no clamp.  With a square root that is NaN below zero and an arc
    tangent that is NaN on NaN, a term above 1 makes the distance NaN. *)
Lemma haversine_unguarded rt lat1 lon1 lat2 lon2 :
  (∀ x, jltb x (Fin 0) = true → Math_sqrt rt x = NaN) →
  (∀ y, Math_atan2 rt y NaN = NaN) →
  jltb (jnum 1) (haversineTerm rt lat1 lon1 lat2 lon2) = true →
  haversineDistanceKm rt lat1 lon1 lat2 lon2 = NaN.
Proof.
  intros Hsqrt Hatan Ha. unfold haversineDistanceKm.
  rewrite (Hsqrt (jsub (jnum 1) _)), Hatan; [done|].
  destruct (haversineTerm rt lat1 lon1 lat2 lon2) as [| | |q]; try done.
  unfold jnum in *. simpl in *. apply Qltb_lt in Ha. apply Qltb_lt.
  apply (Qplus_lt_l _ _ q). ring_simplify. done.
Qed.

(** The distance on the approximating runtime: zero between identical
    points, about 559 km from Los Angeles to San Francisco, half the
    circumference between antipodes. *)
Example distance_identical :
  match haversineDistanceKm approxRuntime
          (VNum (Fin 10)) (VNum (Fin 20)) (VNum (Fin 10)) (VNum (Fin 20)) with
  | Fin d => Qeqb d 0
  | _ => false
  end = true.
Proof. by vm_compute. Qed.

Example distance_LA_SF :
  match haversineDistanceKm approxRuntime
          (VNum (Fin (34052235 # 1000000))) (VNum (Fin (-118243683 # 1000000)))
          (VNum (Fin (377749 # 10000))) (VNum (Fin (-1224194 # 10000))) with
  | Fin d => Qltb 557 d && Qltb d 561
  | _ => false
  end = true.
Proof. by vm_compute. Qed.

Example distance_antipodes :
  match haversineDistanceKm approxRuntime
          (VNum (Fin 0)) (VNum (Fin 0)) (VNum (Fin 0)) (VNum (Fin 180)) with
  | Fin d => Qltb 20015 d && Qltb d 20016
  | _ => false
  end = true.
Proof. by vm_compute. Qed.

(** ** The sort *)

Section sort_facts.
Context {A : Type} (cmp : A → A → jsnum).

Lemma sortsBefore_not_after x y :
  sortsBefore cmp x y = true → sortsAfter cmp x y = false.
Proof. unfold sortsBefore, sortsAfter, jgtb. apply jltb_asym. Qed.

Lemma elem_of_sortInsert x y l : y ∈ sortInsert cmp x l ↔ y = x ∨ y ∈ l.
Proof.
  induction l as [|z l IH]; simpl.
  - rewrite list_elem_of_singleton, elem_of_nil. tauto.
  - destruct (sortsAfter cmp x z); rewrite !elem_of_cons; [rewrite IH|]; tauto.
Qed.

Lemma elem_of_arraySort y l : y ∈ arraySort cmp l ↔ y ∈ l.
Proof.
  induction l as [|z l IH]; simpl; [done|].
  rewrite elem_of_sortInsert, elem_of_cons, IH. tauto.
Qed.

Lemma sortInsert_Permutation x s : sortInsert cmp x s ≡ₚ x :: s.
Proof.
  induction s as [|u s IHs]; simpl; [done|].
  destruct (sortsAfter cmp x u); [|done].
  rewrite IHs. apply Permutation_swap.
Qed.

Lemma arraySort_Permutation l : arraySort cmp l ≡ₚ l.
Proof.
  induction l as [|z l IH]; simpl; [done|].
  by rewrite sortInsert_Permutation, IH.
Qed.

Lemma length_arraySort l : length (arraySort cmp l) = length l.
Proof. by rewrite arraySort_Permutation. Qed.

(** An element that the comparator puts before every other one ends up
    first, provided the comparator is antisymmetric. *)
Lemma hd_arraySort_winner (best : A) l dflt :
  (∀ a b, sortsBefore cmp a b = true → sortsAfter cmp b a = true) →
  best ∈ l →
  (∀ d, d ∈ l → d = best ∨ sortsBefore cmp best d = true) →
  List.hd dflt (arraySort cmp l) = best.
Proof.
  intros Hanti. induction l as [|x l IH]; intros Hin Hall.
  { by apply elem_of_nil in Hin. }
  simpl. destruct (arraySort cmp l) as [|y t] eqn:Hs.
  - assert (l = []) as ->.
    { apply Permutation_nil_r. rewrite <- Hs. symmetry. apply arraySort_Permutation. }
    apply elem_of_cons in Hin as [->|Hin]; [done|]. by apply elem_of_nil in Hin.
  - assert (y ∈ l) as Hy by (apply elem_of_arraySort; rewrite Hs; left).
    simpl. apply elem_of_cons in Hin as [->|Hin].
    + destruct (Hall y) as [->|Hb]; [by right| |].
      * by destruct (sortsAfter cmp x x).
      * by rewrite (sortsBefore_not_after _ _ Hb).
    + assert (y = best) as ->.
      { specialize (IH Hin). simpl in IH. apply IH. intros d Hd. apply Hall. by right. }
      destruct (Hall x) as [->|Hb]; [by left| |].
      * by destruct (sortsAfter cmp best best).
      * by rewrite (Hanti _ _ Hb).
Qed.
End sort_facts.

(** ** Ranking of candidates *)

Lemma compareCandidates_antisym a b :
  sortsBefore compareCandidates a b = true → sortsAfter compareCandidates b a = true.
Proof.
  unfold sortsBefore, sortsAfter, jgtb, compareCandidates.
  rewrite (near_sym (cand_dist b) (cand_dist a)).
  destruct (jltb (jabs (jsub (cand_dist a) (cand_dist b))) (Fin (1 # 1000))).
  - unfold jnum. simpl. rewrite !Qltb_lt. unfold Qlt. simpl. lia.
  - apply jsub_neg_pos.
Qed.

Lemma chooseCandidate_elem_of c cs : chooseCandidate c cs ∈ c :: cs.
Proof.
  unfold chooseCandidate.
  destruct (arraySort compareCandidates (c :: cs)) as [|y t] eqn:Hs.
  - pose proof (length_arraySort compareCandidates (c :: cs)) as Hl.
    rewrite Hs in Hl. discriminate.
  - simpl. apply (elem_of_arraySort compareCandidates). rewrite Hs. left.
Qed.

Lemma chooseCandidate_winner c cs best :
  best ∈ c :: cs →
  (∀ d, d ∈ c :: cs → d = best ∨ rankedBefore best d) →
  chooseCandidate c cs = best.
Proof.
  intros Hin Hall. unfold chooseCandidate.
  apply hd_arraySort_winner; auto using compareCandidates_antisym.
Qed.





(** ** The assignment transaction *)

Lemma isPending_true b : isPending b = true ↔ b_status b = Some "pending".
Proof. unfold isPending. apply bool_decide_eq_true. Qed.

Lemma isFull_true l : isFull l = true ↔ (7 ≤ length l)%nat.
Proof. unfold isFull. apply bool_decide_eq_true. Qed.

Lemma isFull_false l : isFull l = false ↔ (length l < 7)%nat.
Proof. unfold isFull. rewrite bool_decide_eq_false. lia. Qed.

(** The transaction, read off its body: four ways to throw, each leaving the
    store as it was, and one way through. *)
Lemma runTransaction_assign env bookingId chosen w :
  runTransaction (assignTransaction env bookingId chosen) w =
  match bookings w !! bookingId with
  | None => (Err BookingDisappeared, w)
  | Some bData =>
      if negb (isPending bData) then (Err BookingAlreadyHandled, w)
      else
        match vehicles w !! cand_id chosen with
        | None => (Err VehicleDisappeared, w)
        | Some vData =>
            if isFull (passengersOf vData) then (Err VehicleFull, w)
            else (Ok tt, assignedWorld env bookingId chosen bData vData w)
        end
  end.
Proof.
  unfold runTransaction, assignTransaction, txn_bind, txn_getBooking,
    txn_getVehicle, txn_throw, txn_update. simpl.
  destruct (bookings w !! bookingId) as [bData|] eqn:Hb; [|done].
  destruct (isPending bData); simpl; [|done].
  destruct (vehicles w !! cand_id chosen) as [vData|] eqn:Hv; [|done].
  destruct (isFull (passengersOf vData)); simpl; [done|].
  rewrite Hb. simpl. rewrite Hv. done.
Qed.

Lemma vehicles_notifyDriver env id b c w :
  vehicles (notifyDriver env id b c w) = vehicles w.
Proof. unfold notifyDriver. destruct (cand_fcmToken c), (fcmDelivers env); done. Qed.

Lemma bookings_notifyDriver env id b c w :
  bookings (notifyDriver env id b c w) = bookings w.
Proof. unfold notifyDriver. destruct (cand_fcmToken c), (fcmDelivers env); done. Qed.

Lemma commitAssignment_cases env bookingId booking chosen w :
  (∃ e, isConflict e ∧ commitAssignment env bookingId booking chosen w = (Err e, w)) ∨
  (∃ bData vData,
     bookings w !! bookingId = Some bData ∧ b_status bData = Some "pending" ∧
     vehicles w !! cand_id chosen = Some vData ∧
     (length (passengersOf vData) < 7)%nat ∧
     commitAssignment env bookingId booking chosen w =
       (Ok (AssignedTo (cand_id chosen)),
        notifyDriver env bookingId booking chosen
          (log (LogAssigned bookingId (cand_id chosen))
             (assignedWorld env bookingId chosen bData vData w)))).
Proof.
  unfold commitAssignment, isConflict. rewrite runTransaction_assign.
  destruct (bookings w !! bookingId) as [bData|]; [|eauto 10].
  destruct (isPending bData) eqn:Hp; simpl; [|eauto 10].
  destruct (vehicles w !! cand_id chosen) as [vData|]; [|eauto 10].
  destruct (isFull (passengersOf vData)) eqn:Hf; [eauto 10|].
  right. exists bData, vData. apply isPending_true in Hp. apply isFull_false in Hf.
  auto.
Qed.

Lemma commitAssignment_reachedScan env bookingId booking chosen w :
  reachedScan (commitAssignment env bookingId booking chosen w).1.
Proof.
  destruct (commitAssignment_cases env bookingId booking chosen w)
    as [(e & He & ->)|(bData & vData & _ & _ & _ & _ & ->)]; done.
Qed.

(** C1.  When the re-check inside the transaction fails (the booking is
    gone or not pending, or the vehicle is gone or carries seven passengers
    or more), the transaction throws one of the four conflict errors and the
    store after it is the store before it: no field of the booking or of the
    vehicle is written, and nothing is sent. *)
Theorem conflict_aborts_without_writes env bookingId booking chosen w :
  recheckFails bookingId (cand_id chosen) w →
  ∃ e, isConflict e ∧
       runTransaction (assignTransaction env bookingId chosen) w = (Err e, w) ∧
       commitAssignment env bookingId booking chosen w = (Err e, w).
Proof.
  intros Hfail. unfold commitAssignment. rewrite runTransaction_assign.
  unfold recheckFails, isConflict in *.
  destruct (bookings w !! bookingId) as [bData|]; [|eauto 10].
  destruct (isPending bData) eqn:Hp; simpl; [|eauto 10].
  apply isPending_true in Hp.
  destruct Hfail as [Hfail|Hfail]; [done|].
  destruct (vehicles w !! cand_id chosen) as [vData|]; [|eauto 10].
  apply isFull_true in Hfail. rewrite Hfail. eauto 10.
Qed.

(** A booking that another call has assigned in the meantime. *)
Lemma conflict_aborts_without_writes_witness :
  recheckFails "b1" (cand_id Sample.chosenV1) Sample.worldAssigned ∧
  ∃ e, isConflict e ∧
       runTransaction (assignTransaction Sample.env0 "b1" Sample.chosenV1)
         Sample.worldAssigned = (Err e, Sample.worldAssigned) ∧
       commitAssignment Sample.env0 "b1"
         (Sample.booking "pending" None 0) Sample.chosenV1 Sample.worldAssigned
         = (Err e, Sample.worldAssigned).
Proof.
  assert (recheckFails "b1" (cand_id Sample.chosenV1) Sample.worldAssigned) as H.
  { left. vm_compute. discriminate. }
  split; [exact H|].
  exact (conflict_aborts_without_writes Sample.env0 "b1"
           (Sample.booking "pending" None 0) Sample.chosenV1 Sample.worldAssigned H).
Defined.

Lemma validatePickup_error booking e :
  validatePickup booking = Err e → e = MissingPickup ∨ e = InvalidPickup.
Proof.
  unfold validatePickup. destruct (b_pickup booking) as [pickup|]; [|intros [= <-]; auto].
  destruct (isNullish (lat pickup) || isNullish (lng pickup)); [intros [= <-]; auto|].
  destruct (isNaN (parseFloat (lat pickup)) || isNaN (parseFloat (lng pickup)));
    [intros [= <-]; auto|done].
Qed.

(** Over the whole call: a conflict error leaves the store as the other
    requests left it, with one more console line. *)
Lemma assign_conflict_leaves_store rt others1 others2 env bookingId w0 e w' :
  assignDriverForBookingAmid rt others1 others2 env bookingId w0 = (Err e, w') →
  isConflict e →
  ∃ line, w' = others2 (log line (others1 w0)).
Proof.
  unfold assignDriverForBookingAmid, isConflict. intros Hrun He.
  destruct (bookings w0 !! bookingId) as [booking|].
  2: { injection Hrun as <- _. destruct He as [?|[?|[?|?]]]; discriminate. }
  destruct (negb (isPending booking)); [done|].
  destruct (validatePickup booking) as [[la ln]|e'] eqn:Hv.
  2: { injection Hrun as <- _.
       destruct (validatePickup_error _ _ Hv) as [->| ->];
         destruct He as [?|[?|[?|?]]]; discriminate. }
  destruct (scanCandidates rt la ln (idleVehicleDocs (others1 w0))) as [|c cs]; [done|].
  match type of Hrun with commitAssignment ?e ?i ?b ?ch ?w = _ =>
    destruct (commitAssignment_cases e i b ch w)
      as [(er & _ & Her)|(bData & vData & _ & _ & _ & _ & Her)];
    rewrite Her in Hrun end; [|done].
  injection Hrun as _ <-. eauto.
Qed.

(** ** Capacity *)

Lemma elem_of_docsById {A} (m : gmap string A) d :
  d ∈ docsById m ↔ m !! d.1 = Some d.2.
Proof.
  unfold docsById. rewrite merge_sort_Permutation. destruct d as [k a].
  apply elem_of_map_to_list.
Qed.

Lemma elem_of_idleVehicleDocs w d :
  d ∈ idleVehicleDocs w ↔ vehicles w !! d.1 = Some d.2 ∧ v_status d.2 = Some "idle".
Proof.
  unfold idleVehicleDocs. rewrite list_elem_of_filter, elem_of_docsById.
  unfold hasStatus. tauto.
Qed.

Lemma candidateOf_Some rt la ln d c :
  candidateOf rt la ln d = Some c →
  cand_id c = d.1 ∧ (length (passengersOf d.2) < 7)%nat ∧
  cand_passengerCount c = length (passengersOf d.2).
Proof.
  unfold candidateOf. destruct (isFull (passengersOf d.2)) eqn:Hf; [done|].
  apply isFull_false in Hf.
  destruct (v_location d.2) as [loc|]; [|done].
  destruct (isNullish (lat loc) || isNullish (lng loc)); [done|].
  intros [= <-]. simpl. auto.
Qed.

Lemma scanCandidates_sound rt la ln w c :
  c ∈ scanCandidates rt la ln (idleVehicleDocs w) →
  ∃ v, vehicles w !! cand_id c = Some v ∧ v_status v = Some "idle" ∧
       (length (passengersOf v) < 7)%nat.
Proof.
  unfold scanCandidates. rewrite list_elem_of_omap.
  intros (d & Hd & Hc). apply elem_of_idleVehicleDocs in Hd as [Hd Hs].
  apply candidateOf_Some in Hc as (Hid & Hlen & _).
  exists d.2. rewrite Hid. auto.
Qed.

Lemma capacityOk_commit env bookingId booking chosen w :
  capacityOk w → capacityOk (commitAssignment env bookingId booking chosen w).2.
Proof.
  intros Hok.
  destruct (commitAssignment_cases env bookingId booking chosen w)
    as [(e & _ & ->)|(bData & vData & _ & _ & Hv & Hlen & ->)]; [done|].
  simpl. intros id v. rewrite vehicles_notifyDriver. simpl.
  destruct (decide (cand_id chosen = id)) as [<-|Hne].
  - rewrite lookup_insert_eq. intros [= <-]. simpl.
    unfold passengersOf at 1. simpl. rewrite length_app. simpl. lia.
  - rewrite lookup_insert_ne by done. apply Hok.
Qed.

(** C3.  The vehicle chosen from the scan carries fewer than seven
    passengers at the time of the scan; the transaction appends the booking
    id only to a vehicle that carries fewer than seven passengers when the
    transaction runs, and appends it once; so a call keeps every vehicle at
    seven passengers or fewer, whatever other requests (that keep it too) do
    in between. *)
Theorem assign_respects_capacity :
  (∀ rt w la ln c cs,
     scanCandidates rt la ln (idleVehicleDocs w) = c :: cs →
     ∃ v, vehicles w !! cand_id (chooseCandidate c cs) = Some v ∧
          (length (passengersOf v) < 7)%nat) ∧
  (∀ env bookingId booking chosen w outcome w',
     commitAssignment env bookingId booking chosen w = (Ok outcome, w') →
     ∃ v, vehicles w !! cand_id chosen = Some v ∧
          (length (passengersOf v) < 7)%nat ∧
          vehicles w' =
            <[cand_id chosen :=
                patchVehicle (SetPassengers (passengersOf v ++ [bookingId])) v]>
              (vehicles w)) ∧
  (∀ rt others1 others2 env bookingId w0,
     (∀ w, capacityOk w → capacityOk (others1 w)) →
     (∀ w, capacityOk w → capacityOk (others2 w)) →
     capacityOk w0 →
     capacityOk (assignDriverForBookingAmid rt others1 others2 env bookingId w0).2).
Proof.
  split; [|split].
  - intros rt w la ln c cs Hscan.
    destruct (scanCandidates_sound rt la ln w (chooseCandidate c cs))
      as (v & Hv & _ & Hlen); [|eauto].
    rewrite Hscan. apply chooseCandidate_elem_of.
  - intros env bookingId booking chosen w outcome w' Hc.
    destruct (commitAssignment_cases env bookingId booking chosen w)
      as [(e & _ & He)|(bData & vData & _ & _ & Hv & Hlen & He)];
      rewrite He in Hc; [done|].
    injection Hc as _ <-. exists vData. rewrite vehicles_notifyDriver. auto.
  - intros rt others1 others2 env bookingId w0 H1 H2 Hok.
    unfold assignDriverForBookingAmid.
    destruct (bookings w0 !! bookingId) as [booking|]; [|done].
    destruct (negb (isPending booking)); [done|].
    destruct (validatePickup booking) as [[la ln]|e]; [|done].
    destruct (scanCandidates rt la ln (idleVehicleDocs (others1 w0))) as [|c cs].
    + simpl. by apply H1.
    + apply capacityOk_commit, H2. by apply H1.
Qed.

Lemma capacityOk_sample : capacityOk Sample.worldPending.
Proof.
  intros id v H. unfold Sample.worldPending, Sample.world in H. simpl in H.
  apply lookup_singleton_Some in H as [_ <-]. simpl. lia.
Qed.

(** The scenario of the specification keeps the bound, and the vehicle ends
    with the one booking. *)
Lemma assign_respects_capacity_witness :
  capacityOk Sample.worldPending ∧
  capacityOk
    (assignDriverForBookingAmid approxRuntime id id Sample.env0 "b1"
       Sample.worldPending).2 ∧
  v_currentPassengers <$>
    vehicles (assignDriverForBookingAmid approxRuntime id id Sample.env0 "b1"
                Sample.worldPending).2 !! "v1" = Some (Some ["b1"]).
Proof.
  split; [exact capacityOk_sample|]. split; [|by vm_compute].
  exact (proj2 (proj2 assign_respects_capacity) approxRuntime id id Sample.env0 "b1"
           Sample.worldPending (λ w H, H) (λ w H, H) capacityOk_sample).
Defined.

(** ** Validation of the pickup *)

(** C7 (as amended).  For a pending booking whose pickup coordinates are
    present: when [parseFloat] of either coordinate is NaN the call throws
    "not valid numbers" and the store is untouched; and the call gets past
    validation exactly when neither is NaN. *)
Theorem invalid_pickup_rejected rt others1 others2 env bookingId w0 booking pickup :
  bookings w0 !! bookingId = Some booking →
  b_status booking = Some "pending" →
  b_pickup booking = Some pickup →
  isNullish (lat pickup) = false →
  isNullish (lng pickup) = false →
  (isNaN (parseFloat (lat pickup)) || isNaN (parseFloat (lng pickup)) = true →
     assignDriverForBookingAmid rt others1 others2 env bookingId w0
       = (Err InvalidPickup, w0)) ∧
  (reachedScan (assignDriverForBookingAmid rt others1 others2 env bookingId w0).1 ↔
     isNaN (parseFloat (lat pickup)) = false ∧
     isNaN (parseFloat (lng pickup)) = false).
Proof.
  intros Hb Hs Hp Hlat Hlng.
  assert (isPending booking = true) as Hpend by by apply isPending_true.
  unfold assignDriverForBookingAmid, validatePickup.
  rewrite Hb, Hpend, Hp, Hlat, Hlng. simpl.
  destruct (isNaN (parseFloat (lat pickup))) eqn:Hla;
    destruct (isNaN (parseFloat (lng pickup))) eqn:Hln; simpl;
    try (split; [done|]; unfold isConflict; split; [|intros [? ?]; done];
         intros [?|[?|[?|?]]]; done).
  split; [done|]. split; [done|]. intros _.
  destruct (scanCandidates _ _ _ _) as [|c cs]; [done|].
  apply commitAssignment_reachedScan.
Qed.

(** A latitude "abc" is rejected. *)
Lemma invalid_pickup_rejected_witness :
  assignDriverForBookingAmid approxRuntime id id Sample.env0 "b1" Sample.worldUnparsable
    = (Err InvalidPickup, Sample.worldUnparsable).
Proof.
  refine (proj1 (invalid_pickup_rejected approxRuntime id id Sample.env0 "b1"
                   Sample.worldUnparsable
                   (Sample.booking "pending"
                      (Some {| lat := VStr "abc"; lng := VNum (Fin 0) |}) 3000000)
                   {| lat := VStr "abc"; lng := VNum (Fin 0) |} _ _ _ _ _) _);
    reflexivity.
Defined.

(** C7 as stated fails: the latitude "Infinity" does not parse as a finite
    number, yet the call passes validation and assigns the booking. *)
Lemma infinite_pickup_counterexample :
  parseFloat (VStr "Infinity") = PosInf ∧
  (assignDriverForBooking approxRuntime Sample.env0 "b1" Sample.worldInfinite).1
    = Ok (AssignedTo "v1") ∧
  b_status <$>
    bookings (assignDriverForBooking approxRuntime Sample.env0 "b1"
                Sample.worldInfinite).2 !! "b1" = Some (Some "assigned").
Proof. split; [reflexivity|]. split; by vm_compute. Qed.

(** ** Bookings that are not pending *)

Lemma not_pending_skipped rt others1 others2 env bookingId w0 booking :
  bookings w0 !! bookingId = Some booking →
  b_status booking ≠ Some "pending" →
  ∃ w', assignDriverForBookingAmid rt others1 others2 env bookingId w0
          = (Ok NotPending, w') ∧
        bookings w' = bookings w0 ∧ vehicles w' = vehicles w0 ∧
        outbox w' = outbox w0.
Proof.
  intros Hb Hs. unfold assignDriverForBookingAmid. rewrite Hb.
  assert (isPending booking = false) as ->.
  { apply not_true_is_false. by rewrite isPending_true. }
  simpl. eauto.
Qed.

(** C9.  On a booking whose status is not "pending" the call returns
    normally and leaves bookings, vehicles and the outbox as they were; and
    after a call that assigned a booking, a second call on it is such a
    no-op. *)
Theorem not_pending_is_noop :
  (∀ rt others1 others2 env bookingId w0 booking,
     bookings w0 !! bookingId = Some booking →
     b_status booking ≠ Some "pending" →
     ∃ w', assignDriverForBookingAmid rt others1 others2 env bookingId w0
             = (Ok NotPending, w') ∧
           bookings w' = bookings w0 ∧ vehicles w' = vehicles w0 ∧
           outbox w' = outbox w0) ∧
  (∀ rt env env' bookingId w0 vehicleId w1,
     assignDriverForBooking rt env bookingId w0 = (Ok (AssignedTo vehicleId), w1) →
     ∃ w2, assignDriverForBooking rt env' bookingId w1 = (Ok NotPending, w2) ∧
           bookings w2 = bookings w1 ∧ vehicles w2 = vehicles w1 ∧
           outbox w2 = outbox w1).
Proof.
  split; [apply not_pending_skipped|].
  intros rt env env' bookingId w0 vehicleId w1 Hrun.
  unfold assignDriverForBooking, assignDriverForBookingAmid in Hrun.
  destruct (bookings w0 !! bookingId) as [booking|]; [|done].
  destruct (negb (isPending booking)); [done|].
  destruct (validatePickup booking) as [[la ln]|e]; [|done].
  destruct (scanCandidates rt la ln (idleVehicleDocs (id w0))) as [|c cs]; [done|].
  match type of Hrun with commitAssignment ?e ?i ?b ?ch ?w = _ =>
    destruct (commitAssignment_cases e i b ch w)
      as [(er & _ & Her)|(bData & vData & _ & _ & _ & _ & Her)];
    rewrite Her in Hrun end; [done|].
  injection Hrun as _ <-.
  eapply (not_pending_skipped rt id id env' bookingId).
  - rewrite bookings_notifyDriver. simpl. apply lookup_insert_eq.
  - done.
Qed.

(** The scenario of the specification: the first call assigns "b1" to "v1",
    the second call on the resulting store is skipped. *)
Lemma not_pending_is_noop_witness :
  (assignDriverForBooking approxRuntime Sample.env0 "b1" Sample.worldPending).1
    = Ok (AssignedTo "v1") ∧
  ∃ w2,
    assignDriverForBooking approxRuntime Sample.env0 "b1"
      (assignDriverForBooking approxRuntime Sample.env0 "b1" Sample.worldPending).2
      = (Ok NotPending, w2) ∧
    bookings w2 =
      bookings (assignDriverForBooking approxRuntime Sample.env0 "b1"
                  Sample.worldPending).2 ∧
    vehicles w2 =
      vehicles (assignDriverForBooking approxRuntime Sample.env0 "b1"
                  Sample.worldPending).2 ∧
    outbox w2 =
      outbox (assignDriverForBooking approxRuntime Sample.env0 "b1"
                Sample.worldPending).2.
Proof.
  assert ((assignDriverForBooking approxRuntime Sample.env0 "b1" Sample.worldPending).1
            = Ok (AssignedTo "v1")) as H1 by by vm_compute.
  split; [exact H1|].
  refine (proj2 not_pending_is_noop approxRuntime Sample.env0 Sample.env0 "b1"
            Sample.worldPending "v1" _ _).
  destruct (assignDriverForBooking approxRuntime Sample.env0 "b1" Sample.worldPending)
    as [r w]. simpl in H1. by rewrite H1.
Defined.

(** ** Sorting by an integer key *)

Section sorted_by_key.
Context {A : Type} (cmp : A → A → jsnum) (key : A → Z).

Lemma sortInsert_sorted x s :
  (∀ y, y ∈ s → sortsAfter cmp x y = bool_decide (key x < key y)) →
  StronglySorted (keyDescending key) s →
  StronglySorted (keyDescending key) (sortInsert cmp x s).
Proof.
  induction s as [|y s IH]; intros Hcmp Hs; simpl.
  - repeat constructor.
  - apply StronglySorted_inv in Hs as [Hs Hy].
    rewrite Hcmp by left. case_bool_decide as Hlt.
    + constructor.
      * apply IH; [|done]. intros z Hz. apply Hcmp. by right.
      * apply Forall_forall. intros z Hz. apply elem_of_sortInsert in Hz as [->|Hz].
        -- unfold keyDescending. lia.
        -- by apply (proj1 (Forall_forall _ _) Hy).
    + constructor; [by constructor|].
      constructor; [unfold keyDescending; lia|].
      eapply Forall_impl; [exact Hy|]. unfold keyDescending. intros z Hz. lia.
Qed.

Lemma arraySort_sorted l :
  (∀ x y, x ∈ l → y ∈ l → sortsAfter cmp x y = bool_decide (key x < key y)) →
  StronglySorted (keyDescending key) (arraySort cmp l).
Proof.
  induction l as [|x l IH]; intros Hcmp; simpl; [constructor|].
  apply sortInsert_sorted.
  - intros y Hy. apply elem_of_arraySort in Hy. apply Hcmp; [left|by right].
  - apply IH. intros y z Hy Hz. apply Hcmp; by right.
Qed.
End sorted_by_key.

(** A comparator [(a, b) => f(b) - f(a)] on integer values of [f]. *)
Lemma sortsAfter_jnum_desc {A} (f : A → jsnum) (key : A → Z) x y :
  f x = jnum (key x) → f y = jnum (key y) →
  sortsAfter (λ a b, jsub (f b) (f a)) x y = bool_decide (key x < key y).
Proof.
  intros Hx Hy. unfold sortsAfter, jgtb. rewrite Hx, Hy. unfold jnum. simpl.
  case_bool_decide as Hlt.
  - apply Qltb_lt. unfold Qlt. simpl. lia.
  - apply not_true_is_false. rewrite Qltb_lt. unfold Qlt. simpl. lia.
Qed.

(** ** Hotspots *)


Lemma bumpFirstNear_counts near hs hs' :
  bumpFirstNear near hs = Some hs' → countsPositive hs → countsPositive hs'.
Proof.
  unfold countsPositive. revert hs'.
  induction hs as [|[k h] rest IH]; intros hs'; simpl; [done|].
  destruct (near h).
  - intros [= <-] Hall. apply Forall_cons in Hall as [Hh Hrest].
    constructor; [simpl in *; lia|done].
  - destruct (bumpFirstNear near rest) as [rest'|]; [|done].
    intros [= <-] Hall. apply Forall_cons in Hall as [Hh Hrest].
    constructor; [done|]. by apply IH.
Qed.


Lemma setProperty_counts key h hs :
  1 ≤ hs_count h → countsPositive hs → countsPositive (setProperty key h hs).
Proof.
  unfold countsPositive. intros Hh.
  induction hs as [|[k h'] rest IH]; simpl; intros Hall.
  - by repeat constructor.
  - apply Forall_cons in Hall as [Hh' Hrest].
    destruct (String.eqb key k); constructor; auto.
Qed.

Lemma addPickup_counts rt hs b hs' :
  addPickup rt hs b = Ok hs' → countsPositive hs → countsPositive hs'.
Proof.
  unfold addPickup. destruct (b_pickup b) as [pickup|]; [|by intros [= <-]].
  destruct (negb (truthy (lat pickup)) || negb (truthy (lng pickup)));
    [by intros [= <-]|].
  destruct (bumpFirstNear _ hs) as [hs''|] eqn:Hb.
  - intros [= <-]. by eapply bumpFirstNear_counts.
  - destruct (hotspotKey rt pickup) as [key|e]; [|done].
    intros [= <-]. by apply setProperty_counts.
Qed.

Lemma addPickups_counts rt bs hs hs' :
  addPickups rt hs bs = Ok hs' → countsPositive hs → countsPositive hs'.
Proof.
  revert hs. induction bs as [|b bs IH]; intros hs; simpl; [by intros [= <-]|].
  destruct (addPickup rt hs b) as [hs1|e] eqn:H1; [|done].
  intros H Hc. eapply IH; [exact H|]. by eapply addPickup_counts.
Qed.

Lemma identifyHotspots_counts rt bs hotspots h :
  identifyHotspots rt bs = Ok hotspots → h ∈ hotspots → 1 ≤ hs_count h.
Proof.
  unfold identifyHotspots. destruct (addPickups rt [] bs) as [hs|e] eqn:Hadd; [|done].
  intros [= <-] Hh. apply elem_of_arraySort in Hh.
  apply list_elem_of_fmap in Hh as ([k h'] & -> & Hin).
  apply addPickups_counts in Hadd; [|constructor].
  by apply (proj1 (Forall_forall _ _) Hadd) in Hin.
Qed.

(** C4, at the input where the code departs from it.  A booking whose
    pickup is present with latitude 0 (a point on the equator) is skipped:
    the clusterer returns no hotspot where the claim has one hotspot of
    count 1 at that point. *)
Theorem identifyHotspots_skips_equator rt :
  b_pickup Sample.equatorBooking = Some (Sample.at_ 0 (1 # 100)) ∧
  identifyHotspots rt [Sample.equatorBooking] = Ok [].
Proof. split; reflexivity. Qed.


(** ** The priority score *)

Lemma Qfloor_nonneg q : (0 <= q)%Q → 0 ≤ Qfloor q.
Proof. intros H. change 0 with (Qfloor 0). by apply Qfloor_resp_le. Qed.

Lemma jmin_10 k : jmin (jnum 10) (jnum k) = jnum (Z.min 10 k).
Proof.
  unfold jmin, jnum. simpl. destruct (Qltb (inject_Z k) (inject_Z 10)) eqn:H.
  - apply Qltb_lt in H. rewrite <- Zlt_Qlt in H. f_equal. f_equal. lia.
  - apply not_true_iff_false in H. rewrite Qltb_lt, <- Zlt_Qlt in H.
    f_equal. f_equal. lia.
Qed.

Lemma priorityOf_range count distance :
  0 ≤ count →
  jgtb distance (Fin (1 # 2)) = true →
  ∃ k, priorityOf count distance = jnum k ∧ 0 ≤ k ≤ 10.
Proof.
  intros Hc Hd. unfold priorityOf.
  assert (∃ q, jdiv (jmul (jnum count) (jnum 5)) (jmax (jnum 1) distance) = Fin q
               ∧ (0 <= q)%Q) as (q & -> & Hq).
  { destruct distance as [| | |d]; try done.
    - exists 0%Q. split; [reflexivity|]. apply Qle_refl.
    - unfold jmax, jnum. simpl jltb. simpl jmul.
      assert (0 <= inject_Z count * inject_Z 5)%Q as Hnum.
      { apply Qmult_le_0_compat; [|done]. unfold Qle. simpl. lia. }
      destruct (Qltb (inject_Z 1) d) eqn:H1; simpl.
      + apply Qltb_lt in H1.
        assert (0 < d)%Q as Hpos by (eapply Qlt_trans; [|exact H1]; done).
        assert (Qeqb d 0 = false) as ->.
        { apply not_true_is_false. rewrite Qeqb_eq. intros E. rewrite E in Hpos.
          by apply Qlt_irrefl in Hpos. }
        eexists. split; [reflexivity|].
        apply Qle_shift_div_l; [done|]. by rewrite Qmult_0_l.
      + eexists. split; [reflexivity|].
        apply Qle_shift_div_l; [done|]. by rewrite Qmult_0_l. }
  unfold jround. rewrite jmin_10.
  assert (0 ≤ Qfloor (q + (1 # 2))) as Hfloor.
  { apply Qfloor_nonneg. apply (Qle_trans _ (q + 0)).
    - by rewrite Qplus_0_r.
    - apply Qplus_le_r. done. }
  revert Hfloor. generalize (Qfloor (q + (1 # 2))). intros k Hk.
  exists (Z.min 10 k). split; [reflexivity|lia].
Qed.

(** ** The planner *)

Lemma carriesNobody_true v :
  carriesNobody v = true ↔
  v_currentPassengers v = None ∨ v_currentPassengers v = Some [].
Proof.
  unfold carriesNobody. destruct (v_currentPassengers v) as [l|].
  - rewrite bool_decide_eq_true. split.
    + intros Hl. right. destruct l; [done|discriminate].
    + intros [H|H]; [discriminate|]. by injection H as ->.
  - split; auto.
Qed.

Lemma elem_of_getIdleVehicles w d :
  d ∈ getIdleVehicles w ↔
  vehicles w !! d.1 = Some d.2 ∧ v_status d.2 = Some "idle" ∧ carriesNobody d.2 = true.
Proof.
  unfold getIdleVehicles. rewrite list_elem_of_filter, elem_of_idleVehicleDocs. tauto.
Qed.

Lemma suggestFor_Some rt idle vehicleId loc hotspots s :
  suggestFor rt idle vehicleId loc hotspots = Some s →
  ∃ h, h ∈ hotspots ∧
       anotherVehicleNearby rt idle vehicleId h = false ∧
       jgtb (distanceBetween rt loc (hs_location h)) (Fin (1 # 2)) = true ∧
       sg_vehicleId s = vehicleId ∧
       sg_currentLocation s = loc ∧
       sg_targetLocation s = hs_location h ∧
       sg_distance s = distanceBetween rt loc (hs_location h) ∧
       sg_priority s = priorityOf (hs_count h) (sg_distance s).
Proof.
  induction hotspots as [|h rest IH]; [done|].
  change (suggestFor rt idle vehicleId loc (h :: rest)) with
    (if anotherVehicleNearby rt idle vehicleId h
     then suggestFor rt idle vehicleId loc rest
     else
       if jgtb (distanceBetween rt loc (hs_location h)) (Fin (1 # 2)) then
         Some {| sg_vehicleId := vehicleId;
                 sg_currentLocation := loc;
                 sg_targetLocation := hs_location h;
                 sg_priority :=
                   priorityOf (hs_count h) (distanceBetween rt loc (hs_location h));
                 sg_distance := distanceBetween rt loc (hs_location h);
                 sg_reason :=
                   "High demand area with " +:+ pretty (hs_count h)
                     +:+ " recent bookings" |}
       else suggestFor rt idle vehicleId loc rest).
  destruct (anotherVehicleNearby rt idle vehicleId h) eqn:Hnear.
  - intros H. destruct (IH H) as (h' & Hin & Hrest). exists h'. split; [by right|done].
  - destruct (jgtb (distanceBetween rt loc (hs_location h)) (Fin (1 # 2))) eqn:Hd.
    + clear IH. intros Hs. apply (inj Some) in Hs. subst s.
      exists h. simpl. split; [by left|]. auto 10.
    + intros H. destruct (IH H) as (h' & Hin & Hrest). exists h'. split; [by right|done].
Qed.

Lemma suggestionOf_Some rt idle hotspots d s :
  suggestionOf rt idle hotspots d = Some s →
  ∃ loc, v_location d.2 = Some loc ∧ suggestFor rt idle d.1 loc hotspots = Some s.
Proof.
  unfold suggestionOf. destruct (v_location d.2) as [loc|]; [|done].
  destruct (negb (truthy (lat loc)) || negb (truthy (lng loc))); [done|]. eauto.
Qed.

Lemma suggestionOf_vehicleId rt idle hotspots d s :
  suggestionOf rt idle hotspots d = Some s → sg_vehicleId s = d.1.
Proof.
  intros (loc & _ & Hfor)%suggestionOf_Some.
  by apply suggestFor_Some in Hfor as (h & _ & _ & _ & Hid & _).
Qed.

Lemma suggestion_priority_integer rt bs hotspots idle d s :
  identifyHotspots rt bs = Ok hotspots →
  suggestionOf rt idle hotspots d = Some s →
  ∃ k, sg_priority s = jnum k ∧ 0 ≤ k ≤ 10.
Proof.
  intros Hhot (loc & _ & Hfor)%suggestionOf_Some.
  apply suggestFor_Some in Hfor as (h & Hh & _ & Hfar & _ & _ & _ & Hdist & ->).
  apply priorityOf_range.
  - pose proof (identifyHotspots_counts _ _ _ _ Hhot Hh). lia.
  - by rewrite Hdist.
Qed.

Lemma priorityZ_jnum s k :
  sg_priority s = jnum k → sg_priority s = jnum (priorityZ s).
Proof. intros H. unfold priorityZ. rewrite H. unfold jnum. by rewrite Qfloor_Z. Qed.

(** What a run of the planner that returned the suggestion [s] went
    through. *)
Lemma generate_inv rt env w suggestions w1 s :
  generateRebalanceSuggestions rt env w = (Ok suggestions, w1) →
  s ∈ suggestions →
  ∃ hotspots d,
    identifyHotspots rt ((getRecentBookings env 1 w).*2) = Ok hotspots ∧
    d ∈ getIdleVehicles w ∧
    suggestionOf rt (getIdleVehicles w) hotspots d = Some s.
Proof.
  unfold generateRebalanceSuggestions.
  destruct (bool_decide _ || bool_decide _).
  { intros [= <- _] Hs. by apply elem_of_nil in Hs. }
  destruct (identifyHotspots rt _) as [hotspots|e]; [|done].
  intros [= <- <-] Hs. apply elem_of_arraySort in Hs.
  apply list_elem_of_omap in Hs as (d & Hd & Hsome).
  exists hotspots, d. auto.
Qed.

Lemma fleet_generate :
  generateRebalanceSuggestions approxRuntime Sample.env0 Sample.fleet
    = (Ok Sample.fleetSuggestions, Sample.fleet).
Proof. by vm_compute. Qed.

Lemma fleet_first :
  sg_vehicleId <$> head Sample.fleetSuggestions = Some "v2".
Proof. reflexivity. Qed.



(** C10.  A vehicle that receives a suggestion is idle and carries nobody:
    its passenger list is absent or empty.  The planner's set of idle
    vehicles has only such vehicles, which is a stronger condition than the
    fewer-than-seven test of the assigner, and strictly so. *)
Theorem occupied_vehicle_not_rebalanced :
  (∀ rt env w suggestions w1 s,
     generateRebalanceSuggestions rt env w = (Ok suggestions, w1) →
     s ∈ suggestions →
     ∃ v, vehicles w !! sg_vehicleId s = Some v ∧
          v_status v = Some "idle" ∧
          (v_currentPassengers v = None ∨ v_currentPassengers v = Some [])) ∧
  (∀ w d, d ∈ getIdleVehicles w →
          v_currentPassengers d.2 = None ∨ v_currentPassengers d.2 = Some []) ∧
  (∀ v, carriesNobody v = true → isFull (passengersOf v) = false) ∧
  (∃ v, isFull (passengersOf v) = false ∧ carriesNobody v = false).
Proof.
  split; [|split; [|split]].
  - intros rt env w suggestions w1 s Hgen Hs.
    destruct (generate_inv _ _ _ _ _ _ Hgen Hs) as (hotspots & d & _ & Hd & Hsome).
    apply elem_of_getIdleVehicles in Hd as (Hv & Hidle & Hnone).
    rewrite (suggestionOf_vehicleId _ _ _ _ _ Hsome).
    exists d.2. by rewrite <- carriesNobody_true.
  - intros w d Hd. apply elem_of_getIdleVehicles in Hd as (_ & _ & Hnone).
    by apply carriesNobody_true.
  - intros v [Hv|Hv]%carriesNobody_true; unfold passengersOf; by rewrite Hv.
  - exists (Sample.vehicle (Sample.at_ 0 0) ["b1"]). split; reflexivity.
Qed.

(** In the sample fleet "v6", the nearest vehicle to the hotspot, carries a
    passenger; no suggestion is for it. *)
Lemma occupied_vehicle_not_rebalanced_witness :
  (v_currentPassengers <$> vehicles Sample.fleet !! "v6" = Some (Some ["b9"])) ∧
  ∀ s, s ∈ Sample.fleetSuggestions → sg_vehicleId s ≠ "v6".
Proof.
  split; [reflexivity|]. intros s Hs Hid.
  destruct (proj1 occupied_vehicle_not_rebalanced approxRuntime Sample.env0
              Sample.fleet Sample.fleetSuggestions Sample.fleet s fleet_generate Hs)
    as (v & Hv & _ & Hnone).
  rewrite Hid in Hv. apply (inj Some) in Hv. subst v.
  destruct Hnone as [H|H]; discriminate H.
Defined.

(** ** Applying suggestions *)

Lemma NoDup_fst_filter {A} (P : string * A → Prop) `{!∀ x, Decision (P x)} l :
  NoDup l.*1 → NoDup (filter P l).*1.
Proof.
  induction l as [|x l IH]; simpl; [done|].
  rewrite NoDup_cons. intros [Hx Hl]. rewrite filter_cons.
  destruct (decide (P x)); [|auto].
  simpl. apply NoDup_cons. split; [|auto].
  intros Hin. apply Hx. apply list_elem_of_fmap in Hin as (y & -> & Hy).
  apply list_elem_of_fmap. exists y. split; [done|].
  by apply list_elem_of_filter in Hy as [_ ?].
Qed.

Lemma NoDup_getIdleVehicles w : NoDup (getIdleVehicles w).*1.
Proof.
  unfold getIdleVehicles, idleVehicleDocs, docsById.
  do 2 apply NoDup_fst_filter.
  rewrite merge_sort_Permutation. apply NoDup_fst_map_to_list.
Qed.

Lemma NoDup_omap_key {A B} (f : string * A → option B) (key : B → string) l :
  (∀ d b, f d = Some b → key b = d.1) →
  NoDup l.*1 → NoDup (key <$> omap f l).
Proof.
  intros Hkey. induction l as [|x l IH]; simpl; [constructor|].
  rewrite NoDup_cons. intros [Hx Hl].
  destruct (f x) as [b|] eqn:Hb; simpl; [|auto].
  apply NoDup_cons. split; [|auto].
  rewrite (Hkey _ _ Hb). intros Hin. apply Hx.
  apply list_elem_of_fmap in Hin as (b' & Hk & Hb').
  apply list_elem_of_omap in Hb' as (d & Hd & Hfd).
  apply list_elem_of_fmap. exists d. split; [|done].
  rewrite Hk. by apply Hkey.
Qed.

(** Applying suggestions for distinct, existing vehicles goes through and
    writes the target fields of exactly those vehicles. *)
Lemma applyAll_spec env top w :
  NoDup (sg_vehicleId <$> top) →
  (∀ s, s ∈ top → is_Some (vehicles w !! sg_vehicleId s)) →
  ∃ w',
    applyAll env top w = (Ok tt, w') ∧
    bookings w' = bookings w ∧ outbox w' = outbox w ∧
    console w' = console w ++ (LogAppliedOne ∘ sg_vehicleId <$> top) ∧
    (∀ s v, s ∈ top → vehicles w !! sg_vehicleId s = Some v →
            vehicles w' !! sg_vehicleId s = Some (patchVehicle (target env s) v)) ∧
    (∀ id, id ∉ sg_vehicleId <$> top → vehicles w' !! id = vehicles w !! id).
Proof.
  revert w. induction top as [|s rest IH]; intros w Hnd Hex.
  { exists w. simpl. rewrite app_nil_r. repeat split; auto.
    intros s v Hs. by apply elem_of_nil in Hs. }
  rewrite fmap_cons, NoDup_cons in Hnd. destruct Hnd as [Hs Hnd].
  destruct (Hex s) as [v Hv]; [left|].
  simpl. unfold applyRebalanceSuggestion, applyWrite. rewrite Hv.
  set (w1 := log _ _).
  destruct (IH w1 Hnd) as (w' & Hrun & Hb & Ho & Hc & Happlied & Hother).
  { intros s' Hs'. unfold w1. simpl. rewrite lookup_insert_ne.
    - apply Hex. by right.
    - intros E. apply Hs. rewrite E. by apply list_elem_of_fmap_2. }
  exists w'. rewrite Hrun. repeat split; auto.
  - rewrite Hc. unfold w1. simpl. by rewrite <- app_assoc.
  - intros s' v' Hin Hv'. apply elem_of_cons in Hin as [->|Hin].
    + rewrite Hother by done. unfold w1. simpl. rewrite lookup_insert_eq.
      by simplify_eq.
    + apply Happlied; [done|]. unfold w1. simpl. rewrite lookup_insert_ne; [done|].
      intros E. apply Hs. rewrite E. by apply list_elem_of_fmap_2.
  - intros id Hid. simpl in Hid. apply not_elem_of_cons in Hid as [Hne Hid].
    rewrite Hother by done. unfold w1. simpl. by rewrite lookup_insert_ne.
Qed.

(** The planner's result: sorted by priority, highest first; priorities are
    integers; one suggestion per vehicle, for vehicles of the store; the
    store is as it was. *)
Lemma generate_shape rt env w suggestions w1 :
  generateRebalanceSuggestions rt env w = (Ok suggestions, w1) →
  StronglySorted (keyDescending priorityZ) suggestions ∧
  (∀ s, s ∈ suggestions → sg_priority s = jnum (priorityZ s)) ∧
  NoDup (sg_vehicleId <$> suggestions) ∧
  (∀ s, s ∈ suggestions → is_Some (vehicles w !! sg_vehicleId s)) ∧
  bookings w1 = bookings w ∧ vehicles w1 = vehicles w ∧ outbox w1 = outbox w.
Proof.
  unfold generateRebalanceSuggestions.
  destruct (bool_decide _ || bool_decide _).
  { intros [= <- <-]. simpl. repeat split; try constructor.
    - intros s Hs. by apply elem_of_nil in Hs.
    - intros s Hs. by apply elem_of_nil in Hs. }
  destruct (identifyHotspots rt _) as [hotspots|e] eqn:Hhot; [|done].
  intros [= <- <-].
  set (raw := omap _ _).
  assert (∀ s, s ∈ raw → ∃ d, d ∈ getIdleVehicles w ∧
            suggestionOf rt (getIdleVehicles w) hotspots d = Some s) as Hraw.
  { intros s Hs. by apply list_elem_of_omap in Hs. }
  assert (∀ s, s ∈ raw → sg_priority s = jnum (priorityZ s)) as Hprio.
  { intros s (d & _ & Hs)%Hraw.
    destruct (suggestion_priority_integer _ _ _ _ _ _ Hhot Hs) as (k & Hk & _).
    by eapply priorityZ_jnum. }
  repeat split; try done.
  - apply arraySort_sorted. intros x y Hx Hy.
    apply (sortsAfter_jnum_desc sg_priority priorityZ); auto.
  - intros s Hs. apply Hprio. by apply elem_of_arraySort in Hs.
  - rewrite arraySort_Permutation. unfold raw.
    apply NoDup_omap_key; [|apply NoDup_getIdleVehicles].
    intros d s. apply suggestionOf_vehicleId.
  - intros s Hs. apply elem_of_arraySort in Hs. apply Hraw in Hs as (d & Hd & Hs).
    apply elem_of_getIdleVehicles in Hd as (Hv & _).
    rewrite (suggestionOf_vehicleId _ _ _ _ _ Hs). eauto.
Qed.




(** ** More on the assigner *)

Lemma candidateOf_fields rt la ln d c :
  candidateOf rt la ln d = Some c →
  cand_id c = d.1 ∧ cand_driverId c = v_driverId d.2 ∧
  cand_fcmToken c = orNull (v_fcmToken d.2) ∧
  ∃ loc, v_location d.2 = Some loc ∧
         isNullish (lat loc) = false ∧ isNullish (lng loc) = false ∧
         cand_dist c = haversineDistanceKm rt (lat loc) (lng loc) (VNum la) (VNum ln).
Proof.
  unfold candidateOf. destruct (isFull (passengersOf d.2)); [done|].
  destruct (v_location d.2) as [loc|]; [|done].
  destruct (isNullish (lat loc) || isNullish (lng loc)) eqn:Hn; [done|].
  apply orb_false_iff in Hn as [? ?].
  intros [= <-]. simpl. eauto 10.
Qed.

(** The vehicle behind the chosen candidate. *)
Lemma chosen_vehicle rt la ln w c cs :
  scanCandidates rt la ln (idleVehicleDocs w) = c :: cs →
  ∃ v loc,
    vehicles w !! cand_id (chooseCandidate c cs) = Some v ∧
    v_status v = Some "idle" ∧
    (length (passengersOf v) < 7)%nat ∧
    v_location v = Some loc ∧
    isNullish (lat loc) = false ∧ isNullish (lng loc) = false ∧
    cand_driverId (chooseCandidate c cs) = v_driverId v ∧
    cand_fcmToken (chooseCandidate c cs) = orNull (v_fcmToken v).
Proof.
  intros Hscan.
  pose proof (chooseCandidate_elem_of c cs) as Hin. rewrite <- Hscan in Hin.
  unfold scanCandidates in Hin. apply list_elem_of_omap in Hin as (d & Hd & Hc).
  apply elem_of_idleVehicleDocs in Hd as [Hd Hs].
  pose proof (candidateOf_Some _ _ _ _ _ Hc) as (_ & Hlen & _).
  apply candidateOf_fields in Hc as (Hid & Hdr & Htok & loc & Hloc & Hla & Hln & _).
  exists d.2, loc. rewrite Hid. auto 10.
Qed.

(** X1.  A call that assigns the booking found it pending and chose a
    vehicle that was idle, with a location and fewer than seven passengers.
    It leaves the booking assigned to that vehicle, with the driver of the
    vehicle, the verification code and the time of the call, and the vehicle
    with the booking appended to its passengers; no other document
    changes. *)
Theorem assign_success_effect rt env bookingId w vehicleId w' :
  assignDriverForBooking rt env bookingId w = (Ok (AssignedTo vehicleId), w') →
  ∃ booking v,
    bookings w !! bookingId = Some booking ∧
    b_status booking = Some "pending" ∧
    vehicles w !! vehicleId = Some v ∧
    v_status v = Some "idle" ∧
    (length (passengersOf v) < 7)%nat ∧
    is_Some (v_location v) ∧
    bookings w' =
      <[bookingId :=
          patchBooking
            {| set_assignedVehicleId := vehicleId;
               set_assignedDriverId := orNull (v_driverId v);
               set_verificationCode := verificationCodeFor env (b_number booking);
               set_assignedAt := now env |} booking]> (bookings w) ∧
    vehicles w' =
      <[vehicleId := patchVehicle (SetPassengers (passengersOf v ++ [bookingId])) v]>
        (vehicles w).
Proof.
  unfold assignDriverForBooking, assignDriverForBookingAmid. intros Hrun.
  destruct (bookings w !! bookingId) as [booking|] eqn:Hb; [|done].
  destruct (negb (isPending booking)); [done|].
  destruct (validatePickup booking) as [[la ln]|e]; [|done].
  destruct (scanCandidates rt la ln (idleVehicleDocs (id w))) as [|c cs] eqn:Hscan; [done|].
  destruct (chosen_vehicle _ _ _ _ _ _ Hscan)
    as (v & loc & Hv & Hidle & Hlen & Hloc & _ & _ & Hdr & _).
  match type of Hrun with commitAssignment ?e ?i ?b ?ch ?w = _ =>
    destruct (commitAssignment_cases e i b ch w)
      as [(er & _ & Her)|(bData & vData & Hb' & Hp & Hv' & _ & Her)];
    rewrite Her in Hrun end; [done|].
  injection Hrun as <- <-. simpl in Hb', Hv'.
  unfold id in *. rewrite Hb in Hb'. rewrite Hv in Hv'. simplify_eq.
  exists bData, vData. rewrite bookings_notifyDriver, vehicles_notifyDriver. simpl.
  rewrite Hdr. repeat split; eauto.
Qed.

Lemma pending_assigned_to_v1 :
  assignDriverForBooking approxRuntime Sample.env0 "b1" Sample.worldPending
  = (Ok (AssignedTo "v1"),
     (assignDriverForBooking approxRuntime Sample.env0 "b1" Sample.worldPending).2).
Proof.
  assert ((assignDriverForBooking approxRuntime Sample.env0 "b1" Sample.worldPending).1
            = Ok (AssignedTo "v1")) as H1 by by vm_compute.
  destruct (assignDriverForBooking approxRuntime Sample.env0 "b1" Sample.worldPending)
    as [r w]. simpl in *. by rewrite H1.
Qed.

Lemma assign_success_effect_witness :
  ∃ booking v,
    bookings Sample.worldPending !! "b1" = Some booking ∧
    b_status booking = Some "pending" ∧
    vehicles Sample.worldPending !! "v1" = Some v ∧
    v_status v = Some "idle" ∧
    (length (passengersOf v) < 7)%nat ∧
    is_Some (v_location v) ∧
    bookings (assignDriverForBooking approxRuntime Sample.env0 "b1" Sample.worldPending).2 =
      <["b1" :=
          patchBooking
            {| set_assignedVehicleId := "v1";
               set_assignedDriverId := orNull (v_driverId v);
               set_verificationCode := verificationCodeFor Sample.env0 (b_number booking);
               set_assignedAt := now Sample.env0 |} booking]>
        (bookings Sample.worldPending) ∧
    vehicles (assignDriverForBooking approxRuntime Sample.env0 "b1" Sample.worldPending).2 =
      <["v1" := patchVehicle (SetPassengers (passengersOf v ++ ["b1"])) v]>
        (vehicles Sample.worldPending).
Proof.
  exact (assign_success_effect approxRuntime Sample.env0 "b1" Sample.worldPending "v1" _
           pending_assigned_to_v1).
Defined.

Lemma candidateOf_is_Some rt la ln d :
  is_Some (candidateOf rt la ln d) ↔
  (length (passengersOf d.2) < 7)%nat ∧
  ∃ loc, v_location d.2 = Some loc ∧
         isNullish (lat loc) = false ∧ isNullish (lng loc) = false.
Proof.
  unfold candidateOf. destruct (isFull (passengersOf d.2)) eqn:Hf.
  - apply isFull_true in Hf. split; [by intros [? ?]|]. intros [? _]. lia.
  - apply isFull_false in Hf. destruct (v_location d.2) as [loc|].
    + destruct (isNullish (lat loc) || isNullish (lng loc)) eqn:Hn.
      * split; [by intros [? ?]|]. intros (_ & loc' & [= <-] & H1 & H2).
        rewrite H1, H2 in Hn. discriminate.
      * apply orb_false_iff in Hn as [? ?]. split; [|eauto]. intros _. eauto 10.
    + split; [by intros [? ?]|]. by intros (_ & loc' & ? & _).
Qed.

Lemma scanCandidates_nil rt la ln w :
  scanCandidates rt la ln (idleVehicleDocs w) = [] ↔
  ∀ vid v, vehicles w !! vid = Some v → ¬ eligible v.
Proof.
  unfold scanCandidates. split.
  - intros Hnil vid v Hv (Hidle & Hlen & Hloc).
    assert ((vid, v) ∈ idleVehicleDocs w) as Hd by (by apply elem_of_idleVehicleDocs).
    destruct (proj2 (candidateOf_is_Some rt la ln (vid, v))) as [c Hc]; [done|].
    assert (c ∈ omap (candidateOf rt la ln) (idleVehicleDocs w)) as Hin.
    { apply list_elem_of_omap. eauto. }
    rewrite Hnil in Hin. by apply elem_of_nil in Hin.
  - intros Hnone. destruct (omap _ _) as [|c cs] eqn:Ho; [done|]. exfalso.
    assert (c ∈ omap (candidateOf rt la ln) (idleVehicleDocs w)) as Hin
      by (rewrite Ho; left).
    apply list_elem_of_omap in Hin as (d & Hd & Hc).
    apply elem_of_idleVehicleDocs in Hd as [Hd Hs].
    apply (Hnone _ _ Hd). split; [done|].
    apply (proj1 (candidateOf_is_Some rt la ln d)). eauto.
Qed.

(** X2.  For a pending booking with a valid pickup, a call that nothing
    interrupts assigns the booking exactly when some vehicle is eligible:
    with no eligible vehicle it returns without a candidate and only logs;
    with one it assigns the booking to an eligible vehicle. *)
Theorem assign_iff_eligible_vehicle rt env bookingId w booking la ln :
  bookings w !! bookingId = Some booking →
  b_status booking = Some "pending" →
  validatePickup booking = Ok (la, ln) →
  ((∀ vid v, vehicles w !! vid = Some v → ¬ eligible v) →
     assignDriverForBooking rt env bookingId w
       = (Ok NoCandidate, log (LogNoVehicles bookingId) w)) ∧
  ((∃ vid v, vehicles w !! vid = Some v ∧ eligible v) →
     ∃ vid v, (assignDriverForBooking rt env bookingId w).1 = Ok (AssignedTo vid) ∧
              vehicles w !! vid = Some v ∧ eligible v).
Proof.
  intros Hb Hs Hval.
  assert (isPending booking = true) as Hpend by by apply isPending_true.
  unfold assignDriverForBooking, assignDriverForBookingAmid.
  rewrite Hb, Hpend, Hval. simpl. unfold id. split.
  - intros Hnone. by rewrite (proj2 (scanCandidates_nil rt la ln w) Hnone).
  - intros (vid & v & Hv & Hel).
    destruct (scanCandidates rt la ln (idleVehicleDocs w)) as [|c cs] eqn:Hscan.
    { exfalso. by apply (proj1 (scanCandidates_nil rt la ln w) Hscan vid v). }
    destruct (chosen_vehicle _ _ _ _ _ _ Hscan)
      as (v' & loc & Hv' & Hidle & Hlen & Hloc & Hla & Hln & _).
    exists (cand_id (chooseCandidate c cs)), v'.
    split; [|split; [done|]]; [|split; [done|split; [done|eauto]]].
    match goal with |- context [commitAssignment ?e ?i ?b ?ch ?w] =>
      destruct (commitAssignment_cases e i b ch w)
        as [(er & _ & Her)|(bData & vData & _ & _ & _ & _ & Her)];
      rewrite Her end; [|done].
    exfalso. revert Her. unfold commitAssignment. rewrite runTransaction_assign. simpl.
    rewrite Hb, Hpend, Hv'. simpl.
    by rewrite (proj2 (isFull_false _) Hlen).
Qed.

Lemma eligible_sample : eligible (Sample.vehicle (Sample.at_ 0 0) []).
Proof. split; [done|]. split; [simpl; lia|]. eexists. done. Qed.

Lemma assign_iff_eligible_vehicle_witness :
  ∃ vid v,
    (assignDriverForBooking approxRuntime Sample.env0 "b1" Sample.worldPending).1
      = Ok (AssignedTo vid) ∧
    vehicles Sample.worldPending !! vid = Some v ∧ eligible v.
Proof.
  refine (proj2 (assign_iff_eligible_vehicle approxRuntime Sample.env0 "b1"
                   Sample.worldPending
                   (Sample.booking "pending" (Some (Sample.at_ 0 (1 # 100))) 3000000)
                   (Fin 0) (Fin (1 # 100)) _ _ _) _); try reflexivity.
  exists "v1", (Sample.vehicle (Sample.at_ 0 0) []). split; [reflexivity|].
  exact eligible_sample.
Defined.



Lemma outbox_notifyDriver env id b c w :
  outbox (notifyDriver env id b c w) =
  outbox w ++
    match cand_fcmToken c with
    | Some token => if fcmDelivers env then [messageFor id b token] else []
    | None => []
    end.
Proof.
  unfold notifyDriver. destruct (cand_fcmToken c), (fcmDelivers env); simpl;
    by rewrite ?app_nil_r.
Qed.

(** X4.  What a call sends.  Nothing, unless it assigns the booking, the
    chosen vehicle has a non-empty token and the messaging service accepts
    the message; then one message, to that token, with the booking id and
    the last four characters of the number read before the transaction (the
    empty string when the booking has no number, even though the booking
    then stores a random code). *)
Theorem assign_notifies_chosen_driver rt env bookingId w r w' :
  assignDriverForBooking rt env bookingId w = (r, w') →
  outbox w' =
    outbox w ++
      match r, bookings w !! bookingId with
      | Ok (AssignedTo vid), Some booking =>
          match vehicles w !! vid ≫= (λ v, orNull (v_fcmToken v)) with
          | Some token => if fcmDelivers env then [messageFor bookingId booking token] else []
          | None => []
          end
      | _, _ => []
      end.
Proof.
  unfold assignDriverForBooking, assignDriverForBookingAmid. intros Hrun.
  destruct (bookings w !! bookingId) as [booking|] eqn:Hb.
  2: { injection Hrun as <- <-. by rewrite app_nil_r. }
  destruct (negb (isPending booking)).
  { injection Hrun as <- <-. simpl. by rewrite app_nil_r. }
  destruct (validatePickup booking) as [[la ln]|e].
  2: { injection Hrun as <- <-. by rewrite app_nil_r. }
  destruct (scanCandidates rt la ln (idleVehicleDocs (id w))) as [|c cs] eqn:Hscan.
  { injection Hrun as <- <-. simpl. by rewrite app_nil_r. }
  destruct (chosen_vehicle _ _ _ _ _ _ Hscan)
    as (v & loc & Hv & _ & _ & _ & _ & _ & _ & Htok).
  match type of Hrun with commitAssignment ?e ?i ?b ?ch ?w = _ =>
    destruct (commitAssignment_cases e i b ch w)
      as [(er & _ & Her)|(bData & vData & _ & _ & _ & _ & Her)];
    rewrite Her in Hrun end.
  - injection Hrun as <- <-. simpl. by rewrite app_nil_r.
  - injection Hrun as <- <-. rewrite outbox_notifyDriver. simpl.
    unfold id in Hv. rewrite Hv. simpl. by rewrite Htok.
Qed.

Lemma assign_notifies_chosen_driver_witness :
  outbox (assignDriverForBooking approxRuntime Sample.env0 "b1" Sample.worldPending).2 =
    [messageFor "b1" (Sample.booking "pending" (Some (Sample.at_ 0 (1 # 100))) 3000000)
       "token-1"].
Proof.
  exact (assign_notifies_chosen_driver approxRuntime Sample.env0 "b1" Sample.worldPending
           _ _ pending_assigned_to_v1).
Defined.

(** X5.  Whether the messaging service accepts the message changes
    neither the result of the call nor the bookings and vehicles it
    leaves. *)
Theorem delivery_failure_is_harmless rt others1 others2 env env' bookingId w :
  now env' = now env → random env' = random env →
  (assignDriverForBookingAmid rt others1 others2 env' bookingId w).1
    = (assignDriverForBookingAmid rt others1 others2 env bookingId w).1 ∧
  bookings (assignDriverForBookingAmid rt others1 others2 env' bookingId w).2
    = bookings (assignDriverForBookingAmid rt others1 others2 env bookingId w).2 ∧
  vehicles (assignDriverForBookingAmid rt others1 others2 env' bookingId w).2
    = vehicles (assignDriverForBookingAmid rt others1 others2 env bookingId w).2.
Proof.
  intros Hnow Hrand. unfold assignDriverForBookingAmid.
  destruct (bookings w !! bookingId) as [booking|]; [|done].
  destruct (negb (isPending booking)); [done|].
  destruct (validatePickup booking) as [[la ln]|e]; [|done].
  destruct (scanCandidates rt la ln (idleVehicleDocs (others1 w))) as [|c cs]; [done|].
  set (w2 := others2 _). set (chosen := chooseCandidate c cs).
  destruct (commitAssignment_cases env bookingId booking chosen w2)
    as [(e & _ & He)|(bData & vData & Hb & Hp & Hv & Hlen & He)];
    destruct (commitAssignment_cases env' bookingId booking chosen w2)
      as [(e' & _ & He')|(bData' & vData' & Hb' & Hp' & Hv' & Hlen' & He')];
    rewrite He, He'; simpl.
  - revert He He'. unfold commitAssignment. rewrite !runTransaction_assign.
    destruct (bookings w2 !! bookingId) as [bd|]; [|by intros [= <-] [= <-]].
    destruct (negb (isPending bd)); [by intros [= <-] [= <-]|].
    destruct (vehicles w2 !! cand_id chosen) as [vd|]; [|by intros [= <-] [= <-]].
    destruct (isFull (passengersOf vd)); [by intros [= <-] [= <-]|done].
  - exfalso. revert He. unfold commitAssignment. rewrite runTransaction_assign.
    rewrite Hb', (proj2 (isPending_true _) Hp'), Hv', (proj2 (isFull_false _) Hlen').
    done.
  - exfalso. revert He'. unfold commitAssignment. rewrite runTransaction_assign.
    rewrite Hb, (proj2 (isPending_true _) Hp), Hv, (proj2 (isFull_false _) Hlen).
    done.
  - rewrite Hb in Hb'. rewrite Hv in Hv'. simplify_eq.
    rewrite !bookings_notifyDriver, !vehicles_notifyDriver. simpl.
    unfold verificationCodeFor, randomCode. by rewrite Hnow, Hrand.
Qed.

Lemma delivery_failure_is_harmless_witness :
  (assignDriverForBookingAmid approxRuntime id id
     {| now := 3600000; random := 1 # 2; fcmDelivers := false |} "b1"
     Sample.worldPending).1
    = (assignDriverForBookingAmid approxRuntime id id Sample.env0 "b1"
         Sample.worldPending).1.
Proof.
  refine (proj1 (delivery_failure_is_harmless approxRuntime id id Sample.env0
                   {| now := 3600000; random := 1 # 2; fcmDelivers := false |} "b1"
                   Sample.worldPending _ _)); reflexivity.
Defined.

(** *** The verification code *)

Lemma substring_all s : String.substring 0 (String.length s) s = s.
Proof. induction s as [|a s IH]; simpl; [done|]. by rewrite IH. Qed.

Lemma substring_suffix k s :
  (k ≤ String.length s)%nat →
  ∃ p, s = p +:+ String.substring k (String.length s - k) s ∧
       String.length (String.substring k (String.length s - k) s)
         = (String.length s - k)%nat.
Proof.
  revert s. induction k as [|k IH]; intros s Hk.
  - exists "". rewrite Nat.sub_0_r, substring_all. done.
  - destruct s as [|a s]; simpl in Hk; [lia|].
    destruct (IH s) as (p & Hp & Hlen); [lia|].
    exists (String a p). simpl. split; [|done].
    change (String a p +:+ ?x) with (String a (p +:+ x)). by rewrite <- Hp.
Qed.

Lemma sliceLast4_suffix s :
  ∃ p, s = p +:+ sliceLast4 s ∧
       String.length (sliceLast4 s) = (String.length s `min` 4)%nat.
Proof.
  unfold sliceLast4. destruct (String.length s <=? 4)%nat eqn:Hle.
  - apply Nat.leb_le in Hle. exists "". split; [done|]. lia.
  - apply Nat.leb_gt in Hle.
    destruct (substring_suffix (String.length s - 4) s) as (p & Hp & Hlen); [lia|].
    replace (String.length s - (String.length s - 4))%nat with 4%nat in * by lia.
    exists p. split; [done|]. lia.
Qed.

Lemma sliceLast4_empty s : sliceLast4 s = "" ↔ s = "".
Proof.
  split; [|by intros ->].
  intros H. destruct (sliceLast4_suffix s) as (p & _ & Hlen).
  rewrite H in Hlen. simpl in Hlen. destruct s; [done|]. simpl in Hlen. lia.
Qed.

(** X6.  The verification code.  For a booking with a non-empty number it
    is the last four characters of the number (all of it when shorter);
    without a number it is a random integer from 1000 to 9999 in decimal. *)
Theorem verification_code_spec env number :
  (∀ phone, number = Some phone → phone ≠ "" →
     verificationCodeFor env number = sliceLast4 phone ∧
     ∃ p, phone = p +:+ verificationCodeFor env number ∧
          String.length (verificationCodeFor env number)
            = (String.length phone `min` 4)%nat) ∧
  ((number = None ∨ number = Some "") →
   (0 <= random env)%Q → (random env < 1)%Q →
     ∃ n, 1000 ≤ n ≤ 9999 ∧ verificationCodeFor env number = pretty n).
Proof.
  split.
  - intros phone -> Hne. unfold verificationCodeFor. simpl.
    destruct (String.eqb (sliceLast4 phone) "") eqn:He.
    { apply String.eqb_eq in He. apply (proj1 (sliceLast4_empty phone)) in He. congruence. }
    split; [done|]. apply sliceLast4_suffix.
  - intros Hnum H0 H1.
    assert (verificationCodeFor env number = randomCode env) as ->.
    { by destruct Hnum as [-> | ->]. }
    unfold randomCode. eexists. split; [|reflexivity].
    split.
    + change 1000 with (Qfloor 1000). apply Qfloor_resp_le.
      rewrite <- (Qplus_0_r 1000) at 1. apply Qplus_le_r.
      apply Qmult_le_0_compat; [done|]. done.
    + assert (Qfloor (1000 + random env * 9000) < 10000); [|lia].
      rewrite Zlt_Qlt. eapply Qle_lt_trans; [apply Qfloor_le|].
      change (inject_Z 10000) with (1000 + 1 * 9000)%Q.
      apply Qplus_lt_r. apply Qmult_lt_compat_r; done.
Qed.

Lemma verification_code_spec_witness :
  verificationCodeFor Sample.env0 (Some "9876543210") = sliceLast4 "9876543210" ∧
  ∃ n, 1000 ≤ n ≤ 9999 ∧ verificationCodeFor Sample.env0 None = pretty n.
Proof.
  split.
  - refine (proj1 (proj1 (verification_code_spec Sample.env0 (Some "9876543210"))
                     "9876543210" _ _)); [reflexivity|discriminate].
  - refine (proj2 (verification_code_spec Sample.env0 None) _ _ _);
      [by left|by vm_compute|by vm_compute].
Defined.

(** *** The choice among candidates *)

Lemma rankedBefore_irrefl x : ¬ rankedBefore x x.
Proof.
  unfold rankedBefore, sortsBefore, compareCandidates.
  destruct (jltb (jabs (jsub (cand_dist x) (cand_dist x))) (Fin (1 # 1000))).
  - unfold jnum. simpl. rewrite Z.sub_diag. done.
  - destruct (cand_dist x) as [| | |q]; simpl; try done.
    intros H%Qltb_lt. apply (Qplus_lt_l _ _ q) in H. ring_simplify in H.
    by apply Qlt_irrefl in H.
Qed.

(** X7.  With two candidates the comparator cannot cycle: the chosen one
    is one of the two and neither is ranked before it. *)
Theorem two_candidates_never_outranked a b :
  chooseCandidate a [b] ∈ [a; b] ∧
  ¬ rankedBefore a (chooseCandidate a [b]) ∧
  ¬ rankedBefore b (chooseCandidate a [b]).
Proof.
  split; [apply chooseCandidate_elem_of|].
  unfold chooseCandidate. simpl.
  destruct (sortsAfter compareCandidates a b) eqn:Hab; simpl.
  - split; [|apply rankedBefore_irrefl].
    intros H. apply sortsBefore_not_after in H. congruence.
  - split; [apply rankedBefore_irrefl|].
    intros H. apply compareCandidates_antisym in H. congruence.
Qed.

Lemma farApart_sym x y : farApart x y → farApart y x.
Proof. unfold farApart. by rewrite near_sym. Qed.

(** For finite distances that are not near-ties the ranking is the
    comparison of the distances. *)
Lemma far_ranked x y :
  finiteDist x → finiteDist y → farApart x y →
  (rankedBefore x y ↔ jltb (cand_dist x) (cand_dist y) = true) ∧
  (rankedBefore x y ∨ rankedBefore y x).
Proof.
  intros [p Hp] [q Hq] Hfar. unfold rankedBefore, sortsBefore, compareCandidates.
  pose proof (farApart_sym _ _ Hfar) as Hfar'.
  unfold farApart in *. rewrite Hfar, Hfar'. rewrite Hp, Hq in *. simpl in *.
  rewrite !Qltb_lt.
  assert ((p - q < 0)%Q ↔ (p < q)%Q) as H1.
  { split; intros H.
    - apply (Qplus_lt_l _ _ q) in H. by ring_simplify in H.
    - apply (Qplus_lt_l _ _ q). by ring_simplify. }
  assert ((q - p < 0)%Q ↔ (q < p)%Q) as H2.
  { split; intros H.
    - apply (Qplus_lt_l _ _ p) in H. by ring_simplify in H.
    - apply (Qplus_lt_l _ _ p). by ring_simplify. }
  split; [done|]. rewrite H1, H2.
  destruct (Q_dec p q) as [[?|?]|Heq]; [by left|by right|].
  exfalso. apply not_true_iff_false in Hfar. apply Hfar. apply Qltb_lt.
  assert (Qabs (p - q) == 0)%Q as E.
  { assert (p - q == 0)%Q as E0 by (rewrite Heq; ring). by rewrite E0. }
  unfold Qminus in *. rewrite E. done.
Qed.

Lemma jltb_trans_fin p q r :
  jltb (Fin p) (Fin q) = true → jltb (Fin q) (Fin r) = true → jltb (Fin p) (Fin r) = true.
Proof. simpl. rewrite !Qltb_lt. apply Qlt_trans. Qed.


Lemma far_members l x y :
  ForallOrdPairs farApart l → x ∈ l → y ∈ l → x = y ∨ farApart x y.
Proof.
  intros Hfar Hx%list_elem_of_In Hy%list_elem_of_In.
  destruct (ForallOrdPairs_In Hfar x y Hx Hy) as [?|[?|?]]; auto using farApart_sym.
Qed.

Lemma exists_nearest l :
  l ≠ [] →
  Forall finiteDist l →
  ForallOrdPairs farApart l →
  ∃ best, best ∈ l ∧ ∀ d, d ∈ l → d = best ∨ jltb (cand_dist best) (cand_dist d) = true.
Proof.
  induction l as [|x l IH]; [done|]. intros _ Hfin Hfar.
  pose proof Hfar as Hfar0.
  apply Forall_cons in Hfin as [Hx Hfin].
  inversion Hfar as [|? ? Hxl Hl]; subst.
  destruct l as [|y l'].
  { exists x. split; [left|]. intros d Hd. apply list_elem_of_singleton in Hd. by left. }
  destruct IH as (best & Hbest & Hall); [done|done|done|].
  assert (finiteDist best) as Hfb by (by apply (proj1 (Forall_forall _ _) Hfin)).
  destruct (far_members _ x best Hfar0) as [->|Hxb]; [left|by right|..].
  { exists best. split; [left|]. intros d Hd.
    apply elem_of_cons in Hd as [->|Hd]; [by left|]. by apply Hall. }
  destruct (far_ranked x best Hx Hfb Hxb) as [Hiff [Hlt|Hgt]].
  - exists x. split; [left|]. intros d Hd. apply elem_of_cons in Hd as [->|Hd]; [by left|].
    right. apply Hiff in Hlt.
    destruct (Hall d Hd) as [->|Hbd]; [done|].
    assert (finiteDist d) as Hfd by (by apply (proj1 (Forall_forall _ _) Hfin)).
    destruct Hx as [p Hp], Hfb as [q Hq], Hfd as [r Hr]. rewrite Hp, Hq, Hr in *.
    by eapply jltb_trans_fin.
  - exists best. split; [by right|]. intros d Hd.
    apply elem_of_cons in Hd as [->|Hd]; [|by apply Hall].
    right. by apply (far_ranked best x Hfb Hx (farApart_sym _ _ Hxb)).
Qed.

(** X8.  When the distances are finite and no two candidates are within a
    metre of each other, the chosen candidate is the nearest: every other
    candidate is strictly farther. *)
Theorem nearest_chosen_without_near_ties c cs :
  Forall finiteDist (c :: cs) →
  ForallOrdPairs farApart (c :: cs) →
  ∀ d, d ∈ c :: cs →
       d = chooseCandidate c cs ∨
       jltb (cand_dist (chooseCandidate c cs)) (cand_dist d) = true.
Proof.
  intros Hfin Hfar.
  destruct (exists_nearest (c :: cs)) as (best & Hbest & Hall); [done|done|done|].
  assert (chooseCandidate c cs = best) as ->; [|done].
  apply chooseCandidate_winner; [done|]. intros d Hd.
  destruct (Hall d Hd) as [->|Hlt]; [by left|]. right.
  destruct (far_members _ best d Hfar Hbest Hd) as [<-|Hbd].
  - exfalso. by rewrite (jltb_asym _ _ Hlt) in Hlt.
  - apply (far_ranked best d); [..|done|done].
    + by apply (proj1 (Forall_forall _ _) Hfin).
    + by apply (proj1 (Forall_forall _ _) Hfin).
Qed.

Lemma apart_finite : Forall finiteDist Sample.apart.
Proof. repeat constructor; eexists; reflexivity. Qed.

Lemma apart_far : ForallOrdPairs farApart Sample.apart.
Proof. repeat constructor; reflexivity. Qed.

(** Of three candidates at 5, 2 and 9 km the one at 2 km is chosen, though
    it carries the most passengers. *)
Lemma nearest_chosen_without_near_ties_witness :
  Forall (λ d, d = Sample.candidate "Q" 2 6 ∨
               jltb (cand_dist (Sample.candidate "Q" 2 6)) (cand_dist d) = true)
    Sample.apart.
Proof.
  apply Forall_forall.
  exact (nearest_chosen_without_near_ties (Sample.candidate "P" 5 0)
           [Sample.candidate "Q" 2 6; Sample.candidate "R" 9 1] apart_finite apart_far).
Defined.

(** ** The server under any order of events *)

Lemma untargeted_passengers v v' :
  untargeted v = untargeted v' → passengersOf v = passengersOf v'.
Proof.
  intros H. unfold passengersOf.
  by rewrite (f_equal v_currentPassengers H : v_currentPassengers v = v_currentPassengers v').
Qed.

Lemma sameFleet_refl w : sameFleet w w.
Proof. done. Qed.

Lemma sameFleet_sym w w' : sameFleet w w' → sameFleet w' w.
Proof. intros [H1 H2]. split; congruence. Qed.

Lemma sameFleet_trans w1 w2 w3 : sameFleet w1 w2 → sameFleet w2 w3 → sameFleet w1 w3.
Proof. intros [H1 H2] [H3 H4]. split; congruence. Qed.

Lemma sameFleet_lookup w w' vid v' :
  sameFleet w w' → vehicles w' !! vid = Some v' →
  ∃ v, vehicles w !! vid = Some v ∧ untargeted v = untargeted v'.
Proof.
  intros [_ H] Hv'.
  assert ((untargeted <$> vehicles w) !! vid = Some (untargeted v')) as Hl.
  { by rewrite <- H, lookup_fmap, Hv'. }
  rewrite lookup_fmap in Hl. destruct (vehicles w !! vid) as [v|]; [|done].
  exists v. split; [done|]. simpl in Hl. congruence.
Qed.

Lemma sameFleet_log l w : sameFleet w (log l w).
Proof. done. Qed.

Lemma untargeted_SetTarget t r ts v :
  untargeted (patchVehicle (SetTarget t r ts) v) = untargeted v.
Proof. done. Qed.

Lemma sameFleet_apply env sg w :
  sameFleet w (applyRebalanceSuggestion env sg w).2.
Proof.
  unfold applyRebalanceSuggestion, applyWrite.
  destruct (vehicles w !! sg_vehicleId sg) as [v|] eqn:Hv; [|done].
  split; [done|].
  change (untargeted <$>
            <[sg_vehicleId sg :=
                patchVehicle (SetTarget (sg_targetLocation sg) (sg_reason sg) (now env)) v]>
              (vehicles w) = untargeted <$> vehicles w).
  rewrite fmap_insert, untargeted_SetTarget.
  apply insert_id. by rewrite lookup_fmap, Hv.
Qed.

Lemma sameFleet_capacity w w' : sameFleet w w' → capacityOk w → capacityOk w'.
Proof.
  intros Hsame Hok vid v' Hv'.
  destruct (sameFleet_lookup _ _ _ _ Hsame Hv') as (v & Hv & Hu).
  rewrite <- (untargeted_passengers _ _ Hu). by eapply Hok.
Qed.

Lemma sameFleet_consistent w w' :
  sameFleet w w' → carriedConsistent w → carriedConsistent w'.
Proof.
  intros Hsame [Hnd Href]. split.
  - intros vid v' Hv'.
    destruct (sameFleet_lookup _ _ _ _ Hsame Hv') as (v & Hv & Hu).
    rewrite <- (untargeted_passengers _ _ Hu). by eapply Hnd.
  - intros vid v' id Hv' Hin.
    destruct (sameFleet_lookup _ _ _ _ Hsame Hv') as (v & Hv & Hu).
    rewrite <- (untargeted_passengers _ _ Hu) in Hin.
    destruct Hsame as [-> _]. by eapply Href.
Qed.

Lemma passengers_after_append vData id :
  passengersOf (patchVehicle (SetPassengers (passengersOf vData ++ [id])) vData)
  = passengersOf vData ++ [id].
Proof. done. Qed.

Lemma committed_capacity p p' w w' :
  committed p p' w w' → capacityOk w → capacityOk w'.
Proof.
  intros (env & id & booking & chosen & bData & vData & -> & _ & Hb & Hp & Hv & Hlen
          & Hbs & Hvs) Hok vid v.
  rewrite Hvs. destruct (decide (cand_id chosen = vid)) as [<-|Hne].
  - rewrite lookup_insert_eq. intros Hs; apply (inj Some) in Hs; subst v.
    rewrite passengers_after_append, length_app. simpl. lia.
  - rewrite lookup_insert_ne by done. apply Hok.
Qed.

Lemma committed_consistent p p' w w' :
  committed p p' w w' → carriedConsistent w → carriedConsistent w'.
Proof.
  intros (env & id & booking & chosen & bData & vData & -> & _ & Hb & Hp & Hv & Hlen
          & Hbs & Hvs) (Hnd & Href).
  assert (∀ vid v, vehicles w !! vid = Some v → id ∉ passengersOf v) as Hfresh.
  { intros vid v Hl Hin. destruct (Href _ _ _ Hl Hin) as (b & Hb' & Hs & _).
    rewrite Hb in Hb'. injection Hb' as <-. congruence. }
  split.
  - intros vid v. rewrite Hvs. destruct (decide (cand_id chosen = vid)) as [<-|Hne].
    + rewrite lookup_insert_eq. intros Hs; apply (inj Some) in Hs; subst v.
      rewrite passengers_after_append.
      apply NoDup_app. split; [by eapply Hnd|]. split; [|apply NoDup_singleton].
      intros x Hx Hx'. apply list_elem_of_singleton in Hx'. subst x.
      by apply (Hfresh _ _ Hv).
    + rewrite lookup_insert_ne by done. apply Hnd.
  - intros vid v x. rewrite Hvs, Hbs.
    destruct (decide (cand_id chosen = vid)) as [<-|Hne].
    + rewrite lookup_insert_eq. intros Hs; apply (inj Some) in Hs; subst v.
      rewrite passengers_after_append, elem_of_app, list_elem_of_singleton.
      intros [Hx| ->].
      * assert (id ≠ x) as Hid by (intros <-; by apply (Hfresh _ _ Hv)).
        rewrite lookup_insert_ne by done. by eapply Href.
      * rewrite lookup_insert_eq. eexists. split; [done|]. done.
    + rewrite lookup_insert_ne by done. intros Hl Hx.
      assert (id ≠ x) as Hid by (intros <-; by apply (Hfresh _ _ Hl)).
      rewrite lookup_insert_ne by done. by eapply Href.
Qed.

Lemma stepAssign_cases rt p w p' w' :
  stepAssign rt p w = (p', w') →
  (sameFleet w w' ∧
   ∀ x, wonBy (AssignTask p') = Some x → wonBy (AssignTask p) = Some x) ∨
  committed p p' w w'.
Proof.
  destruct p as [env id|env id booking la ln|env id booking chosen
                |env id booking chosen|id r]; simpl.
  - destruct (bookings w !! id) as [booking|]; [|intros [= <- <-]; left; done].
    destruct (negb (isPending booking)); [intros [= <- <-]; left; done|].
    destruct (validatePickup booking) as [[la ln]|e]; intros [= <- <-]; left; done.
  - destruct (scanCandidates rt la ln (idleVehicleDocs w)) as [|c cs];
      intros [= <- <-]; left; done.
  - rewrite runTransaction_assign.
    destruct (bookings w !! id) as [bData|] eqn:Hb; [|intros [= <- <-]; left; done].
    destruct (isPending bData) eqn:Hp; simpl; [|intros [= <- <-]; left; done].
    destruct (vehicles w !! cand_id chosen) as [vData|] eqn:Hv;
      [|intros [= <- <-]; left; done].
    destruct (isFull (passengersOf vData)) eqn:Hf; [intros [= <- <-]; left; done|].
    apply isPending_true in Hp. apply isFull_false in Hf.
    intros Hstep. right. exists env, id, booking, chosen, bData, vData.
    destruct (cand_fcmToken chosen); injection Hstep as <- <-;
      rewrite ?bookings_notifyDriver, ?vehicles_notifyDriver; simpl; auto 10.
  - intros [= <- <-]. left. split; [|done]. split.
    + apply bookings_notifyDriver.
    + by rewrite vehicles_notifyDriver.
  - intros [= <- <-]. left. done.
Qed.

Lemma planSuggestions_store rt idle recent w :
  sameFleet w (planSuggestions rt idle recent w).2 ∧
  outbox (planSuggestions rt idle recent w).2 = outbox w.
Proof.
  unfold planSuggestions. destruct (_ || _); [done|].
  by destruct (identifyHotspots rt recent.*2).
Qed.

Lemma stepRebalance_store rt p w :
  sameFleet w (stepRebalance rt p w).2 ∧ outbox (stepRebalance rt p w).2 = outbox w.
Proof.
  destruct p as [env a|env a idle|env sgs top|r]; simpl; try done.
  - pose proof (planSuggestions_store rt idle (getRecentBookings env 1 w) w) as [Hs Ho].
    destruct (planSuggestions rt idle (getRecentBookings env 1 w) w) as [[sgs|e] w1];
      simpl in *; [|done].
    destruct (a && _); simpl; split; try done; by destruct Hs.
  - destruct top as [|sg rest]; [done|].
    pose proof (sameFleet_apply env sg w) as Hs.
    assert (outbox (applyRebalanceSuggestion env sg w).2 = outbox w) as Ho.
    { unfold applyRebalanceSuggestion, applyWrite.
      by destruct (vehicles w !! sg_vehicleId sg). }
    destruct (applyRebalanceSuggestion env sg w) as [[[]|e] w1]; [|done].
    by destruct rest.
Qed.

Lemma hasWon_app s s' new i id vid :
  tasks s' = tasks s ++ new → (∀ t, t ∈ new → wonBy t = None) →
  hasWon s' i id vid → hasWon s i id vid.
Proof.
  intros Hts Hnew (t & Hl & Hw). rewrite Hts in Hl.
  apply lookup_app_Some in Hl as [Hl|[_ Hl]]; [by exists t|].
  apply list_elem_of_lookup_2, Hnew in Hl. congruence.
Qed.

Lemma hasWon_insert s s' j tj tj' i id vid :
  tasks s !! j = Some tj → tasks s' = <[j := tj']> (tasks s) →
  (∀ x, wonBy tj' = Some x → wonBy tj = Some x) →
  hasWon s' i id vid → hasWon s i id vid.
Proof.
  intros Hj Hts Hsame (t & Hl & Hw). rewrite Hts in Hl.
  destruct (decide (j = i)) as [<-|Hne].
  - rewrite list_lookup_insert_eq in Hl by (by eapply lookup_lt_Some).
    injection Hl as <-. exists tj. auto.
  - rewrite list_lookup_insert_ne in Hl by done. by exists t.
Qed.

Lemma storeAndAssign_moved env freshId doc s :
  Moved s (storeAndAssign env freshId doc s).2.
Proof.
  unfold storeAndAssign. destruct doc as [message|newBooking].
  - by apply Quiet.
  - destruct (bookings (store s) !! freshId) eqn:Hfresh.
    + by apply Quiet.
    + apply (Adds _ _ freshId newBooking); simpl; try done.
      intros i id vid. eapply hasWon_app; [done|].
      intros t Ht. destruct (isPending newBooking);
        repeat (apply elem_of_cons in Ht as [->|Ht]; [done|]);
        by apply elem_of_nil in Ht.
Qed.

Lemma react_moved rt e s : Moved s (react rt e s).2.
Proof.
  destruct e as [i|env freshId payload|env freshId payload|env a|env]; simpl.
  - destruct (tasks s !! i) as [t|] eqn:Ht; [|by apply Quiet].
    destruct t as [p|p]; simpl.
    + destruct (stepAssign rt p (store s)) as [p' w'] eqn:Hstep. simpl.
      apply stepAssign_cases in Hstep as [(Hsame & Hp)|Hc].
      * apply Quiet; [done|]. intros k id vid. by eapply hasWon_insert.
      * by apply (Commits _ _ i p p').
    + pose proof (stepRebalance_store rt p (store s)) as [Hsame _].
      destruct (stepRebalance rt p (store s)) as [p' w']. simpl in *.
      apply Quiet; [done|]. intros k id vid. by eapply hasWon_insert.
  - apply storeAndAssign_moved.
  - apply storeAndAssign_moved.
  - apply Quiet; [done|]. intros i id vid. eapply hasWon_app; [done|].
    intros t Ht. apply list_elem_of_singleton in Ht. by subst.
  - apply Quiet; [done|]. intros i id vid. eapply hasWon_app; [done|].
    intros t Ht. apply list_elem_of_singleton in Ht. by subst.
Qed.

Lemma Moved_capacity s s' : Moved s s' → capacityOk (store s) → capacityOk (store s').
Proof.
  intros [Hsame _|i p p' _ _ Hc|id b _ _ Hv _].
  - by apply sameFleet_capacity.
  - by eapply committed_capacity.
  - unfold capacityOk. by rewrite Hv.
Qed.

Lemma Moved_consistent s s' :
  Moved s s' → carriedConsistent (store s) → carriedConsistent (store s').
Proof.
  intros [Hsame _|i p p' _ _ Hc|id b Hfresh Hb Hv _].
  - by apply sameFleet_consistent.
  - by eapply committed_consistent.
  - intros [Hnd Href]. unfold carriedConsistent. rewrite Hv, Hb. split; [done|].
    intros vid v x Hl Hx. destruct (Href _ _ _ Hl Hx) as (b' & Hb' & Hrest).
    exists b'. split; [|done]. rewrite lookup_insert_ne; [done|]. congruence.
Qed.

Lemma Moved_winners s s' :
  Moved s s' → winnersRecorded s ∧ oneWinner s → winnersRecorded s' ∧ oneWinner s'.
Proof.
  intros Hm [Hrec Hone].
  destruct Hm as [Hsame Hold|i p p' Ht Hts Hc|id b Hfresh Hb Hv Hold].
  - split.
    + intros k id vid Hk.
      destruct (Hrec _ _ _ (Hold _ _ _ Hk)) as (b & v & Hb & Hs & Hvid & Hv & Hin).
      destruct (sameFleet_lookup _ _ _ _ (sameFleet_sym _ _ Hsame) Hv) as (v' & Hv' & Hu).
      exists b, v'. destruct Hsame as [-> _].
      rewrite (untargeted_passengers _ _ Hu). done.
    + intros k j id v1 v2 Hk Hj. eauto.
  - assert (i < length (tasks s))%nat as Hi by (by eapply lookup_lt_Some).
    destruct Hc as (env & id & booking & chosen & bData & vData & -> & Hwon & Hb & Hpend
                    & Hv & Hlen & Hbs & Hvs).
    assert (∀ k vid, hasWon s k id vid → False) as Hnone.
    { intros k vid Hk. destruct (Hrec _ _ _ Hk) as (b & _ & Hb' & Hs & _).
      rewrite Hb in Hb'. injection Hb' as <-. congruence. }
    assert (∀ k id' vid, hasWon s' k id' vid →
              (k = i ∧ id' = id ∧ vid = cand_id chosen) ∨ (k ≠ i ∧ hasWon s k id' vid))
      as Hcases.
    { intros k id' vid (t & Hl & Hw). rewrite Hts in Hl.
      destruct (decide (i = k)) as [<-|Hne].
      - rewrite list_lookup_insert_eq in Hl by done. injection Hl as <-.
        rewrite Hwon in Hw. injection Hw as <- <-. by left.
      - rewrite list_lookup_insert_ne in Hl by done. right. split; [done|]. by exists t. }
    split.
    + intros k id' vid Hk. destruct (Hcases _ _ _ Hk) as [(-> & -> & ->)|[Hne Hk']].
      * rewrite Hbs, Hvs, !lookup_insert_eq. eexists _, _.
        split; [done|]. split; [done|]. split; [done|]. split; [done|].
        rewrite passengers_after_append. apply elem_of_app. right. by left.
      * destruct (Hrec _ _ _ Hk') as (b & v & Hb' & Hs & Hvid & Hv' & Hin).
        assert (id ≠ id') as Hid.
        { intros <-. rewrite Hb in Hb'. injection Hb' as <-. congruence. }
        rewrite Hbs, Hvs, lookup_insert_ne by done.
        destruct (decide (cand_id chosen = vid)) as [<-|Hv''].
        -- rewrite lookup_insert_eq. rewrite Hv in Hv'. injection Hv' as <-.
           eexists _, _. split; [done|]. split; [done|]. split; [done|].
           split; [done|]. rewrite passengers_after_append. apply elem_of_app. by left.
        -- rewrite lookup_insert_ne by done. eauto 10.
    + intros k j id' v1 v2 Hk Hj.
      destruct (Hcases _ _ _ Hk) as [(-> & -> & ->)|[Hnk Hk']];
        destruct (Hcases _ _ _ Hj) as [(-> & Hid & ->)|[Hnj Hj']]; try done.
      * exfalso. eauto.
      * subst id'. exfalso. eauto.
      * by eapply Hone.
  - split.
    + intros k id' vid Hk.
      destruct (Hrec _ _ _ (Hold _ _ _ Hk)) as (b' & v & Hb' & Hrest).
      exists b', v. rewrite Hb, Hv. rewrite lookup_insert_ne; [done|]. congruence.
    + intros k j id' v1 v2 Hk Hj. eauto.
Qed.

Lemma runEvents_snoc rt events e s :
  runEvents rt (events ++ [e]) s = (react rt e (runEvents rt events s)).2.
Proof. unfold runEvents. by rewrite foldl_app. Qed.

Lemma boot_no_winner env w i id vid : hasWon (boot env w) i id vid → False.
Proof.
  unfold boot. intros (t & Hl & Hw). simpl in Hl.
  apply list_elem_of_lookup_2, elem_of_app in Hl as [Hl|Hl].
  - apply list_elem_of_fmap in Hl as (d & -> & _). discriminate.
  - apply list_elem_of_singleton in Hl. subst. discriminate.
Qed.

(** X9.  However the calls in flight interleave with each other, with runs
    of the rebalancer and with new requests, a call that reports an
    assignment has its booking recorded as assigned to its vehicle and on
    the list of that vehicle, and no two calls report an assignment of the
    same booking: of the two calls the server starts for a posted booking,
    the handler's and the listener's, at most one assigns it. *)
Theorem assignment_exactly_once rt env w events :
  winnersRecorded (runEvents rt events (boot env w)) ∧
  oneWinner (runEvents rt events (boot env w)).
Proof.
  induction events as [|e events IH] using rev_ind.
  - split.
    + intros i id vid H. exfalso. by eapply boot_no_winner.
    + intros i j id v1 v2 H. exfalso. by eapply boot_no_winner.
  - rewrite runEvents_snoc. eapply Moved_winners; [apply react_moved|done].
Qed.

(** Two calls for the one booking of [worldPending], resumed in turn: the
    first to reach the transaction wins, the other ends with "Booking
    already handled"; one message is sent. *)
Example race_for_one_booking :
  let s := runEvents approxRuntime
             [Resume 0; Resume 1; Resume 0; Resume 1; Resume 1; Resume 0; Resume 1]
             {| store := Sample.worldPending;
                tasks := [AssignTask (Started Sample.env0 "b1");
                          AssignTask (Started Sample.env0 "b1")] |} in
  tasks s = [AssignTask (Finished "b1" (Err BookingAlreadyHandled)); winner "b1" "v1"] ∧
  v_currentPassengers <$> vehicles (store s) !! "v1" = Some (Some ["b1"]) ∧
  length (outbox (store s)) = 1%nat.
Proof. by vm_compute. Qed.

(** X10.  When no vehicle carries more than seven passengers, no passenger
    list repeats a booking and every listed booking is assigned to the
    vehicle that lists it, the same holds after any sequence of events; and
    then no booking is on the lists of two vehicles. *)
Theorem store_stays_consistent rt s events :
  capacityOk (store s) → carriedConsistent (store s) →
  capacityOk (store (runEvents rt events s)) ∧
  carriedConsistent (store (runEvents rt events s)) ∧
  ∀ vid1 vid2 v1 v2 id,
    vehicles (store (runEvents rt events s)) !! vid1 = Some v1 →
    vehicles (store (runEvents rt events s)) !! vid2 = Some v2 →
    id ∈ passengersOf v1 → id ∈ passengersOf v2 → vid1 = vid2.
Proof.
  intros Hcap Hcons.
  assert (capacityOk (store (runEvents rt events s)) ∧
          carriedConsistent (store (runEvents rt events s))) as [H1 H2].
  { induction events as [|e events [IH1 IH2]] using rev_ind; [done|].
    rewrite runEvents_snoc. split.
    - eapply Moved_capacity; [apply react_moved|done].
    - eapply Moved_consistent; [apply react_moved|done]. }
  split; [done|]. split; [done|].
  intros vid1 vid2 v1 v2 id Hv1 Hv2 Hin1 Hin2.
  destruct H2 as [_ Href].
  destruct (Href _ _ _ Hv1 Hin1) as (b1 & Hb1 & _ & Ha1).
  destruct (Href _ _ _ Hv2 Hin2) as (b2 & Hb2 & _ & Ha2).
  congruence.
Qed.

Lemma carriedConsistent_sample : carriedConsistent Sample.worldPending.
Proof.
  split.
  - intros vid v H. unfold Sample.worldPending, Sample.world in H. simpl in H.
    apply lookup_singleton_Some in H as [_ <-]. constructor.
  - intros vid v id H. unfold Sample.worldPending, Sample.world in H. simpl in H.
    apply lookup_singleton_Some in H as [_ <-]. simpl. by intros ?%elem_of_nil.
Qed.

(** Two bookings, three calls for them and a run of the rebalancer, resumed
    in turn: both bookings end on the list of "v1". *)
Lemma store_stays_consistent_witness :
  capacityOk
    (store (runEvents approxRuntime Sample.busyEvents
              (boot Sample.env0 Sample.worldPending))) ∧
  carriedConsistent
    (store (runEvents approxRuntime Sample.busyEvents
              (boot Sample.env0 Sample.worldPending))) ∧
  v_currentPassengers <$>
    vehicles (store (runEvents approxRuntime Sample.busyEvents
                       (boot Sample.env0 Sample.worldPending))) !! "v1"
    = Some (Some ["b1"; "b2"]).
Proof.
  pose proof (store_stays_consistent approxRuntime
                (boot Sample.env0 Sample.worldPending) Sample.busyEvents
                capacityOk_sample carriedConsistent_sample) as (H1 & H2 & _).
  split; [exact H1|]. split; [exact H2|]. by vm_compute.
Defined.

Lemma keepsVehicle_refl v : keepsVehicle v v.
Proof. unfold keepsVehicle. auto 10. Qed.

Lemma onlyGrows_refl w : onlyGrows w w.
Proof.
  split.
  - intros id b Hb. exists b. split; [done|]. by left.
  - intros vid. destruct (vehicles w !! vid); [apply keepsVehicle_refl|done].
Qed.

Lemma onlyGrows_trans w1 w2 w3 : onlyGrows w1 w2 → onlyGrows w2 w3 → onlyGrows w1 w3.
Proof.
  intros [Hb12 Hv12] [Hb23 Hv23]. split.
  - intros id b Hb. destruct (Hb12 _ _ Hb) as (b' & Hb' & Hk).
    destruct (Hb23 _ _ Hb') as (b'' & Hb'' & Hk'). exists b''. split; [done|].
    destruct Hk as [->|[Hp [p ->]]]; [done|].
    destruct Hk' as [->|[Hp' _]]; [|done].
    right. eauto.
  - intros vid. specialize (Hv12 vid). specialize (Hv23 vid).
    destruct (vehicles w1 !! vid) as [v1|], (vehicles w2 !! vid) as [v2|],
      (vehicles w3 !! vid) as [v3|]; try done.
    destruct Hv12 as (? & ? & ? & ? & ?), Hv23 as (? & ? & ? & ? & ?).
    unfold keepsVehicle. repeat split; try congruence. by etrans.
Qed.

Lemma sameFleet_grows w w' : sameFleet w w' → onlyGrows w w'.
Proof.
  intros [Hb Hv]. split.
  - intros id b Hl. exists b. rewrite Hb. split; [done|]. by left.
  - intros vid.
    assert ((untargeted <$> vehicles w') !! vid = (untargeted <$> vehicles w) !! vid)
      as Hl by (by rewrite Hv).
    rewrite !lookup_fmap in Hl.
    destruct (vehicles w !! vid) as [v|], (vehicles w' !! vid) as [v'|]; try done.
    simpl in Hl. injection Hl as H1 H2 H3 H4 H5.
    unfold keepsVehicle, passengersOf. rewrite H3. auto 10.
Qed.

Lemma Moved_grows s s' : Moved s s' → onlyGrows (store s) (store s').
Proof.
  intros [Hsame _|i p p' _ _ Hc|id b Hfresh Hb Hv _].
  - by apply sameFleet_grows.
  - destruct Hc as (env & id & booking & chosen & bData & vData & -> & _ & Hb & Hpend
                    & Hv & Hlen & Hbs & Hvs).
    split.
    + intros id' b Hl. rewrite Hbs. destruct (decide (id = id')) as [<-|Hne].
      * rewrite lookup_insert_eq. eexists. split; [done|]. right.
        rewrite Hb in Hl. injection Hl as <-. eauto.
      * rewrite lookup_insert_ne by done. exists b. split; [done|]. by left.
    + intros vid. rewrite Hvs. destruct (decide (cand_id chosen = vid)) as [<-|Hne].
      * rewrite lookup_insert_eq, Hv. unfold keepsVehicle.
        rewrite passengers_after_append. repeat split; try done.
        by apply prefix_app_r.
      * rewrite lookup_insert_ne by done.
        destruct (vehicles (store s) !! vid); [apply keepsVehicle_refl|done].
  - split.
    + intros id' b' Hl. rewrite Hb. exists b'. split; [|by left].
      rewrite lookup_insert_ne; [done|]. congruence.
    + intros vid. rewrite Hv.
      destruct (vehicles (store s) !! vid); [apply keepsVehicle_refl|done].
Qed.

(** X11.  The server never deletes a document, never adds a vehicle, never
    changes the status, the location, the driver or the token of a vehicle
    and never takes a passenger off a list; a booking changes only by going
    from pending to assigned, so a booking that is not pending stays as it
    is. *)
Theorem server_only_grows rt events s :
  onlyGrows (store s) (store (runEvents rt events s)).
Proof.
  induction events as [|e events IH] using rev_ind.
  - apply onlyGrows_refl.
  - rewrite runEvents_snoc. eapply onlyGrows_trans; [done|].
    apply Moved_grows, react_moved.
Qed.

Lemma stepTask_progress rt t w : (stepsLeft (stepTask rt t w).1 ≤ stepsLeft t - 1)%nat.
Proof.
  destruct t as [[env id|env id booking la ln|env id booking chosen
                 |env id booking chosen|id r]
                |[env a|env a idle|env sgs top|r]]; simpl.
  - destruct (bookings w !! id) as [booking|]; [|simpl; lia].
    destruct (negb (isPending booking)); [simpl; lia|].
    destruct (validatePickup booking) as [[la ln]|e]; simpl; lia.
  - destruct (scanCandidates rt la ln (idleVehicleDocs w)) as [|c cs]; simpl; lia.
  - destruct (runTransaction (assignTransaction env id chosen) w) as [[[]|e] w3];
      [|simpl; lia].
    destruct (cand_fcmToken chosen); simpl; lia.
  - lia.
  - lia.
  - lia.
  - destruct (planSuggestions rt idle (getRecentBookings env 1 w) w) as [[sgs|e] w1];
      [|simpl; lia].
    destruct (a && _); simpl; [|lia].
    rewrite length_take. lia.
  - destruct top as [|sg rest]; [simpl; lia|].
    destruct (applyRebalanceSuggestion env sg w) as [[[]|e] w1]; [|simpl; lia].
    destruct rest; simpl; lia.
  - lia.
Qed.

Lemma storeAndAssign_lookup env freshId doc s j t :
  tasks s !! j = Some t → tasks (storeAndAssign env freshId doc s).2 !! j = Some t.
Proof.
  intros Hj. unfold storeAndAssign. destruct doc as [m|b]; [done|].
  destruct (bookings (store s) !! freshId); [done|]. simpl.
  by apply lookup_app_l_Some.
Qed.

Lemma react_lookup rt e j s t :
  tasks s !! j = Some t →
  ∃ t', tasks (react rt e s).2 !! j = Some t' ∧
        (stepsLeft t' ≤ stepsLeft t - (if isResume j e then 1 else 0))%nat.
Proof.
  intros Hj.
  assert (stepsLeft t ≤ stepsLeft t - 0)%nat as H0 by lia.
  destruct e as [i|env freshId payload|env freshId payload|env a|env]; simpl.
  - destruct (decide (i = j)) as [->|Hne].
    + rewrite Hj, bool_decide_eq_true_2 by done.
      pose proof (stepTask_progress rt t (store s)) as Hless.
      destruct (stepTask rt t (store s)) as [t' w']. simpl in *.
      exists t'. by rewrite list_lookup_insert_eq by (by eapply lookup_lt_Some).
    + rewrite bool_decide_eq_false_2 by done.
      destruct (tasks s !! i) as [q|]; [|by exists t].
      destruct (stepTask rt q (store s)) as [q' w']. simpl.
      exists t. by rewrite list_lookup_insert_ne.
  - exists t. split; [|done]. by apply storeAndAssign_lookup.
  - exists t. split; [|done]. by apply storeAndAssign_lookup.
  - exists t. split; [|done]. by apply lookup_app_l_Some.
  - exists t. split; [|done]. by apply lookup_app_l_Some.
Qed.

Lemma runEvents_lookup rt events j s t :
  tasks s !! j = Some t →
  ∃ t', tasks (runEvents rt events s) !! j = Some t' ∧
        (stepsLeft t' ≤ stepsLeft t - resumes j events)%nat.
Proof.
  intros Hj. induction events as [|e events IH] using rev_ind.
  - exists t. split; [done|]. unfold resumes. simpl. lia.
  - destruct IH as (t1 & H1 & Hs1). rewrite runEvents_snoc.
    destruct (react_lookup rt e j _ _ H1) as (t2 & H2 & Hs2).
    exists t2. split; [done|].
    unfold resumes in *. rewrite filter_app, length_app.
    destruct (isResume j e) eqn:He.
    + rewrite filter_cons_True by done. simpl. lia.
    + rewrite filter_cons_False by (by rewrite He). simpl. lia.
Qed.

(** X12.  A call ends once it has been resumed as often as it has awaits
    before it, at most four times for an assignment and five times for a run
    of the rebalancer, whatever else happens in between. *)
Theorem call_ends_after_its_awaits rt events j s t :
  tasks s !! j = Some t →
  (stepsLeft t ≤ resumes j events)%nat →
  ∃ t', tasks (runEvents rt events s) !! j = Some t' ∧ taskDone t' = true.
Proof.
  intros Hj Hn. destruct (runEvents_lookup rt events j s t Hj) as (t' & Ht' & Hs).
  exists t'. split; [done|].
  destruct t' as [[]|[]]; simpl in *; try done; lia.
Qed.

Lemma call_ends_after_its_awaits_witness :
  ∃ t, tasks (runEvents approxRuntime Sample.busyEvents
                (boot Sample.env0 Sample.worldPending)) !! 0%nat = Some t ∧
       taskDone t = true.
Proof.
  refine (call_ends_after_its_awaits approxRuntime Sample.busyEvents 0
            (boot Sample.env0 Sample.worldPending)
            (AssignTask (Started Sample.env0 "b1")) _ _).
  - reflexivity.
  - by vm_compute.
Defined.

Lemma runEvents_alone rt n j s t :
  tasks s !! j = Some t →
  runEvents rt (replicate n (Resume j)) s =
    {| store := (runAlone rt n t (store s)).2;
       tasks := <[j := (runAlone rt n t (store s)).1]> (tasks s) |}.
Proof.
  revert s t. induction n as [|n IH]; intros s t Hj; simpl.
  - rewrite list_insert_id by done. by destruct s.
  - unfold runEvents in *. simpl. rewrite Hj.
    destruct (stepTask rt t (store s)) as [t' w'] eqn:Hstep. simpl.
    erewrite IH.
    2:{ simpl. apply list_lookup_insert_eq. by eapply lookup_lt_Some. }
    simpl. by rewrite list_insert_insert_eq.
Qed.


Lemma generate_plan rt env w :
  generateRebalanceSuggestions rt env w =
    planSuggestions rt (getIdleVehicles w) (getRecentBookings env 1 w) w.
Proof. done. Qed.




(** *** Notifications *)

Lemma react_winner_stays rt e s i id vid :
  tasks s !! i = Some (winner id vid) → tasks (react rt e s).2 !! i = Some (winner id vid).
Proof.
  intros Hi.
  destruct e as [j|env freshId payload|env freshId payload|env a|env]; simpl.
  - destruct (tasks s !! j) as [tj|] eqn:Hj; [|done].
    destruct (stepTask rt tj (store s)) as [t' w'] eqn:Hstep. simpl.
    destruct (decide (j = i)) as [->|Hne].
    + rewrite Hi in Hj. injection Hj as <-. simpl in Hstep. injection Hstep as <- _.
      by rewrite list_lookup_insert_eq by (by eapply lookup_lt_Some).
    + by rewrite list_lookup_insert_ne.
  - by apply storeAndAssign_lookup.
  - by apply storeAndAssign_lookup.
  - by apply lookup_app_l_Some.
  - by apply lookup_app_l_Some.
Qed.

Lemma storeAndAssign_outbox env freshId doc s :
  outbox (store (storeAndAssign env freshId doc s).2) = outbox (store s).
Proof.
  unfold storeAndAssign. destruct doc as [m|b]; [done|].
  by destruct (bookings (store s) !! freshId).
Qed.

(** An event sends nothing, or it resumes a call that was about to notify
    its driver and sends the one message of that call. *)
Lemma react_outbox rt e s :
  outbox (store (react rt e s).2) = outbox (store s) ∨
  ∃ i env id booking chosen m,
    tasks s !! i = Some (AssignTask (Sending env id booking chosen)) ∧
    tasks (react rt e s).2 = <[i := winner id (cand_id chosen)]> (tasks s) ∧
    msg_bookingId m = id ∧
    outbox (store (react rt e s).2) = outbox (store s) ++ [m].
Proof.
  destruct e as [j|env freshId payload|env freshId payload|env a|env]; simpl;
    try (by left); try (left; apply storeAndAssign_outbox).
  destruct (tasks s !! j) as [tj|] eqn:Hj; [|by left].
  destruct tj as [p|p]; simpl.
  - destruct p as [env id|env id booking la ln|env id booking chosen
                  |env id booking chosen|id r]; simpl.
    + destruct (bookings (store s) !! id) as [booking|]; [|by left].
      destruct (negb (isPending booking)); [by left|].
      destruct (validatePickup booking) as [[la ln]|e]; by left.
    + destruct (scanCandidates rt la ln (idleVehicleDocs (store s))) as [|c cs]; by left.
    + rewrite runTransaction_assign.
      destruct (bookings (store s) !! id) as [bData|]; [|by left].
      destruct (negb (isPending bData)); [by left|].
      destruct (vehicles (store s) !! cand_id chosen) as [vData|]; [|by left].
      destruct (isFull (passengersOf vData)); [by left|].
      destruct (cand_fcmToken chosen) as [token|] eqn:Htok; simpl; [by left|].
      left. unfold notifyDriver. by rewrite Htok.
    + rewrite outbox_notifyDriver.
      destruct (cand_fcmToken chosen) as [token|]; [|left; by rewrite app_nil_r].
      destruct (fcmDelivers env); [|left; by rewrite app_nil_r].
      right. exists j, env, id, booking, chosen, (messageFor id booking token). auto.
    + by left.
  - pose proof (stepRebalance_store rt p (store s)) as [_ Ho].
    destruct (stepRebalance rt p (store s)) as [p' w']. by left.
Qed.

Lemma react_notified rt e s w0 :
  oneWinner s → notifiedOnce w0 s → notifiedOnce w0 (react rt e s).2.
Proof.
  intros Hone (added & Hout & Hnd & Hwon).
  assert (∀ m, m ∈ added →
            ∃ i vid, tasks (react rt e s).2 !! i = Some (winner (msg_bookingId m) vid))
    as Hwon'.
  { intros m Hm. destruct (Hwon m Hm) as (i & vid & Hi).
    exists i, vid. by apply react_winner_stays. }
  destruct (react_outbox rt e s)
    as [Ho|(i & env & id & booking & chosen & m & Hi & Hts & Hid & Ho)].
  - exists added. by rewrite Ho.
  - exists (added ++ [m]). rewrite Ho, Hout, <- app_assoc. split; [done|]. split.
    + rewrite fmap_app. apply NoDup_app. split; [done|]. split; [|apply NoDup_singleton].
      intros x Hx Hx'. apply list_elem_of_singleton in Hx'. subst x.
      apply list_elem_of_fmap in Hx as (m' & Hm' & Hin).
      destruct (Hwon m' Hin) as (k & vid & Hk). rewrite <- Hm', Hid in Hk.
      assert (k = i) as ->.
      { apply (Hone k i id vid (cand_id chosen)); eexists; (split; [done|]); done. }
      rewrite Hi in Hk. discriminate.
    + intros m' [Hin| ->%list_elem_of_singleton]%elem_of_app; [by apply Hwon'|].
      exists i, (cand_id chosen). rewrite Hts, Hid.
      apply list_lookup_insert_eq. by eapply lookup_lt_Some.
Qed.

(** X15.  No driver is notified twice of the same booking.  Whatever the
    order of events, the messages sent since the server started are for
    different bookings, and each is for a booking that a call has won. *)
Theorem each_booking_notified_at_most_once rt env w events :
  notifiedOnce w (runEvents rt events (boot env w)).
Proof.
  assert ((winnersRecorded (runEvents rt events (boot env w)) ∧
           oneWinner (runEvents rt events (boot env w))) ∧
          notifiedOnce w (runEvents rt events (boot env w))) as [_ H]; [|done].
  induction events as [|e events [IHw IHn]] using rev_ind.
  - split; [split|].
    + intros i id vid H. exfalso. by eapply boot_no_winner.
    + intros i j id v1 v2 H. exfalso. by eapply boot_no_winner.
    + exists []. simpl. rewrite app_nil_r. split; [done|]. split; [constructor|].
      intros m Hm. by apply elem_of_nil in Hm.
  - rewrite runEvents_snoc. split.
    + eapply Moved_winners; [apply react_moved|done].
    + apply react_notified; [by destruct IHw|done].
Qed.

(** ** Fields that nothing reads *)

#[local] Instance docLe_trans {A} : Transitive (@docLe A).
Proof. intros x y z. unfold docLe. apply transitivity. Qed.

#[local] Instance docLe_total {A} : Total (@docLe A).
Proof. intros x y. unfold docLe. apply String.le_total. Qed.

Lemma NoDup_fst_inj {A} (l : list (string * A)) x y :
  NoDup l.*1 → x ∈ l → y ∈ l → x.1 = y.1 → x = y.
Proof.
  induction l as [|z l IH]; simpl; [by intros _ ?%elem_of_nil|].
  rewrite NoDup_cons. intros [Hz Hl] Hx Hy Hxy.
  apply elem_of_cons in Hx as [->|Hx]; apply elem_of_cons in Hy as [->|Hy]; auto.
  - exfalso. apply Hz. rewrite Hxy. by apply list_elem_of_fmap_2.
  - exfalso. apply Hz. rewrite <- Hxy. by apply list_elem_of_fmap_2.
Qed.

(** Documents come in the order of their ids, whatever they hold. *)
Lemma docsById_fmap {A B} (f : A → B) (m : gmap string A) :
  docsById (f <$> m) = prod_map id f <$> docsById m.
Proof.
  unfold docsById. rewrite map_to_list_fmap.
  assert (NoDup (prod_map id f <$> map_to_list m).*1) as Hnd.
  { rewrite <- list_fmap_compose.
    rewrite (list_fmap_ext (fst ∘ prod_map id f) fst) by (by intros []).
    apply NoDup_fst_map_to_list. }
  apply StronglySorted_unique_strong with (R := docLe).
  - intros x y Hx Hy Hxy Hyx.
    apply (NoDup_fst_inj _ _ _ Hnd).
    + by rewrite merge_sort_Permutation in Hx.
    + apply list_elem_of_fmap in Hy as (y' & -> & Hy).
      rewrite merge_sort_Permutation in Hy. by apply list_elem_of_fmap_2.
    + unfold docLe in *. by apply (anti_symm String.le).
  - apply StronglySorted_merge_sort; apply _.
  - apply StronglySorted_fmap with (R1 := docLe).
    + by intros [] [].
    + apply StronglySorted_merge_sort; apply _.
  - by rewrite !merge_sort_Permutation.
Qed.

Lemma sameFleet_docs w w' :
  sameFleet w w' →
  untargetedDoc <$> docsById (vehicles w') = untargetedDoc <$> docsById (vehicles w).
Proof.
  intros [_ Hv].
  assert (∀ m : gmap string Vehicle,
            untargetedDoc <$> docsById m = docsById (untargeted <$> m)) as Hd.
  { intros m. rewrite docsById_fmap. apply list_fmap_ext. by intros []. }
  by rewrite !Hd, Hv.
Qed.

Lemma fmap_filter_untargeted (P : string * Vehicle → Prop) `{!∀ d, Decision (P d)}
    (l l' : list (string * Vehicle)) :
  (∀ d, P (untargetedDoc d) ↔ P d) →
  untargetedDoc <$> l' = untargetedDoc <$> l →
  untargetedDoc <$> filter P l' = untargetedDoc <$> filter P l.
Proof.
  intros HP. revert l'. induction l as [|d l IH]; intros [|d' l']; try done.
  rewrite !fmap_cons. intros Heq.
  assert (untargetedDoc d' = untargetedDoc d ∧
          untargetedDoc <$> l' = untargetedDoc <$> l) as [Hd Hl] by (split; congruence).
  rewrite !filter_cons.
  assert (P d' ↔ P d) as Hdd by (by rewrite <- (HP d'), <- (HP d), Hd).
  destruct (decide (P d')), (decide (P d)); try tauto.
  - rewrite !fmap_cons, Hd. f_equal. by apply IH.
  - by apply IH.
Qed.

Lemma omap_untargeted {B} (f : string * Vehicle → option B)
    (l l' : list (string * Vehicle)) :
  (∀ d, f (untargetedDoc d) = f d) →
  untargetedDoc <$> l' = untargetedDoc <$> l →
  omap f l' = omap f l.
Proof.
  intros Hf. revert l'. induction l as [|d l IH]; intros [|d' l']; try done.
  rewrite !fmap_cons. intros Heq.
  assert (untargetedDoc d' = untargetedDoc d ∧
          untargetedDoc <$> l' = untargetedDoc <$> l) as [Hd Hl] by (split; congruence).
  simpl. assert (f d' = f d) as -> by (by rewrite <- (Hf d'), <- (Hf d), Hd).
  destruct (f d); [f_equal|]; by apply IH.
Qed.

Lemma sameFleet_idleVehicleDocs w w' :
  sameFleet w w' →
  untargetedDoc <$> idleVehicleDocs w' = untargetedDoc <$> idleVehicleDocs w.
Proof.
  intros Hs. unfold idleVehicleDocs.
  apply fmap_filter_untargeted; [done|by apply sameFleet_docs].
Qed.

Lemma sameFleet_getIdleVehicles w w' :
  sameFleet w w' →
  untargetedDoc <$> getIdleVehicles w' = untargetedDoc <$> getIdleVehicles w.
Proof.
  intros Hs. unfold getIdleVehicles.
  apply fmap_filter_untargeted; [done|by apply sameFleet_idleVehicleDocs].
Qed.

Lemma sameFleet_scan rt la ln w w' :
  sameFleet w w' →
  scanCandidates rt la ln (idleVehicleDocs w') = scanCandidates rt la ln (idleVehicleDocs w).
Proof.
  intros Hs. unfold scanCandidates.
  apply omap_untargeted; [done|by apply sameFleet_idleVehicleDocs].
Qed.

Lemma sameFleet_commit env id booking chosen w w' :
  sameFleet w w' →
  (commitAssignment env id booking chosen w').1 = (commitAssignment env id booking chosen w).1 ∧
  sameFleet (commitAssignment env id booking chosen w).2
            (commitAssignment env id booking chosen w').2.
Proof.
  intros Hs. pose proof Hs as [Hb Hv].
  unfold commitAssignment. rewrite !runTransaction_assign, Hb.
  destruct (bookings w !! id) as [bData|]; [|done].
  destruct (negb (isPending bData)); [done|].
  assert ((untargeted <$> vehicles w') !! cand_id chosen
          = (untargeted <$> vehicles w) !! cand_id chosen) as Hl by (by rewrite Hv).
  rewrite !lookup_fmap in Hl.
  destruct (vehicles w' !! cand_id chosen) as [v'|], (vehicles w !! cand_id chosen) as [v|];
    try done.
  simpl in Hl. apply (inj Some) in Hl.
  rewrite (untargeted_passengers _ _ Hl).
  destruct (isFull (passengersOf v)); [done|].
  split; [done|]. unfold sameFleet. cbn [snd]. split.
  - rewrite !bookings_notifyDriver. simpl. by rewrite Hb.
  - rewrite !vehicles_notifyDriver. simpl. rewrite !fmap_insert, Hv. f_equal.
    injection Hl as H1 H2 H3 H4 H5. unfold untargeted, passengersOf. simpl. congruence.
Qed.

Lemma sameFleet_plan rt idle idle' recent w w' :
  untargetedDoc <$> idle' = untargetedDoc <$> idle →
  (planSuggestions rt idle' recent w').1 = (planSuggestions rt idle recent w).1.
Proof.
  intros Hi. unfold planSuggestions.
  assert (length idle' = length idle) as ->.
  { by rewrite <- (length_fmap untargetedDoc idle'), Hi, length_fmap. }
  destruct (_ || _); [done|].
  destruct (identifyHotspots rt recent.*2) as [hotspots|e]; [|done].
  simpl. f_equal. f_equal.
  assert (∀ vid h, anotherVehicleNearby rt idle' vid h = anotherVehicleNearby rt idle vid h)
    as Hnear.
  { intros vid h. unfold anotherVehicleNearby.
    clear -Hi. revert idle' Hi. induction idle as [|d l IH]; intros [|d' l']; try done.
    rewrite !fmap_cons. intros Heq.
    assert (untargetedDoc d' = untargetedDoc d ∧
            untargetedDoc <$> l' = untargetedDoc <$> l) as [Hd Hl] by (split; congruence).
    simpl. rewrite (f_equal fst Hd : d'.1 = d.1).
    rewrite (f_equal (λ x, v_location x.2) Hd : v_location d'.2 = v_location d.2).
    f_equal. by apply IH. }
  assert (∀ vid loc hs, suggestFor rt idle' vid loc hs = suggestFor rt idle vid loc hs)
    as Hfor.
  { intros vid loc hs. induction hs as [|h hs IH]; [done|].
    simpl. by rewrite Hnear, IH. }
  transitivity (omap (suggestionOf rt idle hotspots) idle').
  - assert (∀ d, suggestionOf rt idle' hotspots d = suggestionOf rt idle hotspots d) as He.
    { intros d. unfold suggestionOf.
      destruct (v_location d.2); [|done]. by destruct (_ || _). }
    generalize idle' at 2 3. intros l.
    induction l as [|d l IH]; [done|]. simpl. rewrite He.
    destruct (suggestionOf rt idle hotspots d); [f_equal|]; exact IH.
  - by apply omap_untargeted.
Qed.

(** X16.  The three fields the rebalancer writes are read by nothing.  On two
    stores that differ only in them an assignment call ends the same way and
    the planner returns the same suggestions; in particular a second run of
    the rebalancer returns the suggestions of the first. *)
Theorem targets_are_never_read rt env bookingId autoApply w w' :
  sameFleet w w' →
  (assignDriverForBooking rt env bookingId w').1
    = (assignDriverForBooking rt env bookingId w).1 ∧
  sameFleet (assignDriverForBooking rt env bookingId w).2
            (assignDriverForBooking rt env bookingId w').2 ∧
  (runRebalancer rt env autoApply w').1 = (runRebalancer rt env autoApply w).1.
Proof.
  intros Hs. pose proof Hs as [Hb Hv]. split; [|split].
  - unfold assignDriverForBooking, assignDriverForBookingAmid. rewrite Hb.
    destruct (bookings w !! bookingId) as [booking|]; [|done].
    destruct (negb (isPending booking)); [done|].
    destruct (validatePickup booking) as [[la ln]|e]; [|done].
    unfold id. rewrite (sameFleet_scan rt la ln w w' Hs).
    destruct (scanCandidates rt la ln (idleVehicleDocs w)) as [|c cs]; [done|].
    by apply sameFleet_commit.
  - unfold assignDriverForBooking, assignDriverForBookingAmid. rewrite Hb.
    destruct (bookings w !! bookingId) as [booking|]; [|done].
    destruct (negb (isPending booking)); [done|].
    destruct (validatePickup booking) as [[la ln]|e]; [|done].
    unfold id. rewrite (sameFleet_scan rt la ln w w' Hs).
    destruct (scanCandidates rt la ln (idleVehicleDocs w)) as [|c cs]; [done|].
    by apply sameFleet_commit.
  - assert ((generateRebalanceSuggestions rt env w').1
            = (generateRebalanceSuggestions rt env w).1) as Hgen.
    { rewrite !generate_plan. unfold getRecentBookings. rewrite Hb.
      apply sameFleet_plan. by apply sameFleet_getIdleVehicles. }
    unfold runRebalancer.
    destruct (generateRebalanceSuggestions rt env w') as [[sgs'|e'] w1'] eqn:Hg',
      (generateRebalanceSuggestions rt env w) as [[sgs|e] w1] eqn:Hg;
      simpl in Hgen; try done.
    injection Hgen as ->.
    destruct (generate_shape _ _ _ _ _ Hg') as (_ & _ & Hnd' & Hex' & _ & Hv1' & _).
    destruct (generate_shape _ _ _ _ _ Hg) as (_ & _ & Hnd & Hex & _ & Hv1 & _).
    destruct (autoApply && _); [|done].
    destruct (applyAll_spec env (take 3 sgs) (log (LogGenerated (length sgs)) w1'))
      as (w3' & -> & _).
    { rewrite <- (take_drop 3 sgs), fmap_app in Hnd'. by apply NoDup_app in Hnd' as (? & _). }
    { intros s Hin. simpl. rewrite Hv1'. apply Hex'. by apply (subseteq_take 3 sgs). }
    destruct (applyAll_spec env (take 3 sgs) (log (LogGenerated (length sgs)) w1))
      as (w3 & -> & _).
    { rewrite <- (take_drop 3 sgs), fmap_app in Hnd. by apply NoDup_app in Hnd as (? & _). }
    { intros s Hin. simpl. rewrite Hv1. apply Hex. by apply (subseteq_take 3 sgs). }
    done.
Qed.

Lemma sameFleet_sample : sameFleet Sample.worldPending Sample.worldTargeted.
Proof. split; reflexivity. Qed.

Lemma targets_are_never_read_witness :
  (assignDriverForBooking approxRuntime Sample.env0 "b1" Sample.worldTargeted).1
    = (assignDriverForBooking approxRuntime Sample.env0 "b1" Sample.worldPending).1.
Proof.
  exact (proj1 (targets_are_never_read approxRuntime Sample.env0 "b1" true
                  Sample.worldPending Sample.worldTargeted sameFleet_sample)).
Defined.

(** ** More on the rebalancer *)















Lemma applyAll_top3 rt env w suggestions w1 lines :
  generateRebalanceSuggestions rt env w = (Ok suggestions, w1) →
  ∃ w3, applyAll env (take 3 suggestions) (log lines w1) = (Ok tt, w3).
Proof.
  intros Hg.
  destruct (generate_shape _ _ _ _ _ Hg) as (_ & _ & Hnd & Hex & _ & Hv1 & _).
  destruct (applyAll_spec env (take 3 suggestions) (log lines w1)) as (w3 & -> & _);
    [| |by eauto].
  - rewrite <- (take_drop 3 suggestions), fmap_app in Hnd.
    by apply NoDup_app in Hnd as (? & _).
  - intros s Hin. simpl. rewrite Hv1. apply Hex. by apply (subseteq_take 3 suggestions).
Qed.













(** X21.  A run without [autoApply] reads only: bookings, vehicles and outbox
    stay as they were, and it returns what the run with [autoApply]
    returns. *)
Theorem rebalance_without_autoApply_reads_only rt env w :
  bookings (runRebalancer rt env false w).2 = bookings w ∧
  vehicles (runRebalancer rt env false w).2 = vehicles w ∧
  outbox (runRebalancer rt env false w).2 = outbox w ∧
  (runRebalancer rt env true w).1 = (runRebalancer rt env false w).1.
Proof.
  unfold runRebalancer.
  destruct (generateRebalanceSuggestions rt env w) as [[sgs|e] w1] eqn:Hg.
  - destruct (generate_shape _ _ _ _ _ Hg) as (_ & _ & _ & _ & Hb & Hv & Ho).
    simpl. repeat split; try done.
    case_bool_decide; [|done].
    by destruct (applyAll_top3 _ _ _ _ _ (LogGenerated (length sgs)) Hg) as (w3 & ->).
  - revert Hg. unfold generateRebalanceSuggestions. destruct (_ || _); [done|].
    destruct (identifyHotspots rt _); [done|]. by intros [= <- <-].
Qed.

(** ** Demand, distance and priority *)

Lemma atLeastOne_pos q : (0 < atLeastOne q)%Q.
Proof.
  unfold atLeastOne. destruct (Qltb (inject_Z 1) q) eqn:H; [|done].
  apply Qltb_lt in H. eapply Qlt_trans; [|exact H]. done.
Qed.

Lemma atLeastOne_le q1 q2 : (q2 <= q1)%Q → (atLeastOne q2 <= atLeastOne q1)%Q.
Proof.
  intros Hle. unfold atLeastOne.
  destruct (Qltb (inject_Z 1) q2) eqn:H2, (Qltb (inject_Z 1) q1) eqn:H1; try done.
  - apply Qltb_lt in H2. apply not_true_iff_false in H1. rewrite Qltb_lt in H1.
    exfalso. apply H1. eapply Qlt_le_trans; [exact H2|done].
  - apply Qltb_lt in H1. by apply Qlt_le_weak.
Qed.

(** The score in closed form, for a finite distance. *)
Lemma priorityOf_Fin count q :
  priorityOf count (Fin q) =
    jnum (Z.min 10 (Qfloor (inject_Z count * inject_Z 5 / atLeastOne q + (1 # 2)))).
Proof.
  unfold priorityOf.
  assert (jdiv (jmul (jnum count) (jnum 5)) (jmax (jnum 1) (Fin q))
          = Fin (inject_Z count * inject_Z 5 / atLeastOne q)) as ->.
  { pose proof (atLeastOne_pos q) as Hpos. revert Hpos.
    unfold atLeastOne, jmax, jnum. simpl jltb. simpl jmul.
    destruct (Qltb (inject_Z 1) q) eqn:H1; intros Hpos; [|done].
    assert (Qeqb q 0 = false) as Hz.
    { apply not_true_is_false. rewrite Qeqb_eq. intros E. rewrite E in Hpos.
      by apply Qlt_irrefl in Hpos. }
    unfold jdiv. by rewrite Hz. }
  unfold jround. by rewrite jmin_10.
Qed.

Lemma quotient_monotone a1 a2 d1 d2 :
  (0 <= a1)%Q → (a1 <= a2)%Q → (0 < d2)%Q → (d2 <= d1)%Q → (a1 / d1 <= a2 / d2)%Q.
Proof.
  intros H0 Ha Hd2 Hd.
  assert (0 < d1)%Q as Hd1 by (by eapply Qlt_le_trans).
  assert (0 <= a1 / d1)%Q as Hq.
  { apply Qle_shift_div_l; [done|]. by rewrite Qmult_0_l. }
  apply Qle_shift_div_l; [done|].
  apply (Qle_trans _ (a1 / d1 * d1)).
  - rewrite !(Qmult_comm (a1 / d1)). by apply Qmult_le_compat_r.
  - rewrite Qmult_comm, Qmult_div_r; [done|].
    intros E. rewrite E in Hd1. by apply Qlt_irrefl in Hd1.
Qed.

(** X26.  Higher demand and shorter distance never lower the priority: for
    finite distances, a hotspot with at least as many bookings at no greater
    a distance gets at least the score.  Within 1 km the distance does not
    count, and two bookings there already give the top score. *)
Theorem priority_monotone count1 count2 q1 q2 :
  0 ≤ count1 ≤ count2 → (q2 <= q1)%Q →
  ∃ k1 k2,
    priorityOf count1 (Fin q1) = jnum k1 ∧
    priorityOf count2 (Fin q2) = jnum k2 ∧
    k1 ≤ k2 ≤ 10 ∧
    ((q1 <= 1)%Q → 2 ≤ count1 → k1 = 10).
Proof.
  intros [H0 Hc] Hq. rewrite !priorityOf_Fin. eexists _, _.
  split; [reflexivity|]. split; [reflexivity|].
  assert (0 <= inject_Z count1 * inject_Z 5)%Q as Hnum.
  { apply Qmult_le_0_compat; [|done]. unfold Qle. simpl. lia. }
  assert (inject_Z count1 * inject_Z 5 <= inject_Z count2 * inject_Z 5)%Q as Hle.
  { apply Qmult_le_compat_r; [|done]. unfold Qle. simpl. lia. }
  pose proof (quotient_monotone _ _ _ _ Hnum Hle (atLeastOne_pos q2)
                (atLeastOne_le _ _ Hq)) as Hquot.
  assert (Qfloor (inject_Z count1 * inject_Z 5 / atLeastOne q1 + (1 # 2))
          ≤ Qfloor (inject_Z count2 * inject_Z 5 / atLeastOne q2 + (1 # 2))) as Hfloor.
  { apply Qfloor_resp_le. by apply Qplus_le_l. }
  split; [lia|]. intros Hnear Hcount.
  assert (atLeastOne q1 = inject_Z 1) as ->.
  { unfold atLeastOne. destruct (Qltb (inject_Z 1) q1) eqn:H1; [|done].
    apply Qltb_lt in H1. exfalso. apply (Qlt_irrefl q1).
    eapply Qle_lt_trans; [exact Hnear|done]. }
  assert (10 ≤ Qfloor (inject_Z count1 * inject_Z 5 / inject_Z 1 + (1 # 2))); [|lia].
  change 10 with (Qfloor (inject_Z 10)). apply Qfloor_resp_le.
  apply (Qle_trans _ (inject_Z count1 * inject_Z 5 / inject_Z 1 + 0)).
  - rewrite Qplus_0_r. apply Qle_shift_div_l; [done|].
    rewrite Qmult_1_r. rewrite <- inject_Z_mult, <- Zle_Qle. lia.
  - by apply Qplus_le_r.
Qed.

(** Three bookings 4 km away score no more than five bookings 3 km away. *)
Lemma priority_monotone_witness :
  ∃ k1 k2,
    priorityOf 3 (Fin 4) = jnum k1 ∧ priorityOf 5 (Fin 3) = jnum k2 ∧ k1 ≤ k2 ≤ 10.
Proof.
  destruct (priority_monotone 3 5 4 3) as (k1 & k2 & H1 & H2 & H3 & _);
    [lia|by vm_compute|].
  exists k1, k2. auto.
Defined.

(** ** Errors in the running server *)













(** ** The booking a request stores *)


(** The variant of [POST /booking] on a request with string coordinates. *)
Example coordsRequest_stored :
  match bookingToStoreCoords Sample.env0 Sample.coordsRequest with
  | inr b => b_pickup b
  | inl _ => None
  end = Some (Sample.at_ (125 # 10) (7725 # 100)).
Proof. reflexivity. Qed.

(** ** From a request to an assignment *)

Lemma stepAssign_bookingOf rt p w : bookingOf (stepAssign rt p w).1 = bookingOf p.
Proof.
  destruct p as [env id|env id booking la ln|env id booking chosen
                |env id booking chosen|id r]; simpl; try done.
  - destruct (bookings w !! id) as [booking|]; [|done].
    destruct (negb (isPending booking)); [done|].
    by destruct (validatePickup booking) as [[la ln]|e].
  - by destruct (scanCandidates rt la ln (idleVehicleDocs w)).
  - destruct (runTransaction _ _) as [[[]|e] w3]; [|done].
    by destruct (cand_fcmToken chosen).
Qed.

(** A step of a call for another booking, or of a call past its
    transaction, leaves the booking alone. *)
Lemma stepAssign_other rt p w id :
  (bookingOf p = id →
   match p with Sending _ _ _ _ | Finished _ _ => True | _ => False end) →
  bookings (stepAssign rt p w).2 !! id = bookings w !! id ∧
  (bookingOf p = id →
   match (stepAssign rt p w).1 with
   | Sending _ _ _ _ | Finished _ _ => True
   | _ => False
   end).
Proof.
  intros Hp.
  destruct (stepAssign rt p w) as [p' w'] eqn:Hstep.
  pose proof Hstep as Hcases. apply stepAssign_cases in Hcases as [([Hb _] & _)|Hc].
  - simpl. rewrite Hb. split; [done|]. intros Hid. specialize (Hp Hid).
    destruct p; try done; simpl in Hstep; by injection Hstep as <- _.
  - destruct Hc as (env & id' & booking & chosen & bData & vData & -> & _ & _ & _ & _
                    & _ & Hbs & _).
    simpl in *. assert (id' ≠ id) as Hne by (intros ->; by apply Hp).
    rewrite Hbs, lookup_insert_ne by done. split; [done|]. intros Hid. by destruct Hne.
Qed.

Lemma react_settled rt e s id b :
  bookings (store s) !! id = Some b → settled id s →
  bookings (store (react rt e s).2) !! id = Some b ∧ settled id (react rt e s).2.
Proof.
  intros Hb Hset.
  assert (∀ env freshId doc,
            bookings (store (storeAndAssign env freshId doc s).2) !! id = Some b ∧
            settled id (storeAndAssign env freshId doc s).2) as Hpost.
  { intros env freshId doc. unfold storeAndAssign. destruct doc as [m|nb]; [done|].
    destruct (bookings (store s) !! freshId) eqn:Hfresh; [done|]. simpl.
    assert (freshId ≠ id) as Hne by congruence.
    rewrite lookup_insert_ne by done. split; [done|].
    unfold settled. simpl.
    intros i p Hl. apply lookup_app_Some in Hl as [Hl|[_ Hl]]; [by apply (Hset i)|].
    apply list_elem_of_lookup_2 in Hl. intros Hid.
    assert (AssignTask p = AssignTask (Started env freshId)) as Hp.
    { destruct (isPending nb); repeat (apply elem_of_cons in Hl as [->|Hl]; [done|]);
        by apply elem_of_nil in Hl. }
    injection Hp as ->. by destruct Hne. }
  assert (∀ new, (∀ t, t ∈ new → ∃ p, t = RebalanceTask p) →
            settled id {| store := store s; tasks := tasks s ++ new |}) as Hspawn.
  { intros new Hnew. unfold settled. simpl.
    intros i p Hl. apply lookup_app_Some in Hl as [Hl|[_ Hl]]; [by apply (Hset i)|].
    apply list_elem_of_lookup_2, Hnew in Hl as (q & Hq). discriminate. }
  destruct e as [j|env freshId payload|env freshId payload|env a|env]; simpl;
    try apply Hpost.
  - destruct (tasks s !! j) as [tj|] eqn:Hj; [|done].
    assert (j < length (tasks s))%nat as Hlt by (by eapply lookup_lt_Some).
    destruct tj as [p|p]; simpl.
    + pose proof (stepAssign_other rt p (store s) id (Hset _ _ Hj)) as [Hb' Hp'].
      pose proof (stepAssign_bookingOf rt p (store s)) as Hid.
      destruct (stepAssign rt p (store s)) as [p' w']. simpl in *.
      rewrite Hb'. split; [done|]. unfold settled. simpl. intros i q.
      destruct (decide (j = i)) as [<-|Hne].
      * rewrite list_lookup_insert_eq by done. intros [= <-] Hq. apply Hp'. congruence.
      * rewrite list_lookup_insert_ne by done. apply Hset.
    + pose proof (stepRebalance_store rt p (store s)) as [[Hb' _] _].
      destruct (stepRebalance rt p (store s)) as [p' w']. simpl in *.
      rewrite Hb'. split; [done|]. unfold settled. simpl. intros i q.
      destruct (decide (j = i)) as [<-|Hne].
      * by rewrite list_lookup_insert_eq.
      * rewrite list_lookup_insert_ne by done. apply Hset.
  - split; [done|]. apply Hspawn. intros t ->%list_elem_of_singleton. eauto.
  - split; [done|]. apply Hspawn. intros t ->%list_elem_of_singleton. eauto.
Qed.

(** X24.  Nothing retries.  Once the calls for a booking have ended (or are
    past their transaction), the booking stays exactly as it is whatever
    happens next: a booking left pending, because no vehicle was available
    or its call failed, is never assigned by the server. *)
Theorem pending_booking_is_never_retried rt events s id b :
  bookings (store s) !! id = Some b →
  settled id s →
  bookings (store (runEvents rt events s)) !! id = Some b.
Proof.
  intros Hb Hset.
  assert (bookings (store (runEvents rt events s)) !! id = Some b ∧
          settled id (runEvents rt events s)) as [H _]; [|done].
  induction events as [|e events [IH1 IH2]] using rev_ind; [done|].
  rewrite runEvents_snoc. by apply react_settled.
Qed.

Lemma settled_afterFailure : settled "b1" Sample.afterFailure.
Proof.
  intros i p Hl _. destruct i as [|i]; simpl in Hl.
  - by injection Hl as <-.
  - by destruct i.
Qed.

(** The booking with the latitude "abc" is still pending after its call
    has failed, a run of the rebalancer and a second request. *)
Lemma pending_booking_is_never_retried_witness :
  b_status <$>
    bookings
      (store (runEvents approxRuntime
                [TimerFires Sample.env0; Resume 1; Resume 0;
                 PostBooking Sample.env0 "b2" Sample.secondBooking; Resume 2; Resume 1]
                Sample.afterFailure)) !! "b1"
  = Some (Some "pending").
Proof.
  rewrite (pending_booking_is_never_retried approxRuntime
             [TimerFires Sample.env0; Resume 1; Resume 0;
              PostBooking Sample.env0 "b2" Sample.secondBooking; Resume 2; Resume 1]
             Sample.afterFailure "b1"
             (Sample.booking "pending"
                (Some {| lat := VStr "abc"; lng := VNum (Fin 0) |}) 3000000)
             eq_refl settled_afterFailure).
  reflexivity.
Defined.

(** X25.  From the request to the assignment.  A request for a pending
    booking with a valid pickup, posted when some vehicle is eligible,
    stores the booking and starts a call that, resumed four times with
    nothing in between, assigns the booking to an eligible vehicle. *)
Theorem posted_booking_is_assigned rt env freshId payload newBooking la ln s :
  bookingToStore env payload = inr newBooking →
  b_status newBooking = Some "pending" →
  validatePickup newBooking = Ok (la, ln) →
  bookings (store s) !! freshId = None →
  (∃ vid v, vehicles (store s) !! vid = Some v ∧ eligible v) →
  (react rt (PostBooking env freshId payload) s).1 = Some (BookingCreated freshId) ∧
  ∃ vid v b,
    tasks (runEvents rt (replicate 4 (Resume (length (tasks s))))
             (react rt (PostBooking env freshId payload) s).2)
      !! length (tasks s) = Some (winner freshId vid) ∧
    vehicles (store s) !! vid = Some v ∧ eligible v ∧
    bookings (store (runEvents rt (replicate 4 (Resume (length (tasks s))))
                       (react rt (PostBooking env freshId payload) s).2))
      !! freshId = Some b ∧
    b_status b = Some "assigned" ∧ b_assignedVehicleId b = Some vid.
Proof.
  intros Hdoc Hstatus Hval Hfresh (vid0 & v0 & Hv0 & Hel0).
  assert (isPending newBooking = true) as Hpend by by apply isPending_true.
  remember (addBooking freshId newBooking (store s)) as w1 eqn:Hw1.
  assert (bookings w1 !! freshId = Some newBooking) as Hb1
    by (rewrite Hw1; apply lookup_insert_eq).
  assert (vehicles w1 = vehicles (store s)) as Hv1 by (by rewrite Hw1).
  set (s1 := {| store := w1;
                tasks := tasks s ++ [AssignTask (Started env freshId);
                                     AssignTask (Started env freshId)] |}).
  assert (react rt (PostBooking env freshId payload) s
          = (Some (BookingCreated freshId), s1)) as ->.
  { simpl. unfold storeAndAssign. rewrite Hdoc, Hfresh, Hpend. unfold s1. by rewrite Hw1. }
  clear Hw1. split; [done|]. cbn [snd].
  assert (tasks s1 !! length (tasks s) = Some (AssignTask (Started env freshId))) as Hj.
  { unfold s1. simpl. by rewrite lookup_app_r, Nat.sub_diag by lia. }
  rewrite (runEvents_alone rt 4 _ s1 _ Hj). cbn [store tasks].
  rewrite list_lookup_insert_eq by (by eapply lookup_lt_Some).
  change (store s1) with w1.
  destruct (scanCandidates rt la ln (idleVehicleDocs w1)) as [|c cs] eqn:Hscan.
  { exfalso. apply (proj1 (scanCandidates_nil rt la ln w1) Hscan vid0 v0); [|done].
    by rewrite Hv1. }
  destruct (chosen_vehicle _ _ _ _ _ _ Hscan)
    as (v & loc & Hv & Hidle & Hlen & Hloc & Hla & Hln & _).
  set (chosen := chooseCandidate c cs) in *.
  set (w2 := log (LogChosen (cand_id chosen) (cand_dist chosen)
                    (cand_passengerCount chosen)) w1).
  assert (runAlone rt 4 (AssignTask (Started env freshId)) w1
          = runAlone rt 2 (AssignTask (Chose env freshId newBooking chosen)) w2) as ->.
  { simpl. rewrite Hb1, Hpend, Hval. simpl. by rewrite Hscan. }
  assert (runTransaction (assignTransaction env freshId chosen) w2
          = (Ok tt, assignedWorld env freshId chosen newBooking v w2)) as Htxn.
  { rewrite runTransaction_assign. change (bookings w2) with (bookings w1).
    change (vehicles w2) with (vehicles w1).
    by rewrite Hb1, Hpend, Hv, (proj2 (isFull_false _) Hlen). }
  exists (cand_id chosen), v. rewrite <- Hv1.
  assert (eligible v) as Hel by (split; [done|]; split; [done|]; eauto).
  simpl. rewrite Htxn.
  destruct (cand_fcmToken chosen); simpl; rewrite bookings_notifyDriver; simpl;
    rewrite lookup_insert_eq; eexists; done.
Qed.

(** The second booking, posted to the server on [worldPending], goes to
    "v1". *)
Lemma posted_booking_is_assigned_witness :
  ∃ vid v b,
    tasks (runEvents approxRuntime (replicate 4 (Resume 0))
             (react approxRuntime (PostBooking Sample.env0 "b2" Sample.secondBooking)
                {| store := Sample.worldPending; tasks := [] |}).2)
      !! 0%nat = Some (winner "b2" vid) ∧
    vehicles Sample.worldPending !! vid = Some v ∧ eligible v ∧
    bookings (store (runEvents approxRuntime (replicate 4 (Resume 0))
                       (react approxRuntime
                          (PostBooking Sample.env0 "b2" Sample.secondBooking)
                          {| store := Sample.worldPending; tasks := [] |}).2))
      !! "b2" = Some b ∧
    b_status b = Some "assigned" ∧ b_assignedVehicleId b = Some vid.
Proof.
  refine (proj2 (posted_booking_is_assigned approxRuntime Sample.env0 "b2"
                   Sample.secondBooking (newBookingOf Sample.env0 Sample.secondBooking)
                   (Fin 0) (Fin (2 # 100))
                   {| store := Sample.worldPending; tasks := [] |} _ _ _ _ _));
    try reflexivity.
  exists "v1", (Sample.vehicle (Sample.at_ 0 0) []). split; [reflexivity|].
  exact eligible_sample.
Defined.

(** ** What the rebalancer read before it writes *)


(** The run of the rebalancer reads the vehicles, the booking is assigned
    to "v1", and the run then sends "v1", which now carries the booking, to
    the hotspot. *)
Example target_for_a_vehicle_that_filled_up :
  (λ v, (v_currentPassengers v, v_targetLocation v)) <$>
    vehicles
      (store (runEvents approxRuntime
                [Resume 1; Resume 0; Resume 0; Resume 0; Resume 1; Resume 1]
                (boot Sample.env0 Sample.worldFar))) !! "v1"
  = Some (Some ["b1"], Some (Sample.at_ 10 10)).
Proof. by vm_compute. Qed.
